(** * json-to-sql-migration: schema diffing and SQL migration synthesis

    A shallow embedding of [src/index.ts]: the diff engine
    ([generateDatabaseDiff]), the two synthesis entry points
    ([generateInitialMigration], [generateMigrationFromDiff]) and their
    helpers, followed by the properties stated about them.

    Conventions of the embedding.
    - A JavaScript value of the surface schema (an [AnyExpression] or a
      [Condition]) is a [Json] tree; [undefined] is [None] of an option.
      Objects keep their entries in enumeration order.  Numbers are the
      integral ones (JSON has no NaN), strings are ASCII text.
    - A function that can throw returns a [Result]; the error is carried by
      its message.
    - [Date.now()] is an input of the program that is not an argument: the
      wall clock is a function from the rank of the call to the reading, and
      the code that reads it threads the rank ([Eff]).
    - The expression compiler of json-to-sql-parser ([parseExpression],
      [parseCondition]) is a collaborator outside the repository; it is a
      parameter of the development. *)

From stdpp Require Import gmap strings list pretty.

Set Warnings "-register-all".

(** ** Strings *)

Module Str.

(** [Array.prototype.join] on an array of strings. *)
Definition join (sep : string) (parts : list string) : string :=
  String.concat sep parts.

(** Truthiness of a string: [filter(Boolean)] keeps the non-empty ones. *)
Definition truthy (s : string) : bool :=
  match s with EmptyString => false | String _ _ => true end.

Definition upper_char (c : Ascii.ascii) : Ascii.ascii :=
  let n := Ascii.nat_of_ascii c in
  if (97 <=? n)%nat && (n <=? 122)%nat then Ascii.ascii_of_nat (n - 32) else c.

Definition lower_char (c : Ascii.ascii) : Ascii.ascii :=
  let n := Ascii.nat_of_ascii c in
  if (65 <=? n)%nat && (n <=? 90)%nat then Ascii.ascii_of_nat (n + 32) else c.

Fixpoint map_chars (f : Ascii.ascii → Ascii.ascii) (s : string) : string :=
  match s with
  | EmptyString => EmptyString
  | String c rest => String (f c) (map_chars f rest)
  end.

Definition toUpperCase : string → string := map_chars upper_char.
Definition toLowerCase : string → string := map_chars lower_char.

(** The single quote. *)
Definition quote : Ascii.ascii := Ascii.ascii_of_nat 39.

(** [s.replace(/'/g, "''")]: every single quote is doubled. *)
Fixpoint escapeQuotes (s : string) : string :=
  match s with
  | EmptyString => EmptyString
  | String c rest =>
      if decide (c = quote)
      then String quote (String quote (escapeQuotes rest))
      else String c (escapeQuotes rest)
  end.

(** [onDelete.replace(" ", " ")] replaces the first blank by a blank. *)
Definition replaceSpaceBySpace (s : string) : string := s.

Fixpoint startsWith (p s : string) : bool :=
  match p, s with
  | EmptyString, _ => true
  | String a p', String b s' => bool_decide (a = b) && startsWith p' s'
  | String _ _, EmptyString => false
  end.

(** [String.prototype.includes]. *)
Fixpoint includes (s sub : string) : bool :=
  startsWith sub s ||
  match s with
  | EmptyString => false
  | String _ rest => includes rest sub
  end.

(** [sub] occurs in [s]. *)
Definition Includes (s sub : string) : Prop :=
  ∃ before after, s = before +:+ sub +:+ after.

End Str.

(** ** Exceptions and the clock *)

(** The outcome of a call: a value, or a thrown error (its message). *)
Inductive Result (A : Type) : Type :=
  | Ok (value : A)
  | Throw (message : string).
Arguments Ok {A} value.
Arguments Throw {A} message.

Global Instance Result_ret : MRet Result := λ A, Ok.

Global Instance Result_bind : MBind Result := λ A B k r,
  match r with
  | Ok a => k a
  | Throw m => Throw m
  end.

(** [for (const x of xs) out.push(f(x))], stopping at the first throw. *)
Fixpoint forEach {A B} (f : A → Result B) (xs : list A) : Result (list B) :=
  match xs with
  | [] => Ok []
  | x :: rest => y ← f x; ys ← forEach f rest; Ok (y :: ys)
  end.

(** A computation that may read the clock: it receives the number of
    [Date.now()] calls made so far and returns the new count with its
    value, unless it throws. *)
Definition Eff (A : Type) : Type := nat → Result (A * nat).

Global Instance Eff_ret : MRet Eff := λ A a tick, Ok (a, tick).

Global Instance Eff_bind : MBind Eff := λ A B k c tick,
  match c tick with
  | Ok (a, tick') => k a tick'
  | Throw m => Throw m
  end.

(** A call that does not read the clock. *)
Definition lift {A} (r : Result A) : Eff A := λ tick,
  match r with
  | Ok a => Ok (a, tick)
  | Throw m => Throw m
  end.

Fixpoint forEachEff {A B} (f : A → Eff B) (xs : list A) : Eff (list B) :=
  match xs with
  | [] => mret []
  | x :: rest => y ← f x; ys ← forEachEff f rest; mret (y :: ys)
  end.

(** Run a computation from the first clock reading. *)
Definition run {A} (c : Eff A) : Result A :=
  match c 0%nat with
  | Ok (a, _) => Ok a
  | Throw m => Throw m
  end.

(** ** Data model ([DataModel], [FieldChange], [TableDiff], ...) *)

Inductive Dialect : Set :=
  | POSTGRESQL
  | SQLITE_MINIMAL
  | SQLITE_EXTENSIONS.

Global Instance Dialect_eq_dec : EqDecision Dialect.
Proof. solve_decision. Defined.

(** [dialect === Dialect.SQLITE_MINIMAL || dialect === Dialect.SQLITE_EXTENSIONS] *)
Definition isSQLite (dialect : Dialect) : bool :=
  bool_decide (dialect = SQLITE_MINIMAL) || bool_decide (dialect = SQLITE_EXTENSIONS).

Inductive Json : Type :=
  | JNull
  | JBool (b : bool)
  | JNumber (n : Z)
  | JString (s : string)
  | JArray (items : list Json)
  | JObject (entries : list (string * Json)).

Record ForeignKey : Type := {
  fk_table : string;
  fk_field : string;
  fk_onDelete : option string;
  fk_onUpdate : option string;
}.

Record Field : Type := {
  field_name : string;
  field_type : string;
  nonNullable : option bool;
  primaryKey : option bool;
  field_default : option Json;
  foreignKey : option ForeignKey;
}.

Record AccessControl : Type := {
  ac_read : Json;
  ac_create : Json;
  ac_update : Json;
  ac_delete : Json;
}.

Record Table : Type := {
  table_name : string;
  fields : list Field;
  accessControl : AccessControl;
}.

Record DataModel : Type := { tables : list Table }.

(** A [{ from, to }] pair. *)
Record Change (A : Type) : Type := { change_from : A; change_to : A }.
Arguments Build_Change {A} _ _.
Arguments change_from {A} _.
Arguments change_to {A} _.

Record FieldChange : Type := {
  ch_type : option (Change string);
  ch_nonNullable : option (Change bool);
  ch_primaryKey : option (Change bool);
  ch_default : option (Change (option Json));
  ch_foreignKey : option (Change (option ForeignKey));
}.

Record FieldModification : Type := {
  fm_field : Field;
  fm_changes : FieldChange;
}.

Record TableModification : Type := {
  tableName : string;
  fieldsAdded : list Field;
  fieldsRemoved : list Field;
  fieldsModified : list FieldModification;
  accessControlChanged : bool;
}.

Record AccessControlChange : Type := {
  acc_read : option (Change Json);
  acc_create : option (Change Json);
  acc_update : option (Change Json);
  acc_delete : option (Change Json);
}.

Record TableAccessChange : Type := {
  tac_tableName : string;
  tac_changes : AccessControlChange;
}.

Record TableDiff : Type := {
  added : list Table;
  removed : list Table;
  modified : list TableModification;
}.

Record AccessControlDiff : Type := { acd_tables : list TableAccessChange }.

Record DatabaseDiff : Type := {
  diff_tables : TableDiff;
  diff_accessControl : AccessControlDiff;
}.

Record MigrationResult : Type := {
  sql : string;
  accessControlDiff : AccessControlDiff;
}.

(** ** JavaScript values: property lookup, truthiness, [deepEqual] *)

(** [obj[key]], on the entries of an object. *)
Fixpoint getProp (key : string) (entries : list (string * Json)) : option Json :=
  match entries with
  | [] => None
  | (k, v) :: rest => if decide (k = key) then Some v else getProp key rest
  end.

(** [obj[key] = value]: an existing key keeps its place. *)
Fixpoint setProp (key : string) (value : Json) (entries : list (string * Json))
  : list (string * Json) :=
  match entries with
  | [] => [(key, value)]
  | (k, v) :: rest =>
      if decide (k = key) then (k, value) :: rest
      else (k, v) :: setProp key value rest
  end.

(** The entries of an array, keyed by index from [start]. *)
Fixpoint indexed (start : nat) (items : list Json) : list (string * Json) :=
  match items with
  | [] => []
  | x :: rest => (pretty start, x) :: indexed (S start) rest
  end.

(** [Object.entries(v)] for a value with [typeof v === "object"], [v] not null. *)
Definition ownEntries (v : Json) : list (string * Json) :=
  match v with
  | JArray items => indexed 0 items
  | JObject entries => entries
  | _ => []
  end.

(** [deepEqual] on two defined values.  [a === b] decides the primitives;
    two objects are compared by their keys, whether or not they are the same
    reference, and an object equals itself under that comparison
    ([deepEqualValue_refl]). *)
Fixpoint deepEqualValue (a b : Json) {struct a} : bool :=
  match a with
  | JNull => match b with JNull => true | _ => false end
  | JBool x => match b with JBool y => bool_decide (x = y) | _ => false end
  | JNumber x => match b with JNumber y => bool_decide (x = y) | _ => false end
  | JString x => match b with JString y => bool_decide (x = y) | _ => false end
  | JArray xs =>
      match b with
      | JArray _ | JObject _ =>
          let keysB := ownEntries b in
          bool_decide (length xs = length keysB) &&
          (fix each (i : nat) (xs : list Json) {struct xs} : bool :=
             match xs with
             | [] => true
             | x :: rest =>
                 match getProp (pretty i) keysB with
                 | None => false
                 | Some y => deepEqualValue x y && each (S i) rest
                 end
             end) 0%nat xs
      | _ => false
      end
  | JObject es =>
      match b with
      | JArray _ | JObject _ =>
          let keysB := ownEntries b in
          bool_decide (length es = length keysB) &&
          (fix each (es : list (string * Json)) {struct es} : bool :=
             match es with
             | [] => true
             | (key, x) :: rest =>
                 match getProp key keysB with
                 | None => false
                 | Some y => deepEqualValue x y && each rest
                 end
             end) es
      | _ => false
      end
  end.

(** [deepEqual(a, b)], where either side may be [undefined]. *)
Definition deepEqual (a b : option Json) : bool :=
  match a, b with
  | None, None => true
  | Some x, Some y => deepEqualValue x y
  | _, _ => false
  end.

(** The object a foreign-key descriptor is: optional keys are absent when
    not given. *)
Definition ForeignKey_value (fk : ForeignKey) : Json :=
  JObject
    ([("table", JString (fk_table fk)); ("field", JString (fk_field fk))]
     ++ match fk_onDelete fk with Some a => [("onDelete", JString a)] | None => [] end
     ++ match fk_onUpdate fk with Some a => [("onUpdate", JString a)] | None => [] end).

Definition AccessControl_value (ac : AccessControl) : Json :=
  JObject
    [("read", ac_read ac); ("create", ac_create ac);
     ("update", ac_update ac); ("delete", ac_delete ac)].

(** [new Map(rows.map((r) => [key(r), r]))]: a later row replaces an
    earlier one of the same key. *)
Definition Map_new {V} (key : V → string) (rows : list V) : gmap string V :=
  foldl (λ m r, <[key r := r]> m) ∅ rows.

(** [map.has(k)] *)
Definition Map_has {V} (m : gmap string V) (k : string) : bool :=
  bool_decide (is_Some (m !! k)).

(** ** Diff engine *)

(** [x ?? false] *)
Definition orFalse (x : option bool) : bool := default false x.

(** [Object.keys(changes).length > 0] *)
Definition FieldChange_nonEmpty (c : FieldChange) : bool :=
  bool_decide (is_Some (ch_type c)) || bool_decide (is_Some (ch_nonNullable c))
  || bool_decide (is_Some (ch_primaryKey c)) || bool_decide (is_Some (ch_default c))
  || bool_decide (is_Some (ch_foreignKey c)).

Definition fieldChanges (oldField newField : Field) : FieldChange :=
  {| ch_type :=
       if bool_decide (field_type oldField ≠ field_type newField)
       then Some (Build_Change (field_type oldField) (field_type newField))
       else None;
     ch_nonNullable :=
       if bool_decide (nonNullable oldField ≠ nonNullable newField)
       then Some (Build_Change (orFalse (nonNullable oldField))
                               (orFalse (nonNullable newField)))
       else None;
     ch_primaryKey :=
       if bool_decide (primaryKey oldField ≠ primaryKey newField)
       then Some (Build_Change (orFalse (primaryKey oldField))
                               (orFalse (primaryKey newField)))
       else None;
     ch_default :=
       if negb (deepEqual (field_default oldField) (field_default newField))
       then Some (Build_Change (field_default oldField) (field_default newField))
       else None;
     ch_foreignKey :=
       if negb (deepEqual (ForeignKey_value <$> foreignKey oldField)
                          (ForeignKey_value <$> foreignKey newField))
       then Some (Build_Change (foreignKey oldField) (foreignKey newField))
       else None |}.

Record FieldDiff : Type := {
  fd_fieldsAdded : list Field;
  fd_fieldsRemoved : list Field;
  fd_fieldsModified : list FieldModification;
}.

Definition generateFieldDiff (oldFields newFields : list Field) : FieldDiff :=
  let oldFieldMap := Map_new field_name oldFields in
  let newFieldMap := Map_new field_name newFields in
  {| fd_fieldsAdded :=
       filter (λ f, negb (Map_has oldFieldMap (field_name f))) newFields;
     fd_fieldsRemoved :=
       filter (λ f, negb (Map_has newFieldMap (field_name f))) oldFields;
     fd_fieldsModified :=
       omap (λ newField,
               match oldFieldMap !! field_name newField with
               | None => None
               | Some oldField =>
                   let changes := fieldChanges oldField newField in
                   if FieldChange_nonEmpty changes
                   then Some {| fm_field := newField; fm_changes := changes |}
                   else None
               end) newFields |}.

Definition generateTableDiff (oldTables newTables : list Table) : TableDiff :=
  let oldTableMap := Map_new table_name oldTables in
  let newTableMap := Map_new table_name newTables in
  {| added := filter (λ t, negb (Map_has oldTableMap (table_name t))) newTables;
     removed := filter (λ t, negb (Map_has newTableMap (table_name t))) oldTables;
     modified :=
       omap (λ newTable,
               match oldTableMap !! table_name newTable with
               | None => None
               | Some oldTable =>
                   let fieldChanges := generateFieldDiff (fields oldTable) (fields newTable) in
                   let accessControlChanged :=
                     negb (deepEqual (Some (AccessControl_value (accessControl oldTable)))
                                     (Some (AccessControl_value (accessControl newTable)))) in
                   if bool_decide (0 < length (fd_fieldsAdded fieldChanges))%nat
                      || bool_decide (0 < length (fd_fieldsRemoved fieldChanges))%nat
                      || bool_decide (0 < length (fd_fieldsModified fieldChanges))%nat
                      || accessControlChanged
                   then Some {| tableName := table_name newTable;
                                fieldsAdded := fd_fieldsAdded fieldChanges;
                                fieldsRemoved := fd_fieldsRemoved fieldChanges;
                                fieldsModified := fd_fieldsModified fieldChanges;
                                accessControlChanged := accessControlChanged |}
                   else None
               end) newTables |}.

Definition changeIfDiffers (from to : Json) : option (Change Json) :=
  if negb (deepEqual (Some from) (Some to)) then Some (Build_Change from to) else None.

(** [Object.keys(changes).length > 0] *)
Definition AccessControlChange_nonEmpty (c : AccessControlChange) : bool :=
  bool_decide (is_Some (acc_read c)) || bool_decide (is_Some (acc_create c))
  || bool_decide (is_Some (acc_update c)) || bool_decide (is_Some (acc_delete c)).

(** The change recorded for a table without a prior state: every operation
    goes from the permissive default [true] to the declared condition. *)
Definition fromPermissiveDefault (table : Table) : TableAccessChange :=
  let defaultCondition := JBool true in
  {| tac_tableName := table_name table;
     tac_changes :=
       {| acc_read := Some (Build_Change defaultCondition (ac_read (accessControl table)));
          acc_create := Some (Build_Change defaultCondition (ac_create (accessControl table)));
          acc_update := Some (Build_Change defaultCondition (ac_update (accessControl table)));
          acc_delete := Some (Build_Change defaultCondition (ac_delete (accessControl table))) |} |}.

Definition generateAccessControlDiff (oldTables newTables : list Table) : AccessControlDiff :=
  let oldTableMap := Map_new table_name oldTables in
  {| acd_tables :=
       omap (λ newTable,
               match oldTableMap !! table_name newTable with
               | None => Some (fromPermissiveDefault newTable)
               | Some oldTable =>
                   let o := accessControl oldTable in
                   let n := accessControl newTable in
                   let changes :=
                     {| acc_read := changeIfDiffers (ac_read o) (ac_read n);
                        acc_create := changeIfDiffers (ac_create o) (ac_create n);
                        acc_update := changeIfDiffers (ac_update o) (ac_update n);
                        acc_delete := changeIfDiffers (ac_delete o) (ac_delete n) |} in
                   if AccessControlChange_nonEmpty changes
                   then Some {| tac_tableName := table_name newTable; tac_changes := changes |}
                   else None
               end) newTables |}.

Definition generateAccessControlDiffForFullMigration (tables : list Table) : AccessControlDiff :=
  {| acd_tables := map fromPermissiveDefault tables |}.

Definition generateDatabaseDiff (oldModel newModel : DataModel) : DatabaseDiff :=
  {| diff_tables := generateTableDiff (tables oldModel) (tables newModel);
     diff_accessControl := generateAccessControlDiff (tables oldModel) (tables newModel) |}.

(** ** SQL text *)

(** The double quote and the line feed of the template literals. *)
Definition dq : string := String (Ascii.ascii_of_nat 34) EmptyString.
Definition nl : string := String (Ascii.ascii_of_nat 10) EmptyString.

(** ["${s}"], the text [s] between double quotes. *)
Definition quoted (s : string) : string := dq +:+ s +:+ dq.

(** Truthiness of an optional flag and of an optional string. *)
Definition isTrue (flag : option bool) : bool := default false flag.
Definition nonEmpty (s : option string) : bool := from_option Str.truthy false s.

Fixpoint lookupKey {V} (key : string) (table : list (string * V)) : option V :=
  match table with
  | [] => None
  | (k, v) :: rest => if decide (k = key) then Some v else lookupKey key rest
  end.

Definition typeMap (dialect : Dialect) : list (string * string) :=
  match dialect with
  | POSTGRESQL =>
      [("string", "TEXT"); ("number", "NUMERIC"); ("boolean", "BOOLEAN");
       ("object", "JSONB"); ("date", "DATE");
       ("datetime", "TIMESTAMP WITH TIME ZONE"); ("uuid", "UUID")]
  | SQLITE_MINIMAL =>
      [("string", "TEXT"); ("number", "REAL"); ("boolean", "INTEGER");
       ("object", "TEXT"); ("date", "TEXT"); ("datetime", "TEXT"); ("uuid", "TEXT")]
  | SQLITE_EXTENSIONS =>
      [("string", "TEXT"); ("number", "REAL"); ("boolean", "INTEGER");
       ("object", "JSON"); ("date", "TEXT"); ("datetime", "TEXT"); ("uuid", "TEXT")]
  end.

Definition mapFieldTypeToSQL (fieldType : string) (dialect : Dialect) : string :=
  default "TEXT" (lookupKey fieldType (typeMap dialect)).

(** ** The context handed to the expression compiler *)

Inductive ExpressionTypeMap : Set := new_ExpressionTypeMap.

Record AllowedField : Type := {
  af_name : string;
  af_type : string;
  af_nullable : bool;
  af_default : option Json;
}.

Record Relationship : Type := {
  rel_table : string;
  rel_field : string;
  rel_toTable : string;
  rel_toField : string;
  rel_type : string;
}.

Record Config : Type := {
  cfg_tables : gmap string (list AllowedField);
  cfg_variables : gmap string Json;
  cfg_relationships : list Relationship;
  cfg_dialect : Dialect;
}.

Record ParserState : Type := {
  st_config : Config;
  st_rootTable : string;
  st_expressions : ExpressionTypeMap;
}.

Definition mapFieldType (fieldType : string) : string :=
  let t := Str.toLowerCase fieldType in
  if bool_decide (t ∈ ["text"; "string"; "varchar"; "char"]) then "string"
  else if bool_decide (t ∈ ["int"; "integer"; "bigint"; "smallint"; "decimal";
                            "numeric"; "real"; "double"; "float"]) then "number"
  else if bool_decide (t ∈ ["bool"; "boolean"]) then "boolean"
  else if bool_decide (t ∈ ["json"; "jsonb"]) then "object"
  else if bool_decide (t = "date") then "date"
  else if bool_decide (t ∈ ["datetime"; "timestamp"; "timestamptz"]) then "datetime"
  else if bool_decide (t = "uuid") then "uuid"
  else "string".

Definition createParserConfig (model : DataModel) (dialect : Dialect) : Config :=
  {| cfg_tables :=
       foldl (λ acc table,
                <[table_name table :=
                    map (λ field,
                           {| af_name := field_name field;
                              af_type := mapFieldType (field_type field);
                              af_nullable := negb (isTrue (nonNullable field));
                              af_default := field_default field |})
                        (fields table)]> acc)
             ∅ (tables model);
     cfg_variables :=
       {[ "user_id" :=
            JObject [("$uuid", JString "550e8400-e29b-41d4-a716-446655440000")] ]};
     cfg_relationships :=
       flat_map (λ table,
                   omap (λ field,
                           fk ← foreignKey field;
                           Some {| rel_table := table_name table;
                                   rel_field := field_name field;
                                   rel_toTable := fk_table fk;
                                   rel_toField := fk_field fk;
                                   rel_type := "many-to-one" |})
                        (fields table))
                (tables model);
     cfg_dialect := dialect |}.

(** The configuration used when no model is passed. *)
Definition emptyConfig (dialect : Dialect) : Config :=
  {| cfg_tables := ∅; cfg_variables := ∅; cfg_relationships := [];
     cfg_dialect := dialect |}.

(** ** Function-name normalisation *)

Definition normalizedName (funcName : string) : string :=
  if bool_decide (Str.toLowerCase funcName = "now") then "NOW"
  else Str.toUpperCase funcName.

(** [key in obj] *)
Definition hasProp (key : string) (entries : list (string * Json)) : bool :=
  bool_decide (is_Some (getProp key entries)).

Section Normalize.

(** The message of the [TypeError] the engine raises when [Object.entries]
    or [.map] is applied to a value that does not admit it; the source
    does not fix its text. *)
Variable TypeError : Json → string.

Fixpoint normalizeExpression (expression : Json) : Result Json :=
  match expression with
  | JObject entries =>
      if hasProp "$func" entries then
        (fix find (es : list (string * Json)) : Result Json :=
           match es with
           | [] => Ok expression
           | (k, funcExpr) :: others =>
               if decide (k = "$func") then
                 match funcExpr with
                 | JNull => Throw (TypeError JNull)
                 | JBool _ | JNumber _ => Ok (JObject [("$func", JObject [])])
                 | JString EmptyString => Ok (JObject [("$func", JObject [])])
                 | JString (String c _) =>
                     Throw (TypeError (JString (String c EmptyString)))
                 | JArray funcs =>
                     (fix eachFunc (i : nat) (funcs : list Json)
                          (normalizedFunc : list (string * Json)) : Result Json :=
                        match funcs with
                        | [] => Ok (JObject [("$func", JObject normalizedFunc)])
                        | args :: more =>
                            match args with
                            | JArray items =>
                                items' ←
                                  (fix eachArg (items : list Json) : Result (list Json) :=
                                     match items with
                                     | [] => Ok []
                                     | arg :: rest =>
                                         a ← normalizeExpression arg;
                                         r ← eachArg rest;
                                         Ok (a :: r)
                                     end) items;
                                eachFunc (S i) more
                                  (setProp (normalizedName (pretty i)) (JArray items')
                                           normalizedFunc)
                            | _ => Throw (TypeError args)
                            end
                        end) 0%nat funcs []
                 | JObject funcs =>
                     (fix eachFunc (funcs : list (string * Json))
                          (normalizedFunc : list (string * Json)) : Result Json :=
                        match funcs with
                        | [] => Ok (JObject [("$func", JObject normalizedFunc)])
                        | (funcName, args) :: more =>
                            match args with
                            | JArray items =>
                                items' ←
                                  (fix eachArg (items : list Json) : Result (list Json) :=
                                     match items with
                                     | [] => Ok []
                                     | arg :: rest =>
                                         a ← normalizeExpression arg;
                                         r ← eachArg rest;
                                         Ok (a :: r)
                                     end) items;
                                eachFunc more
                                  (setProp (normalizedName funcName) (JArray items')
                                           normalizedFunc)
                            | _ => Throw (TypeError args)
                            end
                        end) funcs []
                 end
               else find others
           end) entries
      else
        (fix eachEntry (es : list (string * Json))
             (normalized : list (string * Json)) : Result Json :=
           match es with
           | [] => Ok (JObject normalized)
           | (key, value) :: rest =>
               match value with
               | JArray _ | JObject _ =>
                   v ← normalizeExpression value;
                   eachEntry rest (setProp key v normalized)
               | _ => eachEntry rest (setProp key value normalized)
               end
           end) entries []
  | _ => Ok expression
  end.

End Normalize.

(** ** Migration synthesizer *)

(** [ ON DELETE ...] and [ ON UPDATE ...], appended when the action is set. *)
Definition referentialActions (fk : ForeignKey) : string :=
  (if nonEmpty (fk_onDelete fk)
   then " ON DELETE " +:+
        Str.replaceSpaceBySpace (Str.toUpperCase (default "" (fk_onDelete fk)))
   else "")
  +:+
  (if nonEmpty (fk_onUpdate fk)
   then " ON UPDATE " +:+
        Str.replaceSpaceBySpace (Str.toUpperCase (default "" (fk_onUpdate fk)))
   else "").

(** [fk_${tableName}_${fieldName}] *)
Definition constraintName (tableName fieldName : string) : string :=
  "fk_" +:+ tableName +:+ "_" +:+ fieldName.

(** The [ALTER TABLE ... ADD CONSTRAINT ... FOREIGN KEY] statement. *)
Definition addConstraintSQL (tableName fieldName : string) (fk : ForeignKey) : string :=
  "ALTER TABLE " +:+ quoted tableName +:+ " ADD CONSTRAINT "
  +:+ quoted (constraintName tableName fieldName)
  +:+ " FOREIGN KEY (" +:+ quoted fieldName +:+ ") REFERENCES "
  +:+ quoted (fk_table fk) +:+ " (" +:+ quoted (fk_field fk) +:+ ")"
  +:+ referentialActions fk +:+ ";".

Definition dropConstraintSQL (tableName fieldName : string) : string :=
  "ALTER TABLE " +:+ quoted tableName +:+ " DROP CONSTRAINT IF EXISTS "
  +:+ quoted (constraintName tableName fieldName) +:+ ";".

Definition dropColumnSQL (tableName fieldName : string) : string :=
  "ALTER TABLE " +:+ quoted tableName +:+ " DROP COLUMN " +:+ quoted fieldName +:+ ";".

Definition dropTableSQL (tableName : string) : string :=
  "DROP TABLE IF EXISTS " +:+ quoted tableName +:+ ";".

Definition enableRLSSQL (tableName : string) : string :=
  "ALTER TABLE " +:+ quoted tableName +:+ " ENABLE ROW LEVEL SECURITY;".

(** The four statements of a column rebuild. *)
Definition rebuildAddSQL (tableName newColumnName newType : string) : string :=
  "ALTER TABLE " +:+ quoted tableName +:+ " ADD COLUMN " +:+ quoted newColumnName
  +:+ " " +:+ newType +:+ ";".
Definition rebuildCopySQL (tableName newColumnName fieldName newType : string) : string :=
  "UPDATE " +:+ quoted tableName +:+ " SET " +:+ quoted newColumnName
  +:+ " = CAST(" +:+ quoted fieldName +:+ " AS " +:+ newType +:+ ");".
Definition rebuildRenameSQL (tableName newColumnName fieldName : string) : string :=
  "ALTER TABLE " +:+ quoted tableName +:+ " RENAME COLUMN " +:+ quoted newColumnName
  +:+ " TO " +:+ quoted fieldName +:+ ";".

(** [${field.name}_${Date.now()}_new] *)
Definition temporaryColumnName (fieldName : string) (now : Z) : string :=
  fieldName +:+ "_" +:+ pretty now +:+ "_new".

(** The statements pushed for a type change where the column cannot be
    retyped in place. *)
Definition columnRebuild (tableName fieldName newType : string) (now : Z) : list string :=
  let newColumnName := temporaryColumnName fieldName now in
  [rebuildAddSQL tableName newColumnName newType;
   rebuildCopySQL tableName newColumnName fieldName newType;
   dropColumnSQL tableName fieldName;
   rebuildRenameSQL tableName newColumnName fieldName].

Definition alterTypeSQL (tableName fieldName newType : string) : string :=
  "ALTER TABLE " +:+ quoted tableName +:+ " ALTER COLUMN " +:+ quoted fieldName
  +:+ " TYPE " +:+ newType +:+ ";".

Definition alterNullabilitySQL (tableName fieldName : string) (to : bool) : string :=
  "ALTER TABLE " +:+ quoted tableName +:+ " ALTER COLUMN " +:+ quoted fieldName
  +:+ " " +:+ (if to then "SET NOT NULL" else "DROP NOT NULL") +:+ ";".

Definition dropDefaultSQL (tableName fieldName : string) : string :=
  "ALTER TABLE " +:+ quoted tableName +:+ " ALTER COLUMN " +:+ quoted fieldName
  +:+ " DROP DEFAULT;".

Definition setDefaultSQL (tableName fieldName value : string) : string :=
  "ALTER TABLE " +:+ quoted tableName +:+ " ALTER COLUMN " +:+ quoted fieldName
  +:+ " SET DEFAULT " +:+ value +:+ ";".

Definition dropPolicySQL (tableName operation : string) : string :=
  "DROP POLICY IF EXISTS " +:+ quoted (tableName +:+ "_" +:+ operation +:+ "_policy")
  +:+ " ON " +:+ quoted tableName +:+ ";".

(** [CREATE POLICY "t_op_policy" ON "t" FOR <command> <clause> (<condition>);] *)
Definition createPolicySQL (tableName operation command clause condition : string)
  : string :=
  "CREATE POLICY " +:+ quoted (tableName +:+ "_" +:+ operation +:+ "_policy")
  +:+ " ON " +:+ quoted tableName +:+ " FOR " +:+ command +:+ " " +:+ clause
  +:+ " (" +:+ condition +:+ ");".

Section Synthesizer.

(** The expression compiler of json-to-sql-parser, which is not part of the
    repository, is a parameter.  Following section 5 of the specification a
    call is a synchronous, side-effect-free function of the tree and of the
    context: it returns the SQL text or throws a compilation error.
    [TypeError] is the message of the engine's [TypeError], see
    [normalizeExpression]. *)
Variable parseExpression : Json → ParserState → Result string.
Variable parseCondition : Json → ParserState → Result string.
Variable TypeError : Json → string.

(** The wall clock: [clock k] is what the call of rank [k] to [Date.now()]
    returns. *)
Variable clock : nat → Z.

Definition Date_now : Eff Z := λ tick, Ok (clock tick, S tick).

Definition formatDefaultValue (value : option Json) (dialect : Dialect)
    (model : option DataModel) : Result string :=
  match value with
  | None | Some JNull => Ok "NULL"
  | Some (JString s) => Ok ("'" +:+ Str.escapeQuotes s +:+ "'")
  | Some (JNumber n) => Ok (pretty n)
  | Some (JBool b) =>
      if isSQLite dialect then Ok (if b then "1" else "0")
      else Ok (if b then "true" else "false")
  | Some ((JArray _ | JObject _) as v) =>
      let attempt : Result string :=
        normalizedValue ← normalizeExpression TypeError v;
        let config :=
          match model with
          | Some m => createParserConfig m dialect
          | None => emptyConfig dialect
          end in
        let state :=
          {| st_config := config; st_rootTable := "";
             st_expressions := new_ExpressionTypeMap |} in
        sql ← parseExpression normalizedValue state;
        if isSQLite dialect && bool_decide (sql = "DATETIME()")
        then Ok "CURRENT_TIMESTAMP"
        else Ok sql in
      match attempt with
      | Ok sql => Ok sql
      | Throw message => Throw ("Failed to parse expression: " +:+ message)
      end
  end.

(** [ DEFAULT ...], pushed when the field declares a default. *)
Definition defaultClause (field : Field) (dialect : Dialect) : Result (list string) :=
  match field_default field with
  | Some v =>
      d ← formatDefaultValue (Some v) dialect None;
      Ok ["DEFAULT " +:+ d]
  | None => Ok []
  end.

(** The [parts] of a column definition of [CREATE TABLE]. *)
Definition columnParts (field : Field) (dialect : Dialect) : Result (list string) :=
  let parts := [quoted (field_name field); mapFieldTypeToSQL (field_type field) dialect] in
  let parts := if isTrue (primaryKey field) then parts ++ ["PRIMARY KEY"] else parts in
  let parts :=
    if isTrue (nonNullable field) && negb (isTrue (primaryKey field))
    then parts ++ ["NOT NULL"] else parts in
  d ← defaultClause field dialect;
  Ok (parts ++ d).

Definition inlineForeignKey (field : Field) : option string :=
  fk ← foreignKey field;
  Some ("  FOREIGN KEY (" +:+ quoted (field_name field) +:+ ") REFERENCES "
        +:+ quoted (fk_table fk) +:+ " (" +:+ quoted (fk_field fk) +:+ ")"
        +:+ referentialActions fk).

Definition generateCreateTableSQL (table : Table) (dialect : Dialect) : Result string :=
  columns ← forEach (λ field,
                       parts ← columnParts field dialect;
                       Ok ("  " +:+ Str.join " " parts))
                    (fields table);
  let foreignKeys :=
    if isSQLite dialect then omap inlineForeignKey (fields table) else [] in
  let allColumns := columns ++ foreignKeys in
  let sql :=
    "CREATE TABLE " +:+ quoted (table_name table) +:+ " (" +:+ nl
    +:+ Str.join ("," +:+ nl) allColumns +:+ nl +:+ ");" in
  if bool_decide (dialect = POSTGRESQL)
  then Ok (sql +:+ nl +:+ nl +:+ enableRLSSQL (table_name table))
  else Ok sql.

(** The [parts] of an [ADD COLUMN] statement. *)
Definition addColumnParts (tableName : string) (field : Field) (dialect : Dialect)
  : Result (list string) :=
  let parts :=
    ["ALTER TABLE " +:+ quoted tableName; "ADD COLUMN"; quoted (field_name field);
     mapFieldTypeToSQL (field_type field) dialect] in
  let parts := if isTrue (nonNullable field) then parts ++ ["NOT NULL"] else parts in
  d ← defaultClause field dialect;
  Ok (parts ++ d).

Definition generateAddColumnSQL (tableName : string) (field : Field) (dialect : Dialect)
  : Result string :=
  parts ← addColumnParts tableName field dialect;
  Ok (Str.join " " parts +:+ ";").

(** The statements pushed for a type change. *)
Definition typeChangeParts (tableName : string) (field : Field)
    (changes : FieldChange) (dialect : Dialect) : Eff (list string) :=
  match ch_type changes with
  | Some c =>
      let newType := mapFieldTypeToSQL (change_to c) dialect in
      if bool_decide (dialect = POSTGRESQL)
      then mret [alterTypeSQL tableName (field_name field) newType]
      else
        now ← Date_now;
        mret (columnRebuild tableName (field_name field) newType now)
  | None => mret []
  end.

(** The statements pushed for a nullability change. *)
Definition nullabilityChangeParts (tableName : string) (field : Field)
    (changes : FieldChange) (dialect : Dialect) : list string :=
  match ch_nonNullable changes with
  | Some c =>
      if bool_decide (dialect = POSTGRESQL)
      then [alterNullabilitySQL tableName (field_name field) (change_to c)]
      else []
  | None => []
  end.

(** The statements pushed for a change of default. *)
Definition defaultChangeParts (tableName : string) (field : Field)
    (changes : FieldChange) (dialect : Dialect) : Result (list string) :=
  match ch_default changes with
  | Some c =>
      if bool_decide (dialect = POSTGRESQL) then
        match change_to c with
        | None => Ok [dropDefaultSQL tableName (field_name field)]
        | Some v =>
            d ← formatDefaultValue (Some v) dialect None;
            Ok [setDefaultSQL tableName (field_name field) d]
        end
      else Ok []
  | None => Ok []
  end.

(** The [sqlParts] of [generateAlterColumnSQL], before they are joined. *)
Definition alterColumnParts (tableName : string) (field : Field)
    (changes : FieldChange) (dialect : Dialect) : Eff (list string) :=
  typeParts ← typeChangeParts tableName field changes dialect;
  let nullabilityParts := nullabilityChangeParts tableName field changes dialect in
  defaultParts ← lift (defaultChangeParts tableName field changes dialect);
  mret (typeParts ++ nullabilityParts ++ defaultParts).

Definition generateAlterColumnSQL (tableName : string) (field : Field)
    (changes : FieldChange) (dialect : Dialect) : Eff string :=
  sqlParts ← alterColumnParts tableName field changes dialect;
  mret (Str.join nl sqlParts).

(** The [CREATE POLICY] statement of one operation, when it changed. *)
Definition policyPart (tableName operation command clause : string)
    (change : option (Change Json)) (state : ParserState) : Result (list string) :=
  match change with
  | Some c =>
      condition ← parseCondition (change_to c) state;
      Ok [createPolicySQL tableName operation command clause condition]
  | None => Ok []
  end.

Definition policyState (tableName : string) (model : DataModel) : ParserState :=
  {| st_config := createParserConfig model POSTGRESQL;
     st_rootTable := tableName;
     st_expressions := new_ExpressionTypeMap |}.

Definition dropPolicies (tableName : string) : list string :=
  [dropPolicySQL tableName "read"; dropPolicySQL tableName "create";
   dropPolicySQL tableName "update"; dropPolicySQL tableName "delete"].

(** The statements pushed for one table of the access-control diff. *)
Definition tablePolicies (model : DataModel) (table : TableAccessChange)
  : Result (list string) :=
  let tableName := tac_tableName table in
  let state := policyState tableName model in
  r ← policyPart tableName "read" "SELECT" "USING" (acc_read (tac_changes table)) state;
  c ← policyPart tableName "create" "INSERT" "WITH CHECK"
                 (acc_create (tac_changes table)) state;
  u ← policyPart tableName "update" "UPDATE" "USING" (acc_update (tac_changes table)) state;
  d ← policyPart tableName "delete" "DELETE" "USING" (acc_delete (tac_changes table)) state;
  Ok (dropPolicies tableName ++ r ++ c ++ u ++ d).

Definition generateRLSPoliciesSQL (accessControlDiff : AccessControlDiff)
    (model : DataModel) : Result (list string) :=
  blocks ← forEach (tablePolicies model) (acd_tables accessControlDiff);
  Ok (concat blocks).

(** The foreign-key statements of the bootstrap path, table by table. *)
Definition initialConstraints (model : DataModel) : list string :=
  flat_map (λ table,
              omap (λ field,
                      fk ← foreignKey field;
                      Some (addConstraintSQL (table_name table) (field_name field) fk))
                   (fields table))
           (tables model).

(** The [sqlParts] of [generateInitialMigration] before the policies. *)
Definition initialTableParts (model : DataModel) (dialect : Dialect)
  : Result (list string) :=
  creates ← forEach (λ table, generateCreateTableSQL table dialect) (tables model);
  Ok (creates ++
      (if bool_decide (dialect = POSTGRESQL) then initialConstraints model else [])).

Definition generateInitialMigration (model : DataModel) (dialect : Dialect)
  : Result MigrationResult :=
  sqlParts ← initialTableParts model dialect;
  if bool_decide (dialect = POSTGRESQL) then
    let accessControlDiff := generateAccessControlDiffForFullMigration (tables model) in
    policies ← generateRLSPoliciesSQL accessControlDiff model;
    Ok {| sql := Str.join (nl +:+ nl) (filter Str.truthy (sqlParts ++ policies));
          accessControlDiff := accessControlDiff |}
  else
    Ok {| sql := Str.join (nl +:+ nl) (filter Str.truthy sqlParts);
          accessControlDiff := {| acd_tables := [] |} |}.

(** The statements pushed for an added field. *)
Definition addedFieldParts (tableName : string) (dialect : Dialect) (field : Field)
  : Result (list string) :=
  add ← generateAddColumnSQL tableName field dialect;
  Ok (add ::
      match foreignKey field with
      | Some fk =>
          if bool_decide (dialect = POSTGRESQL)
          then [addConstraintSQL tableName (field_name field) fk]
          else []
      | None => []
      end).

(** The statements pushed for a removed field. *)
Definition removedFieldParts (tableName : string) (dialect : Dialect) (field : Field)
  : list string :=
  match foreignKey field with
  | Some _ =>
      if bool_decide (dialect = POSTGRESQL)
      then [dropConstraintSQL tableName (field_name field)]
      else []
  | None => []
  end ++ [dropColumnSQL tableName (field_name field)].

(** The statements pushed for a foreign-key change. *)
Definition foreignKeyChangeParts (tableName : string) (dialect : Dialect)
    (fieldMod : FieldModification) : list string :=
  match ch_foreignKey (fm_changes fieldMod) with
  | Some c =>
      if bool_decide (dialect = POSTGRESQL) then
        match change_from c with
        | Some _ => [dropConstraintSQL tableName (field_name (fm_field fieldMod))]
        | None => []
        end ++
        match change_to c with
        | Some fk => [addConstraintSQL tableName (field_name (fm_field fieldMod)) fk]
        | None => []
        end
      else []
  | None => []
  end.

(** The statements pushed for a modified field. *)
Definition modifiedFieldParts (tableName : string) (dialect : Dialect)
    (fieldMod : FieldModification) : Eff (list string) :=
  alter ← generateAlterColumnSQL tableName (fm_field fieldMod)
                                 (fm_changes fieldMod) dialect;
  mret (foreignKeyChangeParts tableName dialect fieldMod ++ [alter]).

(** The statements pushed for one table modification. *)
Definition modificationParts (dialect : Dialect) (modification : TableModification)
  : Eff (list string) :=
  let tableName := tableName modification in
  addedParts ← lift (forEach (addedFieldParts tableName dialect)
                             (fieldsAdded modification));
  let removedParts :=
    flat_map (removedFieldParts tableName dialect) (fieldsRemoved modification) in
  modifiedParts ← forEachEff (modifiedFieldParts tableName dialect)
                             (fieldsModified modification);
  mret (concat addedParts ++ removedParts ++ concat modifiedParts).

(** The [sqlParts] of [generateMigrationFromDiff]. *)
Definition diffParts (diff : DatabaseDiff) (targetModel : DataModel)
    (dialect : Dialect) : Eff (list string) :=
  let removedParts :=
    map (λ table, dropTableSQL (table_name table)) (removed (diff_tables diff)) in
  addedParts ← lift (forEach (λ table, generateCreateTableSQL table dialect)
                             (added (diff_tables diff)));
  modifiedParts ← forEachEff (modificationParts dialect) (modified (diff_tables diff));
  policies ←
    (if bool_decide (dialect = POSTGRESQL)
     then lift (generateRLSPoliciesSQL (diff_accessControl diff) targetModel)
     else mret []);
  mret (removedParts ++ addedParts ++ concat modifiedParts ++ policies).

Definition generateMigrationFromDiff (diff : DatabaseDiff) (targetModel : DataModel)
    (dialect : Dialect) : Result MigrationResult :=
  run (sqlParts ← diffParts diff targetModel dialect;
       mret {| sql := Str.join (nl +:+ nl) (filter Str.truthy sqlParts);
               accessControlDiff := diff_accessControl diff |}).

End Synthesizer.

(** * Vocabulary of the statements *)

(** ** Table names and well-formed snapshots *)

Definition tableNames (ts : list Table) : gset string :=
  list_to_set (map table_name ts).

(** An object has one entry per key. *)
Fixpoint wellFormed (v : Json) : bool :=
  match v with
  | JArray items => forallb wellFormed items
  | JObject entries =>
      bool_decide (NoDup entries.*1) && forallb (λ e, wellFormed e.2) entries
  | _ => true
  end.

(** A field is well formed when its default is a well-formed value. *)
Definition Field_wf (field : Field) : Prop :=
  from_option (λ x, Is_true (wellFormed x)) True (field_default field).

Definition AccessControl_wf (ac : AccessControl) : Prop :=
  wellFormed (ac_read ac) ∧ wellFormed (ac_create ac)
  ∧ wellFormed (ac_update ac) ∧ wellFormed (ac_delete ac).

(** Field names are unique within a table. *)
Definition Table_wf (table : Table) : Prop :=
  NoDup (map field_name (fields table))
  ∧ Forall Field_wf (fields table)
  ∧ AccessControl_wf (accessControl table).

(** Table names are unique within a snapshot. *)
Definition DataModel_wf (model : DataModel) : Prop :=
  NoDup (map table_name (tables model)) ∧ Forall Table_wf (tables model).

Global Instance Field_wf_dec (field : Field) : Decision (Field_wf field).
Proof. unfold Field_wf. destruct (field_default field); apply _. Defined.

Global Instance AccessControl_wf_dec (ac : AccessControl) : Decision (AccessControl_wf ac).
Proof. unfold AccessControl_wf. apply _. Defined.

Global Instance Table_wf_dec (table : Table) : Decision (Table_wf table).
Proof. unfold Table_wf. apply _. Defined.

Global Instance DataModel_wf_dec (model : DataModel) : Decision (DataModel_wf model).
Proof. unfold DataModel_wf. apply _. Defined.

(** ** Statements and changes *)

(** The policy block of a table: four drops, then the four policies with the
    conditions as compiled. *)
Definition policyBlock (tableName read create update delete : string) : list string :=
  dropPolicies tableName
  ++ [createPolicySQL tableName "read" "SELECT" "USING" read;
      createPolicySQL tableName "create" "INSERT" "WITH CHECK" create;
      createPolicySQL tableName "update" "UPDATE" "USING" update;
      createPolicySQL tableName "delete" "DELETE" "USING" delete].

(** A field change without its nullability part. *)
Definition withoutNullability (changes : FieldChange) : FieldChange :=
  {| ch_type := ch_type changes;
     ch_nonNullable := None;
     ch_primaryKey := ch_primaryKey changes;
     ch_default := ch_default changes;
     ch_foreignKey := ch_foreignKey changes |}.

Definition withoutNullabilityIn (fieldMod : FieldModification) : FieldModification :=
  {| fm_field := fm_field fieldMod;
     fm_changes := withoutNullability (fm_changes fieldMod) |}.

Definition withoutNullabilityOf (modification : TableModification) : TableModification :=
  {| tableName := tableName modification;
     fieldsAdded := fieldsAdded modification;
     fieldsRemoved := fieldsRemoved modification;
     fieldsModified := map withoutNullabilityIn (fieldsModified modification);
     accessControlChanged := accessControlChanged modification |}.

(** The diff in which no field modification carries a nullability change. *)
Definition withoutNullabilityChanges (diff : DatabaseDiff) : DatabaseDiff :=
  {| diff_tables :=
       {| added := added (diff_tables diff);
          removed := removed (diff_tables diff);
          modified := map withoutNullabilityOf (modified (diff_tables diff)) |};
     diff_accessControl := diff_accessControl diff |}.

(** [{ $func: { <funcName>: [] } }] *)
Definition callWithoutArguments (funcName : string) : Json :=
  JObject [("$func", JObject [(funcName, JArray [])])].

(** The changes of a field whose default alone changed, from absent. *)
Definition defaultAdded (value : Json) : FieldChange :=
  {| ch_type := None; ch_nonNullable := None; ch_primaryKey := None;
     ch_default := Some {| change_from := None; change_to := Some value |};
     ch_foreignKey := None |}.

(** The state [formatDefaultValue] compiles in when no model is passed. *)
Definition defaultState (dialect : Dialect) : ParserState :=
  {| st_config := emptyConfig dialect; st_rootTable := "";
     st_expressions := new_ExpressionTypeMap |}.

(** ** What an operation hands to the compiler *)

(** [typeof value === "object"], for a value that is not [null]. *)
Definition isObject (value : Json) : bool :=
  match value with
  | JArray _ | JObject _ => true
  | _ => false
  end.

(** The expressions and conditions an operation hands to the compiler. *)
Definition declaredDefaults (fs : list Field) : list Json := omap field_default fs.

Definition bootstrapDefaults (model : DataModel) : list Json :=
  flat_map (λ table, declaredDefaults (fields table)) (tables model).

Definition changedDefault (fieldMod : FieldModification) : option Json :=
  c ← ch_default (fm_changes fieldMod); change_to c.

Definition diffDefaults (diff : DatabaseDiff) (dialect : Dialect) : list Json :=
  flat_map (λ table, declaredDefaults (fields table)) (added (diff_tables diff))
  ++ flat_map (λ modification,
                 declaredDefaults (fieldsAdded modification)
                 ++ (if bool_decide (dialect = POSTGRESQL)
                     then omap changedDefault (fieldsModified modification)
                     else []))
              (modified (diff_tables diff)).

Definition changedConditions (table : TableAccessChange) : list (string * Json) :=
  omap (λ change : option (Change Json),
          c ← change; Some (tac_tableName table, change_to c))
       [acc_read (tac_changes table); acc_create (tac_changes table);
        acc_update (tac_changes table); acc_delete (tac_changes table)].

Definition policyConditions (accessControl : AccessControlDiff) : list (string * Json) :=
  flat_map changedConditions (acd_tables accessControl).

(** The error of the default [value]: the prefix of [formatDefaultValue]
    before the message thrown while the expression was normalised and
    compiled. *)
Definition DefaultError (parseExpression : Json → ParserState → Result string)
    (TypeError : Json → string) (dialect : Dialect) (value : Json) (message : string)
  : Prop :=
  isObject value
  ∧ ∃ underlying,
      message = "Failed to parse expression: " +:+ underlying
      ∧ (normalizeExpression TypeError value = Throw underlying
         ∨ ∃ normalized,
             normalizeExpression TypeError value = Ok normalized
             ∧ parseExpression normalized (defaultState dialect) = Throw underlying).

(** The compiler rejects the default [value]: the normalised expression does
    not compile. *)
Definition CompilerRejectsDefault (parseExpression : Json → ParserState → Result string)
    (TypeError : Json → string) (dialect : Dialect) (value : Json) : Prop :=
  isObject value
  ∧ ∃ normalized underlying,
      normalizeExpression TypeError value = Ok normalized
      ∧ parseExpression normalized (defaultState dialect) = Throw underlying.

(** The compiler rejects one of the conditions to compile. *)
Definition CompilerRejectsCondition (parseCondition : Json → ParserState → Result string)
    (model : DataModel) (conditions : list (string * Json)) : Prop :=
  ∃ tName condition underlying,
    (tName, condition) ∈ conditions
    ∧ parseCondition condition (policyState tName model) = Throw underlying.

(** Every default of [defaults] is formatted without error: it is a literal,
    or the compiler accepts it. *)
Definition AcceptsDefaults (parseExpression : Json → ParserState → Result string)
    (TypeError : Json → string) (dialect : Dialect) (defaults : list Json) : Prop :=
  ∀ v, v ∈ defaults →
       ∃ text, formatDefaultValue parseExpression TypeError (Some v) dialect None
               = Ok text.

(** The compiler accepts every condition of [conditions]. *)
Definition AcceptsConditions (parseCondition : Json → ParserState → Result string)
    (model : DataModel) (conditions : list (string * Json)) : Prop :=
  ∀ tName condition, (tName, condition) ∈ conditions →
    ∃ text, parseCondition condition (policyState tName model) = Ok text.

(** An operation threw [message], the error of one of [defaults] or, on
    PostgreSQL, what the compiler threw for one of [conditions], as it is. *)
Definition CompilerError (parseExpression parseCondition : Json → ParserState → Result string)
    (TypeError : Json → string) (model : DataModel) (dialect : Dialect)
    (defaults : list Json) (conditions : list (string * Json)) (message : string)
  : Prop :=
  (∃ value, value ∈ defaults
            ∧ DefaultError parseExpression TypeError dialect value message)
  ∨ (dialect = POSTGRESQL
     ∧ ∃ tName condition,
         (tName, condition) ∈ conditions
         ∧ parseCondition condition (policyState tName model) = Throw message).

(** ** Dependence on the clock *)

(** Two computations fail alike or return after the same number of clock
    readings, with results related by [R]. *)
Definition alike {A} (R : A → A → Prop) (c1 c2 : Eff A) : Prop :=
  ∀ tick,
    match c1 tick, c2 tick with
    | Ok (a1, t1), Ok (a2, t2) => t1 = t2 ∧ R a1 a2
    | Throw m1, Throw m2 => m1 = m2
    | _, _ => False
    end.

(** ** A stand-in compiler and sample snapshots *)

(** The statements hold for every compiler.  To evaluate them the following
    one is used: it prints a call without arguments as [NAME()] and a literal
    condition as [TRUE] or [FALSE], and rejects the rest. *)
Definition parseExpression_sample (e : Json) (_ : ParserState) : Result string :=
  match e with
  | JObject [(key, JObject [(f, JArray [])])] =>
      if bool_decide (key = "$func") then Ok (f +:+ "()")
      else Throw "Unknown expression"
  | _ => Throw "Unknown expression"
  end.

Definition parseCondition_sample (c : Json) (_ : ParserState) : Result string :=
  match c with
  | JBool true => Ok "TRUE"
  | JBool false => Ok "FALSE"
  | _ => Throw "Invalid condition"
  end.

Definition TypeError_sample (_ : Json) : string := "TypeError".

Definition allowAll : AccessControl :=
  {| ac_read := JBool true; ac_create := JBool true;
     ac_update := JBool true; ac_delete := JBool true |}.

Definition plainField (name type : string) (nonNull : option bool) : Field :=
  {| field_name := name; field_type := type; nonNullable := nonNull;
     primaryKey := None; field_default := None; foreignKey := None |}.

Definition idField : Field :=
  {| field_name := "id"; field_type := "uuid"; nonNullable := Some true;
     primaryKey := Some true; field_default := None; foreignKey := None |}.

(** The [simpleModel] of the unit tests: [users(id, email)]. *)
Definition simpleModel : DataModel :=
  {| tables :=
       [ {| table_name := "users";
            fields := [idField; plainField "email" "string" (Some true)];
            accessControl := allowAll |} ] |}.

(** A clock that always reads [now]. *)
Definition clockAt (now : Z) : nat → Z := λ _, now.

Definition usersWith (fs : list Field) : DataModel :=
  {| tables := [ {| table_name := "users"; fields := fs; accessControl := allowAll |} ] |}.

Definition createdAt (d : option Json) : Field :=
  {| field_name := "created_at"; field_type := "datetime"; nonNullable := Some true;
     primaryKey := None; field_default := d; foreignKey := None |}.

(** [{ $func: { now: [] } }] *)
Definition nowCall : Json := JObject [("$func", JObject [("now", JArray [])])].

(** An expression the stand-in compiler rejects. *)
Definition unknownExpression : Json := JObject [("$unknown", JNull)].

Definition emailAsNumber : Field := plainField "email" "number" (Some true).

(** The snapshot whose [email] column became a nullable number. *)
Definition emailRetyped : DataModel :=
  usersWith [idField; plainField "email" "number" None].

(** The snapshots around a default that becomes the current time. *)
Definition withoutDefault : DataModel := usersWith [idField; createdAt None].
Definition withNowDefault : DataModel := usersWith [idField; createdAt (Some nowCall)].

(** A snapshot whose default the stand-in compiler rejects, and one whose
    read condition it rejects. *)
Definition rejectedDefault : DataModel :=
  usersWith [idField; createdAt (Some unknownExpression)].

Definition rejectedCondition : DataModel :=
  {| tables :=
       [ {| table_name := "users"; fields := [idField];
            accessControl :=
              {| ac_read := JString "owner"; ac_create := JBool true;
                 ac_update := JBool true; ac_delete := JBool true |} |} ] |}.

(** ** Vocabulary of the further properties *)

(** The snapshot without tables. *)
Definition emptyModel : DataModel := {| tables := [] |}.

(** The test [deepEqual] applies to one entry of its first argument: the
    second has the key, and the two values are deeply equal. *)
Definition sameEntry (entriesB : list (string * Json)) (e : string * Json) : bool :=
  match getProp e.1 entriesB with
  | Some y => deepEqualValue e.2 y
  | None => false
  end.

(** Foreign-key descriptors are compared field by field. *)
Global Instance ForeignKey_eq_dec : EqDecision ForeignKey.
Proof. solve_decision. Defined.

(** The [sql] of a result, or its error. *)
Definition sqlOf (r : Result MigrationResult) : Result string :=
  r ← r; Ok (sql r).

(** A field without its foreign key. *)
Definition withoutForeignKey (field : Field) : Field :=
  {| field_name := field_name field; field_type := field_type field;
     nonNullable := nonNullable field; primaryKey := primaryKey field;
     field_default := field_default field; foreignKey := None |}.

Definition withoutForeignKeys (table : Table) : Table :=
  {| table_name := table_name table;
     fields := map withoutForeignKey (fields table);
     accessControl := accessControl table |}.

(** The diff whose added tables declare no foreign key. *)
Definition withoutForeignKeysOfAdded (diff : DatabaseDiff) : DatabaseDiff :=
  {| diff_tables :=
       {| added := map withoutForeignKeys (added (diff_tables diff));
          removed := removed (diff_tables diff);
          modified := modified (diff_tables diff) |};
     diff_accessControl := diff_accessControl diff |}.

(** Two more sample snapshots: a [posts] table that references [users] and
    restricts reading, and [users] with reading restricted. *)
Definition authorField : Field :=
  {| field_name := "author_id"; field_type := "uuid"; nonNullable := Some true;
     primaryKey := None; field_default := None;
     foreignKey := Some {| fk_table := "users"; fk_field := "id";
                           fk_onDelete := Some "cascade"; fk_onUpdate := None |} |}.

Definition readRestricted : AccessControl :=
  {| ac_read := JBool false; ac_create := JBool true;
     ac_update := JBool true; ac_delete := JBool true |}.

Definition postsTable : Table :=
  {| table_name := "posts"; fields := [idField; authorField];
     accessControl := readRestricted |}.

Definition blogModel : DataModel :=
  {| tables := tables simpleModel ++ [postsTable] |}.

Definition restrictedModel : DataModel :=
  {| tables :=
       [ {| table_name := "users";
            fields := [idField; plainField "email" "string" (Some true)];
            accessControl := readRestricted |} ] |}.

(** The diff in which [f] is applied to the changes of every modified
    field. *)
Definition overFieldChangesIn (f : FieldChange → FieldChange)
    (fieldMod : FieldModification) : FieldModification :=
  {| fm_field := fm_field fieldMod; fm_changes := f (fm_changes fieldMod) |}.

Definition overFieldChangesOf (f : FieldChange → FieldChange)
    (modification : TableModification) : TableModification :=
  {| tableName := tableName modification;
     fieldsAdded := fieldsAdded modification;
     fieldsRemoved := fieldsRemoved modification;
     fieldsModified := map (overFieldChangesIn f) (fieldsModified modification);
     accessControlChanged := accessControlChanged modification |}.

Definition overFieldChanges (f : FieldChange → FieldChange) (diff : DatabaseDiff)
  : DatabaseDiff :=
  {| diff_tables :=
       {| added := added (diff_tables diff);
          removed := removed (diff_tables diff);
          modified := map (overFieldChangesOf f) (modified (diff_tables diff)) |};
     diff_accessControl := diff_accessControl diff |}.

(** A field change without its primary-key part. *)
Definition withoutPrimaryKey (changes : FieldChange) : FieldChange :=
  {| ch_type := ch_type changes;
     ch_nonNullable := ch_nonNullable changes;
     ch_primaryKey := None;
     ch_default := ch_default changes;
     ch_foreignKey := ch_foreignKey changes |}.

(** What is left of a diff on SQLite: of a modified field the type change
    alone, of the added and removed fields everything but the foreign key,
    and nothing of the access-control half. *)
Definition typeChangeOnly (changes : FieldChange) : FieldChange :=
  {| ch_type := ch_type changes; ch_nonNullable := None; ch_primaryKey := None;
     ch_default := None; ch_foreignKey := None |}.

Definition sqliteModification (modification : TableModification) : TableModification :=
  {| tableName := tableName modification;
     fieldsAdded := map withoutForeignKey (fieldsAdded modification);
     fieldsRemoved := map withoutForeignKey (fieldsRemoved modification);
     fieldsModified :=
       map (overFieldChangesIn typeChangeOnly) (fieldsModified modification);
     accessControlChanged := false |}.

Definition sqliteView (diff : DatabaseDiff) : DatabaseDiff :=
  {| diff_tables :=
       {| added := added (diff_tables diff);
          removed := removed (diff_tables diff);
          modified := map sqliteModification (modified (diff_tables diff)) |};
     diff_accessControl := {| acd_tables := [] |} |}.

(** The four operations of a policy block: the name of the operation, the
    command and the clause of its policy, and its change in an entry of the
    access-control diff. *)
Definition operations
  : list (string * string * string * (AccessControlChange → option (Change Json))) :=
  [("read", "SELECT", "USING", acc_read);
   ("create", "INSERT", "WITH CHECK", acc_create);
   ("update", "UPDATE", "USING", acc_update);
   ("delete", "DELETE", "USING", acc_delete)].

(** Every single quote of [s] is one of a pair: read inside a SQL string
    literal, [s] does not end the literal. *)
Fixpoint quotesPaired (s : string) : bool :=
  match s with
  | EmptyString => true
  | String c rest =>
      if decide (c = Str.quote) then
        match rest with
        | String c' rest' => if decide (c' = Str.quote) then quotesPaired rest' else false
        | EmptyString => false
        end
      else quotesPaired rest
  end.

(** [s] holds no underscore. *)
Fixpoint noUnderscore (s : string) : bool :=
  match s with
  | EmptyString => true
  | String c rest => negb (bool_decide (c = Ascii.ascii_of_nat 95)) && noUnderscore rest
  end.

(** Two fields, and two tables, between which the diff engine sees no
    difference. *)
Definition sameField (oldField newField : Field) : Prop :=
  field_name oldField = field_name newField
  ∧ field_type oldField = field_type newField
  ∧ nonNullable oldField = nonNullable newField
  ∧ primaryKey oldField = primaryKey newField
  ∧ deepEqual (field_default oldField) (field_default newField) = true
  ∧ foreignKey oldField = foreignKey newField.

Definition sameAccessControl (o n : AccessControl) : Prop :=
  deepEqual (Some (ac_read o)) (Some (ac_read n)) = true
  ∧ deepEqual (Some (ac_create o)) (Some (ac_create n)) = true
  ∧ deepEqual (Some (ac_update o)) (Some (ac_update n)) = true
  ∧ deepEqual (Some (ac_delete o)) (Some (ac_delete n)) = true.

Definition sameTable (oldTable newTable : Table) : Prop :=
  table_name oldTable = table_name newTable
  ∧ (∀ f, f ∈ fields newTable → ∃ g, g ∈ fields oldTable ∧ sameField g f)
  ∧ (∀ g, g ∈ fields oldTable →
          field_name g ∈ map field_name (fields newTable))
  ∧ sameAccessControl (accessControl oldTable) (accessControl newTable).

(** The diff that records nothing. *)
Definition emptyDiff : DatabaseDiff :=
  {| diff_tables := {| added := []; removed := []; modified := [] |};
     diff_accessControl := {| acd_tables := [] |} |}.

(** ** The loops of [normalizeExpression]

    The three loops of [normalizeExpression], as functions of the normaliser
    [norm] applied to the nested expressions: over the entries of a [$func]
    payload, over the entries of an object without [$func], and the
    dispatch on the payload ([normalizeExpression_unfold] relates them to
    the function). *)
Fixpoint normalizeCalls (TypeError : Json → string) (norm : Json → Result Json)
    (funcs : list (string * Json)) (normalizedFunc : list (string * Json))
  : Result Json :=
  match funcs with
  | [] => Ok (JObject [("$func", JObject normalizedFunc)])
  | (funcName, args) :: more =>
      match args with
      | JArray items =>
          items' ← forEach norm items;
          normalizeCalls TypeError norm more
            (setProp (normalizedName funcName) (JArray items') normalizedFunc)
      | _ => Throw (TypeError args)
      end
  end.

Fixpoint normalizeEntries (norm : Json → Result Json)
    (es : list (string * Json)) (normalized : list (string * Json)) : Result Json :=
  match es with
  | [] => Ok (JObject normalized)
  | (key, value) :: rest =>
      if isObject value
      then v ← norm value; normalizeEntries norm rest (setProp key v normalized)
      else normalizeEntries norm rest (setProp key value normalized)
  end.

Definition normalizePayload (TypeError : Json → string) (norm : Json → Result Json)
    (funcExpr : Json) : Result Json :=
  match funcExpr with
  | JNull => Throw (TypeError JNull)
  | JBool _ | JNumber _ | JString EmptyString => Ok (JObject [("$func", JObject [])])
  | JString (String c _) => Throw (TypeError (JString (String c EmptyString)))
  | JArray funcs => normalizeCalls TypeError norm (indexed 0 funcs) []
  | JObject funcs => normalizeCalls TypeError norm funcs []
  end.

(** The number of nodes of a value. *)
Fixpoint size (v : Json) : nat :=
  match v with
  | JArray items => S (list_sum (map size items))
  | JObject entries => S (list_sum (map (λ e, size e.2) entries))
  | _ => 1
  end.

(** An expression typed as the signature of [normalizeExpression] asks: the
    payload of every [$func] is an object that maps each function name to
    an array of expressions.  Arrays outside a [$func] are not looked into,
    as in the code. *)
Fixpoint wellTyped (v : Json) : bool :=
  match v with
  | JObject entries =>
      forallb (λ e,
                 if decide (e.1 = "$func") then
                   match e.2 with
                   | JObject funcs =>
                       forallb (λ f,
                                  match f.2 with
                                  | JArray items => forallb wellTyped items
                                  | _ => false
                                  end) funcs
                   | _ => false
                   end
                 else wellTyped e.2) entries
  | _ => true
  end.

(** A fixed point of [normalizeExpression]. *)
Definition Normal (TypeError : Json → string) (e : Json) : Prop :=
  normalizeExpression TypeError e = Ok e.

(** The calls of a normalised [$func] payload: one entry per name, every
    name normalised, every argument list an array of fixed points. *)
Definition NormalCalls (TypeError : Json → string) (calls : list (string * Json))
  : Prop :=
  NoDup calls.*1
  ∧ ∀ k v, (k, v) ∈ calls →
      normalizedName k = k
      ∧ ∃ items, v = JArray items ∧ Forall (Normal TypeError) items.

(** The entries of a normalised object without [$func]. *)
Definition NormalEntries (TypeError : Json → string) (es : list (string * Json))
  : Prop :=
  NoDup es.*1 ∧ ("$func" ∉ es.*1) ∧ ∀ k v, (k, v) ∈ es → Normal TypeError v.

(** The type changes of a diff: each one is a column rebuild off
    PostgreSQL. *)
Definition typeChangesOf (modification : TableModification) : nat :=
  length (filter (λ fieldMod, is_Some (ch_type (fm_changes fieldMod)))
                 (fieldsModified modification)).

Definition typeChanges (diff : DatabaseDiff) : nat :=
  list_sum (map typeChangesOf (modified (diff_tables diff))).

(** No object of the value has a key named [__proto__], at any depth.  An
    assignment to that key sets the prototype of a JavaScript object
    instead of adding an entry; on the values without it an object is the
    list of its entries, before and after [normalizeExpression]. *)
Fixpoint noProto (v : Json) : bool :=
  match v with
  | JArray items => forallb noProto items
  | JObject entries =>
      forallb (λ e, negb (bool_decide (e.1 = "__proto__")) && noProto e.2) entries
  | _ => true
  end.

Definition NoProtoEntries (es : list (string * Json)) : Prop :=
  ∀ k v, (k, v) ∈ es → k ≠ "__proto__" ∧ noProto v.

(** * Properties *)

(** ** The name maps of the diff engine *)

Section MapNew.
Context {V : Type} (key : V → string).

Lemma foldl_insert_absent (rows : list V) (m : gmap string V) (k : string) :
  k ∉ map key rows →
  foldl (λ m r, <[key r := r]> m) m rows !! k = m !! k.
Proof.
  revert m. induction rows as [|r rows IH]; intros m Hk; [done|].
  cbn in *. apply not_elem_of_cons in Hk as [Hne Hk].
  rewrite IH by done. by rewrite lookup_insert_ne.
Qed.

Lemma foldl_insert_is_Some (rows : list V) (m : gmap string V) (k : string) :
  is_Some (foldl (λ m r, <[key r := r]> m) m rows !! k)
  ↔ k ∈ map key rows ∨ is_Some (m !! k).
Proof.
  revert m. induction rows as [|r rows IH]; intros m; cbn.
  - rewrite elem_of_nil. tauto.
  - rewrite IH, elem_of_cons. destruct (decide (key r = k)) as [<-|Hne].
    + rewrite lookup_insert_eq. split; [|eauto]. intros _. auto.
    + rewrite lookup_insert_ne by done. split; intros [?|?]; auto.
      destruct H as [?|?]; [congruence | auto].
Qed.

Lemma Map_has_spec (rows : list V) (k : string) :
  Map_has (Map_new key rows) k ↔ k ∈ map key rows.
Proof.
  unfold Map_has, Map_new. rewrite bool_decide_spec, foldl_insert_is_Some.
  rewrite lookup_empty. split; [|auto]. intros [?|[? ?]]; done.
Qed.

Lemma Map_new_lookup_None (rows : list V) (k : string) :
  Map_new key rows !! k = None ↔ k ∉ map key rows.
Proof.
  rewrite <-Map_has_spec. unfold Map_has. rewrite bool_decide_spec.
  rewrite eq_None_not_Some. done.
Qed.

(** With one row per key, the map returns the row itself. *)
Lemma Map_new_lookup_unique (rows : list V) (r : V) :
  NoDup (map key rows) → r ∈ rows → Map_new key rows !! key r = Some r.
Proof.
  unfold Map_new. generalize (∅ : gmap string V).
  induction rows as [|x rows IH]; intros m Hnd Hr; [by inversion Hr|].
  cbn in *. apply NoDup_cons in Hnd as [Hx Hnd].
  apply elem_of_cons in Hr as [->|Hr].
  - rewrite foldl_insert_absent by done. apply lookup_insert_eq.
  - by apply IH.
Qed.

End MapNew.

(** ** The table names of a diff *)

Lemma elem_of_tableNames (ts : list Table) (n : string) :
  n ∈ tableNames ts ↔ n ∈ map table_name ts.
Proof. unfold tableNames. by rewrite elem_of_list_to_set. Qed.

Lemma elem_of_tableNames_absent (others ts : list Table) (n : string) :
  n ∈ tableNames
        (filter (λ t, negb (Map_has (Map_new table_name others) (table_name t))) ts)
  ↔ n ∈ tableNames ts ∧ n ∉ tableNames others.
Proof.
  rewrite !elem_of_tableNames, !list_elem_of_fmap.
  split.
  - intros (t & -> & [Hp Ht]%list_elem_of_filter). split; [eauto|].
    rewrite <-list_elem_of_fmap. rewrite <-(Map_has_spec table_name).
    by apply Is_true_false, negb_true_iff, Is_true_true.
  - intros [(t & -> & Ht) Hn]. exists t. split; [done|].
    apply list_elem_of_filter. split; [|done].
    rewrite <-list_elem_of_fmap in Hn. rewrite <-(Map_has_spec table_name) in Hn.
    by destruct (Map_has _ _).
Qed.

(** C5.  For all snapshots A and B, the names of the added tables, the names
    present on both sides and the names of the removed tables together are
    exactly the table names of A and of B, and no name is both added and
    removed. *)
Theorem diff_names_partition (A B : DataModel) :
  let d := diff_tables (generateDatabaseDiff A B) in
  tableNames (added d) ∪ (tableNames (tables A) ∩ tableNames (tables B))
    ∪ tableNames (removed d)
  = tableNames (tables A) ∪ tableNames (tables B)
  ∧ tableNames (added d) ## tableNames (removed d).
Proof.
  unfold generateDatabaseDiff, generateTableDiff. cbv [diff_tables added removed].
  split.
  - apply set_eq. intros n.
    rewrite !elem_of_union, elem_of_intersection, !elem_of_tableNames_absent.
    destruct (decide (n ∈ tableNames (tables A)));
      destruct (decide (n ∈ tableNames (tables B))); tauto.
  - apply elem_of_disjoint. intros n.
    rewrite !elem_of_tableNames_absent. tauto.
Qed.

(** ** [deepEqual] on a value and itself *)

Lemma Json_nested_ind (P : Json → Prop) :
  P JNull → (∀ b, P (JBool b)) → (∀ n, P (JNumber n)) → (∀ s, P (JString s)) →
  (∀ items, Forall P items → P (JArray items)) →
  (∀ entries, Forall (λ e, P e.2) entries → P (JObject entries)) →
  ∀ v, P v.
Proof.
  intros Hnull Hbool Hnum Hstr Harr Hobj.
  fix IH 1. intros [| b | n | s | items | entries].
  - exact Hnull.
  - apply Hbool.
  - apply Hnum.
  - apply Hstr.
  - apply Harr. induction items as [|x items IHitems]; constructor;
      [apply IH | exact IHitems].
  - apply Hobj. induction entries as [|[k x] entries IHentries]; constructor;
      [apply IH | exact IHentries].
Qed.

Lemma indexed_length (start : nat) (items : list Json) :
  length (indexed start items) = length items.
Proof. revert start. induction items; intros; cbn; auto. Qed.

Lemma getProp_indexed (items : list Json) (start j : nat) :
  getProp (pretty (start + j)%nat) (indexed start items) = items !! j.
Proof.
  revert start j. induction items as [|x items IH]; intros start j; [done|].
  cbn. destruct (decide (pretty start = pretty (start + j)%nat)) as [Heq|Hne].
  - apply (inj pretty) in Heq. assert (j = 0%nat) as -> by lia. done.
  - destruct j as [|j]; [by rewrite Nat.add_0_r in Hne|].
    replace (start + S j)%nat with (S start + j)%nat by lia. by rewrite IH.
Qed.

Lemma getProp_indexed_0 (items : list Json) (j : nat) :
  getProp (pretty j) (indexed 0 items) = items !! j.
Proof. apply (getProp_indexed items 0 j). Qed.

Lemma getProp_unique (entries : list (string * Json)) (k : string) (x : Json) :
  NoDup entries.*1 → (k, x) ∈ entries → getProp k entries = Some x.
Proof.
  induction entries as [|[k' x'] entries IH]; intros Hnd Hin; [by inversion Hin|].
  cbn in *. apply NoDup_cons in Hnd as [Hk' Hnd].
  apply elem_of_cons in Hin as [[= -> ->]|Hin].
  - by rewrite decide_True.
  - rewrite decide_False; [by apply IH|].
    intros ->. apply Hk'. apply list_elem_of_fmap. by exists (k, x).
Qed.

Lemma deepEqualValue_refl (v : Json) : wellFormed v → deepEqualValue v v = true.
Proof.
  induction v as [| b | n | s | items IH | entries IH] using Json_nested_ind;
    intros Hwf; cbn; try done; try by rewrite bool_decide_eq_true_2.
  - rewrite bool_decide_eq_true_2 by (by rewrite indexed_length). cbn.
    cbn in Hwf. apply forallb_True in Hwf.
    assert (∀ seen rest, items = seen ++ rest →
      (fix each (i : nat) (xs : list Json) {struct xs} : bool :=
         match xs with
         | [] => true
         | x :: rest =>
             match getProp (pretty i) (indexed 0 items) with
             | Some y => deepEqualValue x y && each (S i) rest
             | None => false
             end
         end) (length seen) rest = true) as Hloop.
    { intros seen rest. revert seen.
      induction rest as [|x rest IHrest]; intros seen Hsplit; [done|].
      rewrite getProp_indexed_0.
      rewrite Hsplit at 1. rewrite list_lookup_middle by done.
      rewrite Forall_forall in IH, Hwf.
      assert (x ∈ items) as Hx by (rewrite Hsplit; set_solver).
      rewrite (IH x Hx (Hwf x Hx)). cbn.
      specialize (IHrest (seen ++ [x])). rewrite length_app in IHrest. cbn in IHrest.
      replace (length seen + 1)%nat with (S (length seen)) in IHrest by lia.
      apply IHrest. by rewrite <-app_assoc. }
    apply (Hloop [] items eq_refl).
  - rewrite bool_decide_eq_true_2 by done. cbn.
    cbn in Hwf. apply andb_True in Hwf as [Hnd Hwf].
    apply bool_decide_unpack in Hnd. apply forallb_True in Hwf.
    assert (∀ rest, rest ⊆ entries →
      (fix each (es : list (string * Json)) {struct es} : bool :=
         match es with
         | [] => true
         | (key, x) :: rest =>
             match getProp key entries with
             | Some y => deepEqualValue x y && each rest
             | None => false
             end
         end) rest = true) as Hloop.
    { induction rest as [|[k x] rest IHrest]; intros Hsub; [done|].
      assert ((k, x) ∈ entries) as Hx by set_solver.
      rewrite (getProp_unique entries k x Hnd Hx).
      rewrite Forall_forall in IH, Hwf.
      pose proof (IH (k, x) Hx (Hwf (k, x) Hx)) as Heq. cbn in Heq.
      rewrite Heq. cbn.
      apply IHrest. set_solver. }
    by apply Hloop.
Qed.

Lemma deepEqual_refl (v : option Json) :
  from_option (λ x, Is_true (wellFormed x)) True v → deepEqual v v = true.
Proof. destruct v; cbn; [apply deepEqualValue_refl | done]. Qed.

Lemma ForeignKey_value_wellFormed (fk : ForeignKey) :
  wellFormed (ForeignKey_value fk) = true.
Proof. by destruct fk as [t f [a|] [b|]]. Qed.

(** ** The diff of a snapshot with itself *)

Lemma filter_absent_self {V} (key : V → string) (rows : list V) :
  filter (λ r, negb (Map_has (Map_new key rows) (key r))) rows = [].
Proof.
  apply elem_of_nil_inv. intros r [Hp Hr]%list_elem_of_filter.
  apply negb_True in Hp. apply Hp, Map_has_spec, list_elem_of_fmap. eauto.
Qed.

Lemma omap_all_None {A B} (f : A → option B) (l : list A) :
  (∀ x, x ∈ l → f x = None) → omap f l = [].
Proof.
  intros Hf. apply elem_of_nil_inv. intros y (x & Hx & Hy)%list_elem_of_omap.
  rewrite (Hf x Hx) in Hy. done.
Qed.

Lemma bool_decide_ne_self {A} `{EqDecision A} (x : A) : bool_decide (x ≠ x) = false.
Proof. apply bool_decide_eq_false_2. intros Hne. by apply Hne. Qed.

Lemma fieldChanges_self (field : Field) :
  Field_wf field → FieldChange_nonEmpty (fieldChanges field field) = false.
Proof.
  intros Hwf. unfold fieldChanges, FieldChange_nonEmpty. cbn.
  rewrite !bool_decide_ne_self. cbn.
  rewrite (deepEqual_refl _ Hwf). cbn.
  rewrite deepEqual_refl; [done|].
  destruct (foreignKey field) as [fk|]; [|done].
  cbn -[wellFormed ForeignKey_value]. by rewrite ForeignKey_value_wellFormed.
Qed.

Lemma generateFieldDiff_self (fs : list Field) :
  NoDup (map field_name fs) → Forall Field_wf fs →
  generateFieldDiff fs fs
  = {| fd_fieldsAdded := []; fd_fieldsRemoved := []; fd_fieldsModified := [] |}.
Proof.
  intros Hnd Hwf. unfold generateFieldDiff. rewrite filter_absent_self. f_equal.
  apply omap_all_None. intros f Hf.
  rewrite (Map_new_lookup_unique field_name fs f Hnd Hf).
  rewrite Forall_forall in Hwf. by rewrite (fieldChanges_self f (Hwf f Hf)).
Qed.

Lemma accessControl_self (ac : AccessControl) :
  AccessControl_wf ac →
  deepEqual (Some (AccessControl_value ac)) (Some (AccessControl_value ac)) = true.
Proof.
  intros (Hr & Hc & Hu & Hd). apply deepEqual_refl. cbn.
  apply Is_true_true in Hr, Hc, Hu, Hd. by rewrite Hr, Hc, Hu, Hd.
Qed.

Lemma changeIfDiffers_self (c : Json) : wellFormed c → changeIfDiffers c c = None.
Proof.
  intros Hwf. unfold changeIfDiffers. cbn. by rewrite deepEqualValue_refl.
Qed.

(** C4.  The diff of a snapshot with itself is empty: no table is added,
    removed or modified and no access-control change is recorded.  The
    snapshot satisfies the invariants of the data model: table names are
    unique, field names are unique within a table, objects have one entry
    per key. *)
Theorem diff_self_empty (A : DataModel) :
  DataModel_wf A →
  generateDatabaseDiff A A
  = {| diff_tables := {| added := []; removed := []; modified := [] |};
       diff_accessControl := {| acd_tables := [] |} |}.
Proof.
  intros [Hnd Hwf]. rewrite Forall_forall in Hwf.
  unfold generateDatabaseDiff, generateTableDiff, generateAccessControlDiff.
  rewrite filter_absent_self. f_equal; f_equal.
  - apply omap_all_None. intros t Ht.
    rewrite (Map_new_lookup_unique table_name _ t Hnd Ht).
    destruct (Hwf t Ht) as (Hfn & Hfw & Hac).
    rewrite (generateFieldDiff_self _ Hfn Hfw). cbn -[deepEqual AccessControl_value].
    by rewrite (accessControl_self _ Hac).
  - apply omap_all_None. intros t Ht.
    rewrite (Map_new_lookup_unique table_name _ t Hnd Ht).
    destruct (Hwf t Ht) as (_ & _ & Hr & Hc & Hu & Hd).
    by rewrite !changeIfDiffers_self.
Qed.

(** ** Strings: concatenation, [join] and occurrence *)

Module StrFacts.
Import Str.

Lemma sapp_nil_l (s : string) : "" +:+ s = s.
Proof. reflexivity. Qed.

Lemma sapp_cons (c : Ascii.ascii) (s t : string) :
  String c s +:+ t = String c (s +:+ t).
Proof. reflexivity. Qed.

Lemma sapp_nil_r (s : string) : s +:+ "" = s.
Proof. induction s as [|c s IH]; [done|]. by rewrite sapp_cons, IH. Qed.

Lemma sapp_assoc (s t u : string) : (s +:+ t) +:+ u = s +:+ (t +:+ u).
Proof. induction s as [|c s IH]; [done|]. by rewrite !sapp_cons, IH. Qed.

Lemma truthy_app_l (s t : string) : truthy s → truthy (s +:+ t).
Proof. by destruct s. Qed.

Lemma Includes_refl (s : string) : Includes s s.
Proof. exists "", "". by rewrite sapp_nil_l, sapp_nil_r. Qed.

Lemma Includes_trans (s t u : string) : Includes s t → Includes t u → Includes s u.
Proof.
  intros (a & b & ->) (c & d & ->). exists (a +:+ c), (d +:+ b).
  by rewrite !sapp_assoc.
Qed.

Lemma Includes_app_l (s t : string) : Includes (s +:+ t) s.
Proof. exists "", t. by rewrite sapp_nil_l. Qed.

Lemma Includes_app_r (s t : string) : Includes (s +:+ t) t.
Proof. exists s, "". by rewrite sapp_nil_r. Qed.

Lemma Includes_app_l_of (s t u : string) : Includes s u → Includes (s +:+ t) u.
Proof. intros H. eapply Includes_trans; [apply Includes_app_l | done]. Qed.

Lemma Includes_app_r_of (s t u : string) : Includes t u → Includes (s +:+ t) u.
Proof. intros H. eapply Includes_trans; [apply Includes_app_r | done]. Qed.

Lemma Includes_truthy (s sub : string) : Includes s sub → truthy sub → truthy s.
Proof. intros (before & after & ->). by destruct before, sub. Qed.

Lemma join_cons (sep x : string) (xs : list string) :
  xs ≠ [] → join sep (x :: xs) = x +:+ sep +:+ join sep xs.
Proof. by destruct xs. Qed.

Lemma join_app (sep : string) (xs ys : list string) :
  xs ≠ [] → ys ≠ [] →
  join sep (xs ++ ys) = join sep xs +:+ sep +:+ join sep ys.
Proof.
  intros Hxs Hys. induction xs as [|x xs IH]; [done|].
  destruct xs as [|x' xs].
  - cbn [app]. by rewrite join_cons.
  - rewrite <-app_comm_cons, join_cons by done.
    rewrite IH by done. rewrite (join_cons sep x (x' :: xs)) by done.
    by rewrite !sapp_assoc.
Qed.

(** A run of consecutive parts occurs, joined, in the joined whole. *)
Lemma join_Includes_block (sep : string) (before block after : list string) :
  Includes (join sep (before ++ block ++ after)) (join sep block).
Proof.
  destruct block as [|b block].
  { exists "", (join sep (before ++ after)). by rewrite sapp_nil_l. }
  set (blk := b :: block). assert (blk ≠ []) as Hblk by done. clearbody blk.
  destruct before as [|x before]; destruct after as [|y after].
  - rewrite (right_id_L [] (++)). apply Includes_refl.
  - cbn [app]. rewrite join_app by done. apply Includes_app_l.
  - rewrite (right_id_L [] (++)), join_app by done.
    apply Includes_app_r_of, Includes_app_r.
  - rewrite join_app by (try done; by destruct blk).
    rewrite join_app by done.
    apply Includes_app_r_of, Includes_app_r_of, Includes_app_l.
Qed.

Lemma join_Includes (sep x : string) (parts : list string) :
  x ∈ parts → Includes (join sep parts) x.
Proof.
  intros (before & after & ->)%list_elem_of_split.
  apply (join_Includes_block sep before [x] after).
Qed.

Lemma filter_truthy_id (parts : list string) :
  Forall (λ s, Is_true (truthy s)) parts → filter truthy parts = parts.
Proof.
  induction 1 as [|x parts Hx _ IH]; [done|].
  rewrite filter_cons, decide_True by done. by rewrite IH.
Qed.

(** What [filter(Boolean).join(sep)] keeps of a run of non-empty parts. *)
Lemma joined_Includes_block (sep : string) (before block after : list string) :
  Forall (λ s, Is_true (truthy s)) block →
  Includes (join sep (filter truthy (before ++ block ++ after))) (join sep block).
Proof.
  intros Hblock. rewrite !filter_app, (filter_truthy_id block Hblock).
  apply join_Includes_block.
Qed.

Lemma joined_Includes_within (sep : string) (parts before block after : list string) :
  parts = before ++ block ++ after →
  Forall (λ s, Is_true (truthy s)) block →
  Includes (join sep (filter truthy parts)) (join sep block).
Proof. intros ->. apply joined_Includes_block. Qed.

Lemma joined_Includes (sep x : string) (parts : list string) :
  x ∈ parts → truthy x → Includes (join sep (filter truthy parts)) x.
Proof.
  intros Hx Ht. apply join_Includes, list_elem_of_filter. done.
Qed.

Lemma startsWith_app (sub rest : string) : startsWith sub (sub +:+ rest) = true.
Proof.
  induction sub as [|c sub IH]; [done|].
  rewrite sapp_cons. cbn. by rewrite bool_decide_eq_true_2, IH.
Qed.

(** The boolean test finds every occurrence. *)
Lemma includes_complete (s sub : string) : Includes s sub → includes s sub = true.
Proof.
  intros (before & after & ->). induction before as [|c before IH].
  - rewrite sapp_nil_l. destruct sub as [|c sub]; [by destruct after|].
    rewrite sapp_cons. cbn [includes]. rewrite <-sapp_cons.
    by rewrite startsWith_app.
  - rewrite sapp_cons. cbn [includes]. rewrite IH. apply orb_true_r.
Qed.

Lemma not_includes (s sub : string) : includes s sub = false → ¬ Includes s sub.
Proof. intros Hf Hi. apply includes_complete in Hi. congruence. Qed.

End StrFacts.

(** ** Sequencing *)

Lemma Result_bind_Ok {A B} (r : Result A) (k : A → Result B) (b : B) :
  r ≫= k = Ok b → ∃ a, r = Ok a ∧ k a = Ok b.
Proof. destruct r as [a|m]; cbn; [eauto | done]. Qed.

Lemma forEach_Ok {A B} (f : A → Result B) (xs : list A) (ys : list B) :
  forEach f xs = Ok ys → Forall2 (λ x y, f x = Ok y) xs ys.
Proof.
  revert ys. induction xs as [|x xs IH]; intros ys; cbn.
  - intros [= <-]. constructor.
  - intros (y & Hy & (ys' & Hys & [= <-])%Result_bind_Ok)%Result_bind_Ok.
    constructor; auto.
Qed.

Lemma forEach_total {A B} (f : A → Result B) (xs : list A) :
  (∀ x, x ∈ xs → ∃ y, f x = Ok y) → ∃ ys, forEach f xs = Ok ys.
Proof.
  induction xs as [|x xs IH]; intros Hf; cbn; [eauto|].
  destruct (Hf x) as [y ->]; [by left|].
  destruct IH as [ys ->]; [intros; apply Hf; by right|]. cbn. eauto.
Qed.

(** The loop throws as soon as one call throws, with the error of the first
    call that does. *)
Lemma forEach_Throw {A B} (f : A → Result B) (xs : list A) :
  (∃ x m, x ∈ xs ∧ f x = Throw m) →
  ∃ x m, x ∈ xs ∧ f x = Throw m ∧ forEach f xs = Throw m.
Proof.
  induction xs as [|x xs IH]; intros (x0 & m0 & Hin & Hf).
  - by inversion Hin.
  - cbn. destruct (f x) as [y|m] eqn:Hx.
    + apply elem_of_cons in Hin as [->|Hin]; [congruence|].
      destruct IH as (x1 & m1 & Hin1 & Hf1 & ->); [eauto|].
      exists x1, m1. split_and!; [by right | done | done].
    + exists x, m. split_and!; [by left | done | done].
Qed.

Lemma forEach_Throw_inv {A B} (f : A → Result B) (xs : list A) (m : string) :
  forEach f xs = Throw m → ∃ x, x ∈ xs ∧ f x = Throw m.
Proof.
  induction xs as [|x xs IH]; cbn; [done|].
  destruct (f x) as [y|m'] eqn:Hx; cbn.
  - destruct (forEach f xs) as [ys|m'']; cbn; [done|].
    intros [= ->]. destruct IH as (x' & ? & ?); [done|]. exists x'. split; [by right|done].
  - intros [= ->]. exists x. split; [by left | done].
Qed.

Lemma Eff_bind_Ok {A B} (c : Eff A) (k : A → Eff B) (tick tick' : nat) (b : B) :
  (c ≫= k) tick = Ok (b, tick') →
  ∃ a tick1, c tick = Ok (a, tick1) ∧ k a tick1 = Ok (b, tick').
Proof.
  unfold mbind, Eff_bind. destruct (c tick) as [[a tick1]|m]; [eauto | done].
Qed.

Lemma lift_Ok {A} (r : Result A) (tick tick' : nat) (a : A) :
  lift r tick = Ok (a, tick') → r = Ok a ∧ tick' = tick.
Proof. unfold lift. destruct r; [by intros [= -> ->] | done]. Qed.

Lemma forEachEff_Ok {A B} (f : A → Eff B) (xs : list A) (ys : list B)
    (tick tick' : nat) :
  forEachEff f xs tick = Ok (ys, tick') →
  Forall2 (λ x y, ∃ t1 t2, f x t1 = Ok (y, t2)) xs ys.
Proof.
  revert ys tick. induction xs as [|x xs IH]; intros ys tick; cbn.
  - cbv [mret Eff_ret]. intros [= <- _]. constructor.
  - intros (y & t1 & Hy & (ys' & t2 & Hys & Hret)%Eff_bind_Ok)%Eff_bind_Ok.
    cbv [mret Eff_ret] in Hret. injection Hret as <- <-.
    constructor; [eauto | by eapply IH].
Qed.

Lemma forEachEff_ext {A B} (f g : A → Eff B) (xs : list A) (tick : nat) :
  (∀ x t, x ∈ xs → f x t = g x t) → forEachEff f xs tick = forEachEff g xs tick.
Proof.
  revert tick. induction xs as [|x xs IH]; intros tick Hfg; [done|].
  cbn. unfold mbind, Eff_bind. rewrite Hfg by (by left).
  destruct (g x tick) as [[y t1]|m]; [|done].
  rewrite IH by (intros; apply Hfg; by right). done.
Qed.

Lemma forEach_Ok_elem {A B} (f : A → Result B) (xs : list A) (ys : list B) (x : A) :
  forEach f xs = Ok ys → x ∈ xs →
  ∃ y before after, f x = Ok y ∧ ys = before ++ y :: after.
Proof.
  revert ys. induction xs as [|x0 xs IH]; intros ys Hys Hx; [by inversion Hx|].
  cbn in Hys. apply Result_bind_Ok in Hys as (y0 & Hy0 & Hys).
  apply Result_bind_Ok in Hys as (ys' & Hys' & [= <-]).
  apply elem_of_cons in Hx as [->|Hx].
  - by exists y0, [], ys'.
  - destruct (IH ys' Hys' Hx) as (y & before & after & Hy & ->).
    by exists y, (y0 :: before), after.
Qed.

Lemma forEachEff_Ok_elem {A B} (f : A → Eff B) (xs : list A) (ys : list B)
    (tick tick' : nat) (x : A) :
  forEachEff f xs tick = Ok (ys, tick') → x ∈ xs →
  ∃ y t1 t2 before after, f x t1 = Ok (y, t2) ∧ ys = before ++ y :: after.
Proof.
  revert ys tick. induction xs as [|x0 xs IH]; intros ys tick Hys Hx; [by inversion Hx|].
  cbn in Hys. apply Eff_bind_Ok in Hys as (y0 & t0 & Hy0 & Hys).
  apply Eff_bind_Ok in Hys as (ys' & t' & Hys' & Hret).
  cbv [mret Eff_ret] in Hret. injection Hret as <- <-.
  apply elem_of_cons in Hx as [->|Hx].
  - by exists y0, tick, t0, [], ys'.
  - destruct (IH ys' t0 Hys' Hx) as (y & t1 & t2 & before & after & Hy & ->).
    by exists y, t1, t2, (y0 :: before), after.
Qed.

Lemma elem_of_flat_map {A B} (f : A → list B) (l : list A) (y : B) :
  y ∈ flat_map f l ↔ ∃ x, x ∈ l ∧ y ∈ f x.
Proof.
  rewrite list_elem_of_In, in_flat_map.
  split; intros (x & Hx & Hy); exists x; split;
    first [by apply list_elem_of_In | by apply list_elem_of_In in Hx
          | by apply list_elem_of_In in Hy].
Qed.

Lemma concat_split {A} (before after : list (list A)) (block : list A) :
  concat (before ++ block :: after) = concat before ++ block ++ concat after.
Proof. by rewrite concat_app, concat_cons. Qed.

(** ** Column clauses *)

Lemma mapFieldTypeToSQL_not_clause (fieldType : string) (dialect : Dialect) :
  mapFieldTypeToSQL fieldType dialect ≠ "NOT NULL".
Proof.
  unfold mapFieldTypeToSQL. destruct dialect; cbn; repeat case_decide; done.
Qed.

Lemma quoted_not_clause (s : string) : quoted s ≠ "NOT NULL".
Proof. done. Qed.

Section Clauses.
Context (parseExpression : Json → ParserState → Result string)
        (TypeError : Json → string).

Local Abbreviation defaultOf := (defaultClause parseExpression TypeError).
Local Abbreviation columnOf := (columnParts parseExpression TypeError).
Local Abbreviation addColumnOf := (addColumnParts parseExpression TypeError).

Lemma defaultClause_not_clause (field : Field) (dialect : Dialect) (d : list string) :
  defaultOf field dialect = Ok d → "NOT NULL" ∉ d.
Proof.
  unfold defaultClause. destruct (field_default field) as [v|].
  - intros (x & _ & [= <-])%Result_bind_Ok. by intros [?|?%elem_of_nil]%elem_of_cons.
  - intros [= <-]. apply not_elem_of_nil.
Qed.

Lemma createTable_column (table : Table) (field : Field) (dialect : Dialect)
    (s : string) :
  generateCreateTableSQL parseExpression TypeError table dialect = Ok s →
  field ∈ fields table →
  ∃ parts, columnOf field dialect = Ok parts
           ∧ Str.Includes s ("  " +:+ Str.join " " parts).
Proof.
  unfold generateCreateTableSQL. intros (columns & Hcolumns & Hs)%Result_bind_Ok Hfield.
  destruct (forEach_Ok_elem _ _ _ _ Hcolumns Hfield)
    as (line & before & after & (parts & Hparts & [= <-])%Result_bind_Ok & ->).
  exists parts. split; [done|].
  set (lines := (before ++ _ :: after) ++ _) in Hs.
  assert (Str.Includes (Str.join ("," +:+ nl) lines) ("  " +:+ Str.join " " parts))
    as Hline by (apply StrFacts.join_Includes; subst lines; set_solver).
  assert (∀ sql rest,
            sql = "CREATE TABLE " +:+ quoted (table_name table) +:+ " (" +:+ nl
                  +:+ Str.join ("," +:+ nl) lines +:+ rest →
            Str.Includes sql ("  " +:+ Str.join " " parts)) as Hsql.
  { intros sql rest ->. do 4 apply StrFacts.Includes_app_r_of.
    by apply StrFacts.Includes_app_l_of. }
  case_bool_decide; injection Hs as <-.
  - apply StrFacts.Includes_app_l_of. by eapply Hsql.
  - by eapply Hsql.
Qed.

(** C9.  In a column definition of CREATE TABLE a primary-key field gets
    the PRIMARY KEY clause and no NOT NULL clause, whatever its
    [nonNullable] flag; in ADD COLUMN a field whose [nonNullable] flag is
    set gets the NOT NULL clause, whatever its [primaryKey] flag.  The
    column definition is a line of every CREATE TABLE of a table with the
    field, and the ADD COLUMN statement is its clauses joined by blanks. *)
Theorem primary_key_and_not_null_clauses (field : Field) (dialect : Dialect) :
  (isTrue (primaryKey field) →
     columnOf field dialect
     = (d ← defaultOf field dialect;
        Ok ([quoted (field_name field); mapFieldTypeToSQL (field_type field) dialect;
             "PRIMARY KEY"] ++ d))
     ∧ ∀ parts, columnOf field dialect = Ok parts →
         "PRIMARY KEY" ∈ parts ∧ "NOT NULL" ∉ parts)
  ∧ (isTrue (nonNullable field) →
     ∀ tableName,
       addColumnOf tableName field dialect
       = (d ← defaultOf field dialect;
          Ok ([("ALTER TABLE " +:+ quoted tableName); "ADD COLUMN";
               quoted (field_name field);
               mapFieldTypeToSQL (field_type field) dialect; "NOT NULL"] ++ d))
       ∧ ∀ parts, addColumnOf tableName field dialect = Ok parts →
           "NOT NULL" ∈ parts)
  ∧ (∀ table s,
       generateCreateTableSQL parseExpression TypeError table dialect = Ok s →
       field ∈ fields table →
       ∃ parts, columnOf field dialect = Ok parts
                ∧ Str.Includes s ("  " +:+ Str.join " " parts))
  ∧ (∀ tableName s,
       generateAddColumnSQL parseExpression TypeError tableName field dialect = Ok s →
       ∃ parts, addColumnOf tableName field dialect = Ok parts
                ∧ s = Str.join " " parts +:+ ";").
Proof.
  split_and!.
  - intros Hpk. apply Is_true_true in Hpk.
    assert (columnOf field dialect
            = (d ← defaultOf field dialect;
               Ok ([quoted (field_name field);
                    mapFieldTypeToSQL (field_type field) dialect;
                    "PRIMARY KEY"] ++ d))) as Heq.
    { unfold columnParts. rewrite Hpk. by rewrite andb_false_r. }
    split; [done|]. intros parts. rewrite Heq.
    intros (d & Hd & [= <-])%Result_bind_Ok. split; [set_solver|].
    apply defaultClause_not_clause in Hd.
    pose proof (mapFieldTypeToSQL_not_clause (field_type field) dialect).
    pose proof (quoted_not_clause (field_name field)).
    cbn [app]. rewrite !elem_of_cons. intros [?|[?|[?|?]]]; done.
  - intros Hnn tableName. apply Is_true_true in Hnn.
    assert (addColumnOf tableName field dialect
            = (d ← defaultOf field dialect;
               Ok ([("ALTER TABLE " +:+ quoted tableName); "ADD COLUMN";
                    quoted (field_name field);
                    mapFieldTypeToSQL (field_type field) dialect; "NOT NULL"] ++ d)))
      as Heq.
    { unfold addColumnParts. by rewrite Hnn. }
    split; [done|]. intros parts. rewrite Heq.
    intros (d & Hd & [= <-])%Result_bind_Ok. set_solver.
  - intros table s Hs Hfield. by eapply createTable_column.
  - intros tableName s. unfold generateAddColumnSQL.
    intros (parts & Hparts & [= <-])%Result_bind_Ok. eauto.
Qed.

End Clauses.

Lemma primary_key_and_not_null_clauses_witness :
  isTrue (primaryKey idField) ∧ isTrue (nonNullable idField)
  ∧ ("PRIMARY KEY" ∈ [quoted "id"; "UUID"; "PRIMARY KEY"])
  ∧ ("NOT NULL" ∉ [quoted "id"; "UUID"; "PRIMARY KEY"])
  ∧ ("NOT NULL" ∈ [("ALTER TABLE " +:+ quoted "users"); "ADD COLUMN"; quoted "id";
                    "UUID"; "NOT NULL"]).
Proof.
  destruct (primary_key_and_not_null_clauses parseExpression_sample TypeError_sample
              idField POSTGRESQL) as (Hcreate & Hadd & _).
  destruct (Hcreate I) as [_ Hc]. destruct (Hadd I "users") as [_ Ha].
  destruct (Hc _ eq_refl) as [H1 H2].
  split; [exact I|]. split; [exact I|].
  split; [exact H1|]. split; [exact H2|].
  exact (Ha _ eq_refl).
Defined.

(** ** Compilation failures *)

Lemma Result_bind_Throw {A B} (r : Result A) (k : A → Result B) (m : string) :
  r ≫= k = Throw m → r = Throw m ∨ ∃ a, r = Ok a ∧ k a = Throw m.
Proof.
  destruct r as [a|m']; cbn; [intros Hk; right; eauto | intros [= ->]; by left].
Qed.

Lemma Eff_bind_Throw {A B} (c : Eff A) (k : A → Eff B) (tick : nat) (m : string) :
  (c ≫= k) tick = Throw m →
  c tick = Throw m ∨ ∃ a tick1, c tick = Ok (a, tick1) ∧ k a tick1 = Throw m.
Proof.
  unfold mbind, Eff_bind. destruct (c tick) as [[a tick1]|m'];
    [intros Hk; right; eauto|].
  intros [= ->]. by left.
Qed.

Lemma lift_Throw {A} (r : Result A) (tick : nat) (m : string) :
  lift r tick = Throw m → r = Throw m.
Proof. unfold lift. destruct r; [done | by intros [= ->]]. Qed.

Lemma run_Throw {A} (c : Eff A) (m : string) : run c = Throw m → c 0%nat = Throw m.
Proof. unfold run. destruct (c 0%nat) as [[a t]|m']; [done | by intros [= ->]]. Qed.

Lemma run_Ok {A} (c : Eff A) (a : A) : run c = Ok a → ∃ b t, c 0%nat = Ok (b, t).
Proof. unfold run. destruct (c 0%nat) as [[b t]|m]; [eauto | done]. Qed.

Lemma forEachEff_Throw_inv {A B} (f : A → Eff B) (xs : list A) (tick : nat)
    (m : string) :
  forEachEff f xs tick = Throw m → ∃ x t, x ∈ xs ∧ f x t = Throw m.
Proof.
  revert tick. induction xs as [|x xs IH]; intros tick; cbn; [done|].
  intros [Hx|(y & t1 & Hy & [Hrest|(ys & t2 & _ & Hret)]%Eff_bind_Throw)]%Eff_bind_Throw.
  - exists x, tick. split; [by left | done].
  - destruct (IH _ Hrest) as (x' & t & ? & ?). exists x', t. split; [by right | done].
  - done.
Qed.

Section Failures.
Context (parseExpression parseCondition : Json → ParserState → Result string)
        (TypeError : Json → string) (clock : nat → Z).

Local Abbreviation formatDefault := (formatDefaultValue parseExpression TypeError).
Local Abbreviation bootstrap :=
  (generateInitialMigration parseExpression parseCondition TypeError).
Local Abbreviation fromDiff :=
  (generateMigrationFromDiff parseExpression parseCondition TypeError clock).
Local Abbreviation defaultOf := (defaultClause parseExpression TypeError).
Local Abbreviation createTable := (generateCreateTableSQL parseExpression TypeError).
Local Abbreviation addedField := (addedFieldParts parseExpression TypeError).
Local Abbreviation alterParts := (alterColumnParts parseExpression TypeError clock).
Local Abbreviation policiesOf := (generateRLSPoliciesSQL parseCondition).
Local Abbreviation ErrorOfDefault := (DefaultError parseExpression TypeError).
Local Abbreviation Rejected := (CompilerRejectsDefault parseExpression TypeError).
Local Abbreviation ErrorOf :=
  (CompilerError parseExpression parseCondition TypeError).

Lemma formatDefault_Throw (value : Json) (dialect : Dialect) (message : string) :
  formatDefault (Some value) dialect None = Throw message →
  ErrorOfDefault dialect value message.
Proof.
  unfold formatDefaultValue, DefaultError.
  destruct value as [| b | n | s | items | entries] eqn:Hvalue;
    try done; try by destruct (isSQLite dialect).
  all: fold (defaultState dialect); rewrite <-Hvalue;
    destruct (normalizeExpression TypeError value) as [normalized|m] eqn:Hn; cbn;
    [ destruct (parseExpression normalized (defaultState dialect)) as [text|m] eqn:Hp; cbn;
      [ by destruct (isSQLite dialect && bool_decide (text = "DATETIME()"))
      | intros [= <-]; split; [by subst|]; exists m; eauto ]
    | intros [= <-]; split; [by subst|]; exists m; eauto ].
Qed.

(** A compiler failure on a default makes [formatDefaultValue] throw the
    compiler's message behind the prefix. *)
Lemma formatDefault_compiler_failure (value normalized : Json) (dialect : Dialect)
    (underlying : string) :
  isObject value →
  normalizeExpression TypeError value = Ok normalized →
  parseExpression normalized (defaultState dialect) = Throw underlying →
  formatDefault (Some value) dialect None
  = Throw ("Failed to parse expression: " +:+ underlying).
Proof.
  intros Hobj Hn Hp. unfold formatDefaultValue.
  destruct value as [| b | n | s | items | entries]; try done;
    fold (defaultState dialect); rewrite Hn; cbn; by rewrite Hp.
Qed.

(** *** Every error is the error of a call *)

Lemma defaultOf_Throw (field : Field) (dialect : Dialect) (message : string) :
  defaultOf field dialect = Throw message →
  ∃ v, field_default field = Some v ∧ formatDefault (Some v) dialect None = Throw message.
Proof.
  unfold defaultClause. destruct (field_default field) as [v|]; [|done].
  intros [H|(x & _ & ?)]%Result_bind_Throw; [|done]. eauto.
Qed.

Lemma createTable_Throw (table : Table) (dialect : Dialect) (message : string) :
  createTable table dialect = Throw message →
  ∃ v, v ∈ declaredDefaults (fields table)
       ∧ formatDefault (Some v) dialect None = Throw message.
Proof.
  unfold generateCreateTableSQL.
  intros [H|(columns & _ & H)]%Result_bind_Throw;
    [|by destruct (bool_decide (dialect = POSTGRESQL))].
  apply forEach_Throw_inv in H as (field & Hfield & H).
  apply Result_bind_Throw in H as [H|(parts & _ & ?)]; [|done].
  unfold columnParts in H.
  apply Result_bind_Throw in H as [H|(d & _ & ?)]; [|done].
  apply defaultOf_Throw in H as (v & Hv & H). exists v. split; [|done].
  apply list_elem_of_omap. eauto.
Qed.

Lemma addedField_Throw (tName : string) (dialect : Dialect) (field : Field)
    (message : string) :
  addedField tName dialect field = Throw message →
  ∃ v, field_default field = Some v ∧ formatDefault (Some v) dialect None = Throw message.
Proof.
  unfold addedFieldParts, generateAddColumnSQL, addColumnParts.
  intros [H|(add & _ & ?)]%Result_bind_Throw; [|done].
  apply Result_bind_Throw in H as [H|(parts & _ & ?)]; [|done].
  apply Result_bind_Throw in H as [H|(d & _ & ?)]; [|done].
  by apply defaultOf_Throw in H.
Qed.

Lemma alterParts_Throw (tName : string) (field : Field) (changes : FieldChange)
    (dialect : Dialect) (tick : nat) (message : string) :
  alterParts tName field changes dialect tick = Throw message →
  dialect = POSTGRESQL
  ∧ ∃ c v, ch_default changes = Some c ∧ change_to c = Some v
           ∧ formatDefault (Some v) dialect None = Throw message.
Proof.
  unfold alterColumnParts.
  intros [H|(typeParts & t1 & _ & H)]%Eff_bind_Throw.
  { unfold typeChangeParts in H. destruct (ch_type changes); [|done].
    by destruct (bool_decide (dialect = POSTGRESQL)). }
  apply Eff_bind_Throw in H as [H|(defaultParts & t2 & _ & ?)]; [|done].
  apply lift_Throw in H. unfold defaultChangeParts in H.
  destruct (ch_default changes) as [c|]; [|done].
  case_bool_decide as Hd; [|done].
  destruct (change_to c) as [v|] eqn:Hv; [|done].
  apply Result_bind_Throw in H as [H|(d & _ & ?)]; [|done].
  split; [done|]. by exists c, v.
Qed.

Lemma policyPart_Throw (tName operation command clause : string)
    (change : option (Change Json)) (state : ParserState) (message : string) :
  policyPart parseCondition tName operation command clause change state
  = Throw message →
  ∃ c, change = Some c ∧ parseCondition (change_to c) state = Throw message.
Proof.
  unfold policyPart. destruct change as [c|]; [|done].
  intros [H|(x & _ & ?)]%Result_bind_Throw; [|done]. eauto.
Qed.

Lemma elem_of_changedConditions (table : TableAccessChange) (c : Change Json) :
  Some c ∈ [acc_read (tac_changes table); acc_create (tac_changes table);
            acc_update (tac_changes table); acc_delete (tac_changes table)] →
  (tac_tableName table, change_to c) ∈ changedConditions table.
Proof.
  intros Hin. unfold changedConditions. apply list_elem_of_omap.
  exists (Some c). split; [done|]. reflexivity.
Qed.

Lemma policiesOf_Throw (accessControl : AccessControlDiff) (model : DataModel)
    (message : string) :
  policiesOf accessControl model = Throw message →
  ∃ tName condition,
    (tName, condition) ∈ policyConditions accessControl
    ∧ parseCondition condition (policyState tName model) = Throw message.
Proof.
  unfold generateRLSPoliciesSQL.
  intros [H|(blocks & _ & ?)]%Result_bind_Throw; [|done].
  apply forEach_Throw_inv in H as (table & Htable & H). unfold tablePolicies in H.
  assert (∀ c, Some c ∈ [acc_read (tac_changes table); acc_create (tac_changes table);
                         acc_update (tac_changes table); acc_delete (tac_changes table)] →
               parseCondition (change_to c) (policyState (tac_tableName table) model)
               = Throw message →
               ∃ tName condition,
                 (tName, condition) ∈ policyConditions accessControl
                 ∧ parseCondition condition (policyState tName model) = Throw message)
    as Hfound.
  { intros c Hin Hc. exists (tac_tableName table), (change_to c). split; [|done].
    apply elem_of_flat_map. exists table. split; [done|].
    by apply elem_of_changedConditions. }
  apply Result_bind_Throw in H as [H|(r & _ & H)].
  { apply policyPart_Throw in H as (c & Hc & H). apply (Hfound c); [|done].
    rewrite <-Hc. set_solver. }
  apply Result_bind_Throw in H as [H|(c' & _ & H)].
  { apply policyPart_Throw in H as (c & Hc & H). apply (Hfound c); [|done].
    rewrite <-Hc. set_solver. }
  apply Result_bind_Throw in H as [H|(u & _ & H)].
  { apply policyPart_Throw in H as (c & Hc & H). apply (Hfound c); [|done].
    rewrite <-Hc. set_solver. }
  apply Result_bind_Throw in H as [H|(d & _ & H)]; [|done].
  apply policyPart_Throw in H as (c & Hc & H). apply (Hfound c); [|done].
  rewrite <-Hc. set_solver.
Qed.

Lemma bootstrap_Throw (model : DataModel) (dialect : Dialect) (message : string) :
  bootstrap model dialect = Throw message →
  ErrorOf model dialect (bootstrapDefaults model)
    (policyConditions (generateAccessControlDiffForFullMigration (tables model)))
    message.
Proof.
  unfold generateInitialMigration, initialTableParts.
  intros [H|(sqlParts & _ & H)]%Result_bind_Throw.
  - left. apply Result_bind_Throw in H as [H|(creates & _ & ?)]; [|done].
    apply forEach_Throw_inv in H as (table & Htable & H).
    apply createTable_Throw in H as (v & Hv & H). exists v. split.
    + apply elem_of_flat_map. eauto.
    + by apply formatDefault_Throw.
  - case_bool_decide as Hd; [|done]. right. split; [done|].
    apply Result_bind_Throw in H as [H|(policies & _ & ?)]; [|done].
    by apply policiesOf_Throw.
Qed.

Lemma fromDiff_Throw (diff : DatabaseDiff) (model : DataModel) (dialect : Dialect)
    (message : string) :
  fromDiff diff model dialect = Throw message →
  ErrorOf model dialect (diffDefaults diff dialect)
    (policyConditions (diff_accessControl diff)) message.
Proof.
  unfold generateMigrationFromDiff. intros Hrun%run_Throw.
  apply Eff_bind_Throw in Hrun as [H|(sqlParts & t & _ & ?)]; [|done].
  unfold diffParts in H.
  apply Eff_bind_Throw in H as [H|(addedParts & t1 & _ & H)].
  { left. apply lift_Throw, forEach_Throw_inv in H as (table & Htable & H).
    apply createTable_Throw in H as (v & Hv & H). exists v. split.
    - unfold diffDefaults. apply elem_of_app. left. apply elem_of_flat_map. eauto.
    - by apply formatDefault_Throw. }
  apply Eff_bind_Throw in H as [H|(modifiedParts & t2 & _ & H)].
  { left. apply forEachEff_Throw_inv in H as (modification & t & Hm & H).
    unfold modificationParts in H.
    apply Eff_bind_Throw in H as [H|(addedCols & t3 & _ & H)].
    { apply lift_Throw, forEach_Throw_inv in H as (field & Hfield & H).
      apply addedField_Throw in H as (v & Hv & H). exists v. split.
      - unfold diffDefaults. apply elem_of_app. right. apply elem_of_flat_map.
        exists modification. split; [done|]. apply elem_of_app. left.
        apply list_elem_of_omap. eauto.
      - by apply formatDefault_Throw. }
    apply Eff_bind_Throw in H as [H|(modCols & t4 & _ & ?)]; [|done].
    apply forEachEff_Throw_inv in H as (fieldMod & t5 & Hfm & H).
    unfold modifiedFieldParts, generateAlterColumnSQL in H.
    apply Eff_bind_Throw in H as [H|(alter & t6 & _ & ?)]; [|done].
    apply Eff_bind_Throw in H as [H|(parts & t7 & _ & ?)]; [|done].
    apply alterParts_Throw in H as (Hd & c & v & Hc & Hv & H). exists v. split.
    - unfold diffDefaults. apply elem_of_app. right. apply elem_of_flat_map.
      exists modification. split; [done|]. apply elem_of_app. right.
      rewrite bool_decide_eq_true_2 by done. apply list_elem_of_omap.
      exists fieldMod. split; [done|]. unfold changedDefault. by rewrite Hc.
    - by apply formatDefault_Throw. }
  apply Eff_bind_Throw in H as [H|(policies & t3 & _ & ?)]; [|done].
  case_bool_decide as Hd; [|done]. right. split; [done|].
  apply lift_Throw in H. by apply policiesOf_Throw.
Qed.

(** *** A result means every call succeeded *)

Lemma defaultOf_Ok (field : Field) (dialect : Dialect) (d : list string) (v : Json) :
  defaultOf field dialect = Ok d → field_default field = Some v →
  ∃ text, formatDefault (Some v) dialect None = Ok text.
Proof.
  unfold defaultClause. intros H Hv. rewrite Hv in H.
  apply Result_bind_Ok in H as (text & ? & _). eauto.
Qed.

Lemma createTable_Ok_defaults (table : Table) (dialect : Dialect) (s : string) (v : Json) :
  createTable table dialect = Ok s → v ∈ declaredDefaults (fields table) →
  ∃ text, formatDefault (Some v) dialect None = Ok text.
Proof.
  unfold generateCreateTableSQL. intros (columns & Hcolumns & _)%Result_bind_Ok.
  intros (field & Hfield & Hv)%list_elem_of_omap.
  destruct (forEach_Ok_elem _ _ _ _ Hcolumns Hfield) as (line & _ & _ & Hline & _).
  apply Result_bind_Ok in Hline as (parts & Hparts & _). unfold columnParts in Hparts.
  apply Result_bind_Ok in Hparts as (d & Hd & _). by eapply defaultOf_Ok.
Qed.

Lemma addedField_Ok_defaults (tName : string) (dialect : Dialect) (field : Field)
    (parts : list string) (v : Json) :
  addedField tName dialect field = Ok parts → field_default field = Some v →
  ∃ text, formatDefault (Some v) dialect None = Ok text.
Proof.
  unfold addedFieldParts, generateAddColumnSQL, addColumnParts.
  intros (add & (ps & (d & Hd & _)%Result_bind_Ok & _)%Result_bind_Ok & _)%Result_bind_Ok.
  by eapply defaultOf_Ok.
Qed.

Lemma alterParts_Ok_defaults (tName : string) (field : Field) (changes : FieldChange)
    (tick tick' : nat) (parts : list string) (c : Change (option Json)) (v : Json) :
  alterParts tName field changes POSTGRESQL tick = Ok (parts, tick') →
  ch_default changes = Some c → change_to c = Some v →
  ∃ text, formatDefault (Some v) POSTGRESQL None = Ok text.
Proof.
  unfold alterColumnParts. intros H Hc Hv.
  apply Eff_bind_Ok in H as (typeParts & t1 & _ & H).
  apply Eff_bind_Ok in H as (defaultParts & t2 & [H _]%lift_Ok & _).
  unfold defaultChangeParts in H. rewrite Hc, Hv in H. cbn in H.
  apply Result_bind_Ok in H as (text & ? & _). eauto.
Qed.

Lemma policyPart_Ok (tName operation command clause : string)
    (c : Change Json) (state : ParserState) (parts : list string) :
  policyPart parseCondition tName operation command clause (Some c) state = Ok parts →
  ∃ text, parseCondition (change_to c) state = Ok text.
Proof. unfold policyPart. intros (text & ? & _)%Result_bind_Ok. eauto. Qed.

Lemma policiesOf_Ok_conditions (accessControl : AccessControlDiff) (model : DataModel)
    (policies : list string) (tName : string) (condition : Json) :
  policiesOf accessControl model = Ok policies →
  (tName, condition) ∈ policyConditions accessControl →
  ∃ text, parseCondition condition (policyState tName model) = Ok text.
Proof.
  unfold generateRLSPoliciesSQL, policyConditions.
  intros (blocks & Hblocks & _)%Result_bind_Ok.
  intros (table & Htable & Hc)%elem_of_flat_map.
  destruct (forEach_Ok_elem _ _ _ _ Hblocks Htable) as (block & _ & _ & H & _).
  unfold tablePolicies in H.
  apply Result_bind_Ok in H as (r & Hr & H).
  apply Result_bind_Ok in H as (c & Hcr & H).
  apply Result_bind_Ok in H as (u & Hu & H).
  apply Result_bind_Ok in H as (d & Hd & _).
  unfold changedConditions in Hc.
  apply list_elem_of_omap in Hc as (change & Hin & Hsome).
  destruct change as [ch|]; [|done]. cbn in Hsome. injection Hsome as <- <-.
  rewrite !elem_of_cons, elem_of_nil in Hin.
  destruct Hin as [Heq|[Heq|[Heq|[Heq|[]]]]]; rewrite <-Heq in *;
    eauto using policyPart_Ok.
Qed.

Lemma bootstrap_Ok_defaults (model : DataModel) (dialect : Dialect)
    (r : MigrationResult) (v : Json) :
  bootstrap model dialect = Ok r → v ∈ bootstrapDefaults model →
  ∃ text, formatDefault (Some v) dialect None = Ok text.
Proof.
  unfold generateInitialMigration, initialTableParts, bootstrapDefaults.
  intros (parts & (creates & Hcreates & _)%Result_bind_Ok & _)%Result_bind_Ok.
  intros (table & Htable & Hv)%elem_of_flat_map.
  destruct (forEach_Ok_elem _ _ _ _ Hcreates Htable) as (create & _ & _ & H & _).
  by eapply createTable_Ok_defaults.
Qed.

Lemma bootstrap_Ok_conditions (model : DataModel) (r : MigrationResult)
    (tName : string) (condition : Json) :
  bootstrap model POSTGRESQL = Ok r →
  (tName, condition)
    ∈ policyConditions (generateAccessControlDiffForFullMigration (tables model)) →
  ∃ text, parseCondition condition (policyState tName model) = Ok text.
Proof.
  unfold generateInitialMigration.
  intros (parts & _ & H)%Result_bind_Ok. rewrite bool_decide_eq_true_2 in H by done.
  apply Result_bind_Ok in H as (policies & Hp & _).
  by eapply policiesOf_Ok_conditions.
Qed.

Lemma fromDiff_Ok_defaults (diff : DatabaseDiff) (model : DataModel) (dialect : Dialect)
    (r : MigrationResult) (v : Json) :
  fromDiff diff model dialect = Ok r → v ∈ diffDefaults diff dialect →
  ∃ text, formatDefault (Some v) dialect None = Ok text.
Proof.
  unfold generateMigrationFromDiff. intros (res & t & H)%run_Ok.
  apply Eff_bind_Ok in H as (sqlParts & t0 & H & _). unfold diffParts in H.
  apply Eff_bind_Ok in H as (addedParts & t1 & [Hadded _]%lift_Ok & H).
  apply Eff_bind_Ok in H as (modifiedParts & t2 & Hmods & _).
  unfold diffDefaults. rewrite elem_of_app.
  intros [(table & Htable & Hv)%elem_of_flat_map
         |(modification & Hm & Hv)%elem_of_flat_map].
  - destruct (forEach_Ok_elem _ _ _ _ Hadded Htable) as (create & _ & _ & Hc & _).
    by eapply createTable_Ok_defaults.
  - destruct (forEachEff_Ok_elem _ _ _ _ _ _ Hmods Hm)
      as (mparts & t3 & t4 & _ & _ & Hmod & _).
    unfold modificationParts in Hmod.
    apply Eff_bind_Ok in Hmod as (addedCols & t5 & [Hcols _]%lift_Ok & Hmod).
    apply Eff_bind_Ok in Hmod as (modCols & t6 & Hfields & _).
    apply elem_of_app in Hv as [(field & Hfield & Hv)%list_elem_of_omap|Hv].
    + destruct (forEach_Ok_elem _ _ _ _ Hcols Hfield) as (ps & _ & _ & Hps & _).
      by eapply addedField_Ok_defaults.
    + case_bool_decide as Hd; [subst dialect|by apply elem_of_nil in Hv].
      apply list_elem_of_omap in Hv as (fieldMod & Hfm & Hv).
      unfold changedDefault in Hv.
      destruct (ch_default (fm_changes fieldMod)) as [c|] eqn:Hc; [|done]. cbn in Hv.
      destruct (forEachEff_Ok_elem _ _ _ _ _ _ Hfields Hfm)
        as (fparts & t7 & t8 & _ & _ & Hf & _).
      unfold modifiedFieldParts, generateAlterColumnSQL in Hf.
      apply Eff_bind_Ok in Hf as (alter & t9 & Hf & _).
      apply Eff_bind_Ok in Hf as (ps & t10 & Hf & _).
      by eapply alterParts_Ok_defaults.
Qed.

Lemma fromDiff_Ok_conditions (diff : DatabaseDiff) (model : DataModel)
    (r : MigrationResult) (tName : string) (condition : Json) :
  fromDiff diff model POSTGRESQL = Ok r →
  (tName, condition) ∈ policyConditions (diff_accessControl diff) →
  ∃ text, parseCondition condition (policyState tName model) = Ok text.
Proof.
  unfold generateMigrationFromDiff. intros (res & t & H)%run_Ok.
  apply Eff_bind_Ok in H as (sqlParts & t0 & H & _). unfold diffParts in H.
  apply Eff_bind_Ok in H as (addedParts & t1 & _ & H).
  apply Eff_bind_Ok in H as (modifiedParts & t2 & _ & H).
  apply Eff_bind_Ok in H as (policies & t3 & H & _).
  rewrite bool_decide_eq_true_2 in H by done. apply lift_Ok in H as [H _].
  by eapply policiesOf_Ok_conditions.
Qed.

(** *** The operations return when the compiler accepts what they compile *)

Lemma ErrorOf_not_accepted (model : DataModel) (dialect : Dialect)
    (defaults : list Json) (conditions : list (string * Json)) (message : string) :
  AcceptsDefaults parseExpression TypeError dialect defaults →
  (dialect = POSTGRESQL → AcceptsConditions parseCondition model conditions) →
  ¬ ErrorOf model dialect defaults conditions message.
Proof.
  intros Hdefaults Hconditions [(v & Hv & Herr)|(Hd & tName & c & Hc & Herr)].
  - destruct (Hdefaults v Hv) as (text & Htext).
    destruct Herr as (Hobj & underlying & -> & [Hn|(normalized & Hn & Hp)]).
    + unfold formatDefaultValue in Htext.
      destruct v as [| b | n | s | items | entries]; try done;
        by rewrite Hn in Htext.
    + by rewrite (formatDefault_compiler_failure _ _ _ _ Hobj Hn Hp) in Htext.
  - destruct (Hconditions Hd tName c Hc) as (text & Htext). congruence.
Qed.

Lemma bootstrap_total (model : DataModel) (dialect : Dialect) :
  AcceptsDefaults parseExpression TypeError dialect (bootstrapDefaults model) →
  (dialect = POSTGRESQL →
   AcceptsConditions parseCondition model
     (policyConditions (generateAccessControlDiffForFullMigration (tables model)))) →
  ∃ r, bootstrap model dialect = Ok r.
Proof.
  intros Hdefaults Hconditions.
  destruct (bootstrap model dialect) as [r|message] eqn:Hrun; [eauto|].
  apply bootstrap_Throw in Hrun. by apply ErrorOf_not_accepted in Hrun.
Qed.

Lemma fromDiff_total (diff : DatabaseDiff) (model : DataModel) (dialect : Dialect) :
  AcceptsDefaults parseExpression TypeError dialect (diffDefaults diff dialect) →
  (dialect = POSTGRESQL →
   AcceptsConditions parseCondition model (policyConditions (diff_accessControl diff))) →
  ∃ r, fromDiff diff model dialect = Ok r.
Proof.
  intros Hdefaults Hconditions.
  destruct (fromDiff diff model dialect) as [r|message] eqn:Hrun; [eauto|].
  apply fromDiff_Throw in Hrun. by apply ErrorOf_not_accepted in Hrun.
Qed.

(** *** Failure of the whole operation *)

Lemma rejected_default_not_Ok (dialect : Dialect) (value : Json) :
  Rejected dialect value →
  ¬ ∃ text, formatDefault (Some value) dialect None = Ok text.
Proof.
  intros (Hobj & normalized & underlying & Hn & Hp) (text & Htext).
  rewrite (formatDefault_compiler_failure _ _ _ _ Hobj Hn Hp) in Htext. done.
Qed.


End Failures.

(** ** The bootstrap path *)

Section Bootstrap.
Context (parseExpression parseCondition : Json → ParserState → Result string)
        (TypeError : Json → string).

Local Abbreviation createTable := (generateCreateTableSQL parseExpression TypeError).
Local Abbreviation bootstrap :=
  (generateInitialMigration parseExpression parseCondition TypeError).

Local Abbreviation accepted := (AcceptsDefaults parseExpression TypeError).
Local Abbreviation acceptedConditions := (AcceptsConditions parseCondition).

(** C10.  On either SQLite dialect the bootstrap returns an access-control
    diff without tables, whatever conditions the model declares: no
    condition is compiled, and the bootstrap returns as soon as the compiler
    accepts the defaults of the model. *)
Theorem sqlite_bootstrap_no_access_control (model : DataModel) (dialect : Dialect) :
  dialect = SQLITE_MINIMAL ∨ dialect = SQLITE_EXTENSIONS →
  (∀ r, bootstrap model dialect = Ok r → acd_tables (accessControlDiff r) = [])
  ∧ (accepted dialect (bootstrapDefaults model) → ∃ r, bootstrap model dialect = Ok r)
  ∧ (∀ otherCompiler,
       generateInitialMigration parseExpression otherCompiler TypeError model dialect
       = bootstrap model dialect).
Proof.
  intros Hd. assert (dialect ≠ POSTGRESQL) as Hpg by (destruct Hd; by subst).
  split_and!.
  - intros r. unfold generateInitialMigration.
    intros (parts & _ & Hr)%Result_bind_Ok.
    rewrite bool_decide_eq_false_2 in Hr by done. by injection Hr as <-.
  - intros Hdefaults. by apply bootstrap_total.
  - intros otherCompiler. unfold generateInitialMigration.
    by rewrite !bool_decide_eq_false_2.
Qed.

Lemma createTable_postgresql (table : Table) (s : string) :
  createTable table POSTGRESQL = Ok s →
  Str.truthy s ∧ Str.Includes s (enableRLSSQL (table_name table)).
Proof.
  unfold generateCreateTableSQL. intros (columns & _ & Hs)%Result_bind_Ok.
  cbn in Hs. injection Hs as <-. split; [done|].
  rewrite <-!StrFacts.sapp_assoc. apply StrFacts.Includes_app_r.
Qed.

Lemma policyBlock_truthy (tableName read create update delete : string) :
  Forall (λ s, Is_true (Str.truthy s)) (policyBlock tableName read create update delete).
Proof. repeat constructor. Qed.

Lemma tablePolicies_bootstrap (model : DataModel) (table : Table) (block : list string) :
  tablePolicies parseCondition model (fromPermissiveDefault table) = Ok block →
  let state := policyState (table_name table) model in
  ∃ read create update delete,
    parseCondition (ac_read (accessControl table)) state = Ok read
    ∧ parseCondition (ac_create (accessControl table)) state = Ok create
    ∧ parseCondition (ac_update (accessControl table)) state = Ok update
    ∧ parseCondition (ac_delete (accessControl table)) state = Ok delete
    ∧ block = policyBlock (table_name table) read create update delete.
Proof.
  unfold tablePolicies, policyPart. cbn -[dropPolicies policyState].
  intros (r & (read & Hread & [= <-])%Result_bind_Ok & H)%Result_bind_Ok.
  apply Result_bind_Ok in H as (c & (create & Hcreate & [= <-])%Result_bind_Ok & H).
  apply Result_bind_Ok in H as (u & (update & Hupdate & [= <-])%Result_bind_Ok & H).
  apply Result_bind_Ok in H as (d & (delete & Hdelete & [= <-])%Result_bind_Ok & H).
  injection H as <-. by exists read, create, update, delete.
Qed.

(** C6.  A bootstrap on PostgreSQL that returns has, for every table of the
    model, the statement [ALTER TABLE "t" ENABLE ROW LEVEL SECURITY;] and,
    as one run of statements, the four [DROP POLICY IF EXISTS] of the read,
    create, update and delete policies followed by the four [CREATE POLICY],
    for SELECT, INSERT, UPDATE and DELETE, with the compiled conditions;
    the statements are spelled out below as they are emitted.  The returned
    access-control diff records the four operations of every table as
    changed from [true] to the declared condition.  The bootstrap returns
    as soon as the compiler accepts the defaults and the conditions of the
    model. *)
Theorem postgresql_bootstrap_policies (model : DataModel) :
  (∀ r,
     bootstrap model POSTGRESQL = Ok r →
     acd_tables (accessControlDiff r)
     = map (λ table,
              let ac := accessControl table in
              {| tac_tableName := table_name table;
                 tac_changes :=
                   {| acc_read :=
                        Some {| change_from := JBool true; change_to := ac_read ac |};
                      acc_create :=
                        Some {| change_from := JBool true; change_to := ac_create ac |};
                      acc_update :=
                        Some {| change_from := JBool true; change_to := ac_update ac |};
                      acc_delete :=
                        Some {| change_from := JBool true; change_to := ac_delete ac |}
                   |} |})
           (tables model)
     ∧ ∀ table, table ∈ tables model →
         let t := table_name table in
         let state := policyState t model in
         Str.Includes (sql r)
           ("ALTER TABLE " +:+ quoted t +:+ " ENABLE ROW LEVEL SECURITY;")
         ∧ ∃ read create update delete,
             parseCondition (ac_read (accessControl table)) state = Ok read
             ∧ parseCondition (ac_create (accessControl table)) state = Ok create
             ∧ parseCondition (ac_update (accessControl table)) state = Ok update
             ∧ parseCondition (ac_delete (accessControl table)) state = Ok delete
             ∧ Str.Includes (sql r)
                 (Str.join (nl +:+ nl)
                    ["DROP POLICY IF EXISTS " +:+ quoted (t +:+ "_read_policy")
                       +:+ " ON " +:+ quoted t +:+ ";";
                     "DROP POLICY IF EXISTS " +:+ quoted (t +:+ "_create_policy")
                       +:+ " ON " +:+ quoted t +:+ ";";
                     "DROP POLICY IF EXISTS " +:+ quoted (t +:+ "_update_policy")
                       +:+ " ON " +:+ quoted t +:+ ";";
                     "DROP POLICY IF EXISTS " +:+ quoted (t +:+ "_delete_policy")
                       +:+ " ON " +:+ quoted t +:+ ";";
                     "CREATE POLICY " +:+ quoted (t +:+ "_read_policy")
                       +:+ " ON " +:+ quoted t
                       +:+ " FOR SELECT USING (" +:+ read +:+ ");";
                     "CREATE POLICY " +:+ quoted (t +:+ "_create_policy")
                       +:+ " ON " +:+ quoted t
                       +:+ " FOR INSERT WITH CHECK (" +:+ create +:+ ");";
                     "CREATE POLICY " +:+ quoted (t +:+ "_update_policy")
                       +:+ " ON " +:+ quoted t
                       +:+ " FOR UPDATE USING (" +:+ update +:+ ");";
                     "CREATE POLICY " +:+ quoted (t +:+ "_delete_policy")
                       +:+ " ON " +:+ quoted t
                       +:+ " FOR DELETE USING (" +:+ delete +:+ ");"]))
  ∧ (accepted POSTGRESQL (bootstrapDefaults model) →
     acceptedConditions model
       (policyConditions (generateAccessControlDiffForFullMigration (tables model))) →
     ∃ r, bootstrap model POSTGRESQL = Ok r).
Proof.
  split; [|intros Hdefaults Hconditions; by apply bootstrap_total].
  intros r.
  unfold generateInitialMigration, initialTableParts, generateRLSPoliciesSQL.
  intros (parts & (creates & Hcreates & [= <-])%Result_bind_Ok & Hr)%Result_bind_Ok.
  rewrite !bool_decide_eq_true_2 in Hr by done.
  apply Result_bind_Ok in Hr as (policies & (blocks & Hblocks & [= <-])%Result_bind_Ok & Hr).
  injection Hr as <-. split; [reflexivity|]. intros table Htable. cbv zeta. cbn [sql].
  split.
  - destruct (forEach_Ok_elem _ _ _ table Hcreates Htable)
      as (create & before & after & Hcreate & ->).
    apply createTable_postgresql in Hcreate as [Htruthy Hincl].
    eapply StrFacts.Includes_trans; [|exact Hincl].
    apply StrFacts.joined_Includes; [set_solver | done].
  - cbn [acd_tables generateAccessControlDiffForFullMigration] in Hblocks.
    assert (fromPermissiveDefault table ∈ map fromPermissiveDefault (tables model))
      as Hin by (apply list_elem_of_fmap; eauto).
    destruct (forEach_Ok_elem _ _ _ _ Hblocks Hin)
      as (block & before & after & Hblock & ->).
    apply tablePolicies_bootstrap in Hblock
      as (read & create & update & delete & ? & ? & ? & ? & ->).
    exists read, create, update, delete. split_and!; try done.
    match goal with
    | |- Str.Includes ?text _ =>
        change (Str.Includes text
                  (Str.join (nl +:+ nl)
                     (policyBlock (table_name table) read create update delete)))
    end.
    apply (StrFacts.joined_Includes_within _ _
             ((creates ++ initialConstraints model) ++ concat before) _ (concat after));
      [by rewrite concat_split, <-!app_assoc | apply policyBlock_truthy].
Qed.

End Bootstrap.

(** ** The incremental path *)

Section FromDiff.
Context (parseExpression parseCondition : Json → ParserState → Result string)
        (TypeError : Json → string) (clock : nat → Z).

Local Abbreviation alterParts := (alterColumnParts parseExpression TypeError clock).
Local Abbreviation alterColumn := (generateAlterColumnSQL parseExpression TypeError clock).
Local Abbreviation fromDiff :=
  (generateMigrationFromDiff parseExpression parseCondition TypeError clock).
Local Abbreviation partsOf :=
  (diffParts parseExpression parseCondition TypeError clock).

Lemma fromDiff_Ok (diff : DatabaseDiff) (model : DataModel) (dialect : Dialect)
    (r : MigrationResult) :
  fromDiff diff model dialect = Ok r →
  ∃ parts tick,
    partsOf diff model dialect 0%nat = Ok (parts, tick)
    ∧ r = {| sql := Str.join (nl +:+ nl) (filter Str.truthy parts);
             accessControlDiff := diff_accessControl diff |}.
Proof.
  unfold generateMigrationFromDiff, run, mbind, Eff_bind.
  destruct (diffParts _ _ _ _ _ _ _ 0%nat) as [[parts tick]|m]; [|done].
  cbv [mret Eff_ret]. intros [= <-]. eauto.
Qed.

(** What is pushed for a modified field is part of the migration. *)
Lemma partsOf_modified (diff : DatabaseDiff) (model : DataModel) (dialect : Dialect)
    (parts : list string) (tick tick' : nat)
    (modification : TableModification) (fieldMod : FieldModification) :
  partsOf diff model dialect tick = Ok (parts, tick') →
  modification ∈ modified (diff_tables diff) →
  fieldMod ∈ fieldsModified modification →
  ∃ t1 t2 alter,
    alterColumn (tableName modification) (fm_field fieldMod) (fm_changes fieldMod)
                dialect t1 = Ok (alter, t2)
    ∧ alter ∈ parts.
Proof.
  unfold diffParts. intros Hparts Hm Hfm.
  apply Eff_bind_Ok in Hparts as (addedParts & ta & _ & Hparts).
  apply Eff_bind_Ok in Hparts as (modifiedParts & tm & Hmods & Hparts).
  apply Eff_bind_Ok in Hparts as (policies & tp & _ & Hret).
  cbv [mret Eff_ret] in Hret. injection Hret as <- <-.
  destruct (forEachEff_Ok_elem _ _ _ _ _ _ Hmods Hm)
    as (mparts & t1 & t2 & before & after & Hmod & ->).
  unfold modificationParts in Hmod.
  apply Eff_bind_Ok in Hmod as (addedCols & tc & _ & Hmod).
  apply Eff_bind_Ok in Hmod as (modCols & td & Hfields & Hret).
  cbv [mret Eff_ret] in Hret. injection Hret as <- <-.
  destruct (forEachEff_Ok_elem _ _ _ _ _ _ Hfields Hfm)
    as (fparts & t3 & t4 & before' & after' & Hfield & ->).
  unfold modifiedFieldParts in Hfield.
  apply Eff_bind_Ok in Hfield as (alter & te & Halter & Hret).
  cbv [mret Eff_ret] in Hret. injection Hret as <- <-.
  exists t3, te, alter. split; [done|].
  rewrite !concat_split. set_solver.
Qed.

Lemma alterColumn_Ok (tableName : string) (field : Field) (changes : FieldChange)
    (dialect : Dialect) (tick tick' : nat) (alter : string) :
  alterColumn tableName field changes dialect tick = Ok (alter, tick') →
  ∃ sqlParts, alterParts tableName field changes dialect tick = Ok (sqlParts, tick')
              ∧ alter = Str.join nl sqlParts.
Proof.
  unfold generateAlterColumnSQL.
  intros (sqlParts & t & Hparts & Hret)%Eff_bind_Ok.
  cbv [mret Eff_ret] in Hret. injection Hret as <- <-. eauto.
Qed.

Lemma alterParts_sqlite_type (tableName : string) (field : Field) (changes : FieldChange)
    (dialect : Dialect) (c : Change string) (tick : nat) :
  dialect ≠ POSTGRESQL → ch_type changes = Some c →
  alterParts tableName field changes dialect tick
  = Ok (columnRebuild tableName (field_name field)
          (mapFieldTypeToSQL (change_to c) dialect) (clock tick), S tick).
Proof.
  intros Hd Hc.
  unfold alterColumnParts, typeChangeParts, nullabilityChangeParts, defaultChangeParts.
  rewrite Hc, !bool_decide_eq_false_2 by done.
  destruct (ch_nonNullable changes), (ch_default changes);
    cbv [mbind Eff_bind Date_now mret Eff_ret lift]; by rewrite (right_id_L [] (++)).
Qed.

Lemma columnRebuild_truthy (tableName fieldName newType : string) (now : Z) :
  Str.truthy (Str.join nl (columnRebuild tableName fieldName newType now)).
Proof. done. Qed.

(** C1.  On a dialect without in-place retyping, a field modification with a
    type change pushes exactly the four statements of the column rebuild, in
    the order add, copy, drop, rename, around one temporary column named
    after a clock reading, and nothing else for the field; a migration that
    returns contains them, and the migration returns as soon as the compiler
    accepts the defaults of the diff. *)
Theorem column_rebuild_four_statements (dialect : Dialect) (tName : string)
    (field : Field) (changes : FieldChange) (c : Change string) :
  dialect = SQLITE_MINIMAL ∨ dialect = SQLITE_EXTENSIONS →
  ch_type changes = Some c →
  let newType := mapFieldTypeToSQL (change_to c) dialect in
  let rebuild (now : Z) :=
    let newColumnName := temporaryColumnName (field_name field) now in
    [rebuildAddSQL tName newColumnName newType;
     rebuildCopySQL tName newColumnName (field_name field) newType;
     dropColumnSQL tName (field_name field);
     rebuildRenameSQL tName newColumnName (field_name field)] in
  (∀ tick, alterParts tName field changes dialect tick
           = Ok (rebuild (clock tick), S tick))
  ∧ (∀ tick,
       modifiedFieldParts parseExpression TypeError clock tName dialect
         {| fm_field := field; fm_changes := changes |} tick
       = Ok ([Str.join nl (rebuild (clock tick))], S tick))
  ∧ (∀ diff model r modification fieldMod,
       fromDiff diff model dialect = Ok r →
       modification ∈ modified (diff_tables diff) →
       fieldMod ∈ fieldsModified modification →
       tableName modification = tName →
       fm_field fieldMod = field → fm_changes fieldMod = changes →
       ∃ tick, Str.Includes (sql r) (Str.join nl (rebuild (clock tick))))
  ∧ (∀ diff model,
       AcceptsDefaults parseExpression TypeError dialect (diffDefaults diff dialect) →
       ∃ r, fromDiff diff model dialect = Ok r).
Proof.
  intros Hd Hc newType rebuild.
  assert (dialect ≠ POSTGRESQL) as Hpg by (destruct Hd; by subst).
  split; [intros tick; by apply alterParts_sqlite_type|]. split.
  { intros tick. unfold modifiedFieldParts, generateAlterColumnSQL, foreignKeyChangeParts.
    cbn [fm_field fm_changes]. unfold mbind, Eff_bind.
    rewrite (alterParts_sqlite_type _ _ _ _ c tick Hpg Hc).
    cbv [mret Eff_ret]. rewrite bool_decide_eq_false_2 by done.
    by destruct (ch_foreignKey changes). }
  split.
  - intros diff model r modification fieldMod Hr Hm Hfm <- <- <-.
    apply fromDiff_Ok in Hr as (parts & t & Hparts & ->).
    destruct (partsOf_modified _ _ _ _ _ _ _ _ Hparts Hm Hfm)
      as (t1 & t2 & alter & Halter & Hin).
    apply alterColumn_Ok in Halter as (sqlParts & Hsql & ->).
    rewrite (alterParts_sqlite_type _ _ _ _ c t1 Hpg Hc) in Hsql.
    injection Hsql as <- <-. exists t1. cbn [sql].
    apply StrFacts.joined_Includes; [done | apply columnRebuild_truthy].
  - intros diff model Hdefaults. by apply fromDiff_total.
Qed.

(** *** Nullability changes *)

Lemma forEachEff_fmap {A B C} (f : B → Eff C) (g : A → B) (xs : list A) (tick : nat) :
  forEachEff f (map g xs) tick = forEachEff (λ x, f (g x)) xs tick.
Proof.
  revert tick. induction xs as [|x xs IH]; intros tick; [done|].
  cbn. unfold mbind, Eff_bind. destruct (f (g x) tick) as [[y t1]|m]; [|done].
  by rewrite IH.
Qed.

Lemma alterParts_sqlite_nullability (tName : string) (field : Field)
    (changes : FieldChange) (dialect : Dialect) (tick : nat) :
  dialect ≠ POSTGRESQL →
  alterParts tName field (withoutNullability changes) dialect tick
  = alterParts tName field changes dialect tick.
Proof.
  intros Hd. unfold alterColumnParts, nullabilityChangeParts. cbn.
  rewrite bool_decide_eq_false_2 by done. by destruct (ch_nonNullable changes).
Qed.

Lemma modificationParts_sqlite_nullability (dialect : Dialect)
    (modification : TableModification) (tick : nat) :
  dialect ≠ POSTGRESQL →
  modificationParts parseExpression TypeError clock dialect
    (withoutNullabilityOf modification) tick
  = modificationParts parseExpression TypeError clock dialect modification tick.
Proof.
  intros Hd. unfold modificationParts. cbn [withoutNullabilityOf tableName fieldsAdded
    fieldsRemoved fieldsModified]. unfold mbind, Eff_bind.
  destruct (lift _ tick) as [[addedParts t1]|m]; [|done].
  rewrite forEachEff_fmap.
  rewrite (forEachEff_ext _
             (modifiedFieldParts parseExpression TypeError clock
                (tableName modification) dialect)); [done|].
  intros fieldMod t _. unfold modifiedFieldParts, generateAlterColumnSQL.
  unfold mbind, Eff_bind. cbn [withoutNullabilityIn fm_field fm_changes].
  by rewrite alterParts_sqlite_nullability.
Qed.

Lemma alterParts_postgresql_nullability (tName : string) (field : Field)
    (changes : FieldChange) (c : Change bool) (tick tick' : nat)
    (sqlParts : list string) :
  ch_nonNullable changes = Some c →
  alterParts tName field changes POSTGRESQL tick = Ok (sqlParts, tick') →
  alterNullabilitySQL tName (field_name field) (change_to c) ∈ sqlParts.
Proof.
  intros Hc. unfold alterColumnParts, nullabilityChangeParts. rewrite Hc.
  intros (typeParts & t1 & _ & (defaultParts & t2 & _ & Hret)%Eff_bind_Ok)%Eff_bind_Ok.
  cbv [mret Eff_ret] in Hret. injection Hret as <- <-. set_solver.
Qed.

(** C8.  A nullability change yields its [SET NOT NULL] or [DROP NOT NULL]
    statement on PostgreSQL only: a PostgreSQL migration that returns
    contains the statement (and it returns as soon as the compiler accepts
    the defaults and conditions of the diff), and on the SQLite dialects the
    migration is the one of the diff without any nullability change. *)
Theorem nullability_change_postgresql_only (diff : DatabaseDiff) (model : DataModel) :
  (∀ r modification fieldMod c,
     fromDiff diff model POSTGRESQL = Ok r →
     modification ∈ modified (diff_tables diff) →
     fieldMod ∈ fieldsModified modification →
     ch_nonNullable (fm_changes fieldMod) = Some c →
     Str.Includes (sql r)
       ("ALTER TABLE " +:+ quoted (tableName modification) +:+ " ALTER COLUMN "
        +:+ quoted (field_name (fm_field fieldMod)) +:+ " "
        +:+ (if change_to c then "SET NOT NULL" else "DROP NOT NULL") +:+ ";"))
  ∧ (AcceptsDefaults parseExpression TypeError POSTGRESQL (diffDefaults diff POSTGRESQL) →
     AcceptsConditions parseCondition model (policyConditions (diff_accessControl diff)) →
     ∃ r, fromDiff diff model POSTGRESQL = Ok r)
  ∧ (∀ dialect,
       dialect = SQLITE_MINIMAL ∨ dialect = SQLITE_EXTENSIONS →
       fromDiff diff model dialect
       = fromDiff (withoutNullabilityChanges diff) model dialect).
Proof.
  split_and!.
  - intros r modification fieldMod c Hr Hm Hfm Hc.
    apply fromDiff_Ok in Hr as (parts & t & Hparts & ->).
    destruct (partsOf_modified _ _ _ _ _ _ _ _ Hparts Hm Hfm)
      as (t1 & t2 & alter & Halter & Hin).
    apply alterColumn_Ok in Halter as (sqlParts & Hsql & ->).
    apply (alterParts_postgresql_nullability _ _ _ c) in Hsql; [|done].
    cbn [sql]. eapply StrFacts.Includes_trans.
    + apply StrFacts.joined_Includes; [exact Hin|].
      eapply StrFacts.Includes_truthy; [by apply StrFacts.join_Includes | done].
    + by apply StrFacts.join_Includes.
  - intros Hdefaults Hconditions. by apply fromDiff_total.
  - intros dialect Hd.
    assert (dialect ≠ POSTGRESQL) as Hpg by (destruct Hd; by subst).
    unfold generateMigrationFromDiff, run. f_equal.
    unfold mbind, Eff_bind, diffParts.
    cbn [withoutNullabilityChanges diff_tables diff_accessControl added removed modified].
    unfold mbind, Eff_bind.
    destruct (lift _ 0%nat) as [[addedParts t1]|m]; [|done].
    rewrite forEachEff_fmap.
    rewrite (forEachEff_ext
               (λ x, modificationParts parseExpression TypeError clock dialect
                       (withoutNullabilityOf x))
               (modificationParts parseExpression TypeError clock dialect));
      [done|].
    intros modification t _. by apply modificationParts_sqlite_nullability.
Qed.

(** *** A default that becomes the current time *)

Lemma normalizeExpression_now (funcName : string) :
  Str.toLowerCase funcName = "now" →
  normalizeExpression TypeError (callWithoutArguments funcName)
  = Ok (callWithoutArguments "NOW").
Proof.
  intros Hnow. unfold callWithoutArguments. cbn.
  unfold normalizedName. by rewrite Hnow.
Qed.

Lemma alterParts_default_now (tName : string) (field : Field) (funcName : string)
    (tick : nat) :
  Str.toLowerCase funcName = "now" →
  alterParts tName field (defaultAdded (callWithoutArguments funcName)) POSTGRESQL tick
  = match parseExpression (callWithoutArguments "NOW") (defaultState POSTGRESQL) with
    | Ok text => Ok ([setDefaultSQL tName (field_name field) text], tick)
    | Throw message => Throw ("Failed to parse expression: " +:+ message)
    end.
Proof.
  intros Hnow. unfold alterColumnParts, typeChangeParts, nullabilityChangeParts,
    defaultChangeParts, formatDefaultValue.
  cbn [defaultAdded ch_type ch_nonNullable ch_default change_to callWithoutArguments].
  fold (callWithoutArguments funcName). rewrite (normalizeExpression_now _ Hnow).
  cbn. fold (defaultState POSTGRESQL).
  by destruct (parseExpression _ _).
Qed.

Lemma alterParts_default_sqlite (tName : string) (field : Field) (value : Json)
    (dialect : Dialect) (tick : nat) :
  dialect ≠ POSTGRESQL →
  alterParts tName field (defaultAdded value) dialect tick = Ok ([], tick).
Proof.
  intros Hd. unfold alterColumnParts, typeChangeParts, nullabilityChangeParts,
    defaultChangeParts. cbn. by rewrite bool_decide_eq_false_2.
Qed.

(** C7, as the code has it.  Where the only change of a field is a default
    that goes from absent to a call of [now] without arguments (in any
    letter case), PostgreSQL gets one statement, [ALTER COLUMN ... SET
    DEFAULT] followed by what the compiler prints for the call renamed to
    [NOW], and a migration that returns contains it; the SQLite dialects get
    no statement for the field. *)
Theorem default_now_postgresql (tName : string) (field : Field) (funcName text : string) :
  Str.toLowerCase funcName = "now" →
  parseExpression (JObject [("$func", JObject [("NOW", JArray [])])])
                  (defaultState POSTGRESQL) = Ok text →
  let changes := defaultAdded (JObject [("$func", JObject [(funcName, JArray [])])]) in
  let statement :=
    "ALTER TABLE " +:+ quoted tName +:+ " ALTER COLUMN " +:+ quoted (field_name field)
    +:+ " SET DEFAULT " +:+ text +:+ ";" in
  (∀ tick, alterColumn tName field changes POSTGRESQL tick = Ok (statement, tick))
  ∧ (∀ diff model r modification fieldMod,
       fromDiff diff model POSTGRESQL = Ok r →
       modification ∈ modified (diff_tables diff) →
       fieldMod ∈ fieldsModified modification →
       tableName modification = tName →
       fm_field fieldMod = field → fm_changes fieldMod = changes →
       Str.Includes (sql r) statement)
  ∧ (∀ dialect tick,
       dialect = SQLITE_MINIMAL ∨ dialect = SQLITE_EXTENSIONS →
       alterColumn tName field changes dialect tick = Ok ("", tick)).
Proof.
  intros Hnow Htext changes statement.
  assert (∀ tick, alterColumn tName field changes POSTGRESQL tick = Ok (statement, tick))
    as Halter.
  { intros tick. unfold generateAlterColumnSQL, mbind, Eff_bind.
    subst changes. fold (callWithoutArguments funcName).
    rewrite (alterParts_default_now _ _ _ _ Hnow).
    unfold callWithoutArguments. by rewrite Htext. }
  split; [exact Halter|]. split.
  - intros diff model r modification fieldMod Hr Hm Hfm <- <- Hch.
    apply fromDiff_Ok in Hr as (parts & t & Hparts & ->).
    destruct (partsOf_modified _ _ _ _ _ _ _ _ Hparts Hm Hfm)
      as (t1 & t2 & alter & Hcall & Hin).
    rewrite Hch, Halter in Hcall. injection Hcall as <- <-.
    by apply StrFacts.joined_Includes.
  - intros dialect tick Hd. unfold generateAlterColumnSQL, mbind, Eff_bind.
    subst changes. rewrite alterParts_default_sqlite; [done|]. destruct Hd; by subst.
Qed.

End FromDiff.

(** ** Dependence on the clock *)

Lemma alike_mret {A} (R : A → A → Prop) (a1 a2 : A) :
  R a1 a2 → alike R (mret a1) (mret a2).
Proof. intros HR tick. by cbv [mret Eff_ret]. Qed.

Lemma alike_lift {A} (R : A → A → Prop) (r : Result A) :
  (∀ a, R a a) → alike R (lift r) (lift r).
Proof. intros HR tick. unfold lift. destruct r; auto. Qed.

Lemma alike_bind {A B} (R : A → A → Prop) (S : B → B → Prop)
    (c1 c2 : Eff A) (k1 k2 : A → Eff B) :
  alike R c1 c2 → (∀ a1 a2, R a1 a2 → alike S (k1 a1) (k2 a2)) →
  alike S (c1 ≫= k1) (c2 ≫= k2).
Proof.
  intros Hc Hk tick. unfold mbind, Eff_bind. specialize (Hc tick).
  destruct (c1 tick) as [[a1 t1]|m1], (c2 tick) as [[a2 t2]|m2]; try done.
  destruct Hc as [<- HR]. apply (Hk a1 a2 HR t1).
Qed.

Lemma alike_forEachEff {A B} (R : B → B → Prop) (f1 f2 : A → Eff B) (xs : list A) :
  (∀ x, x ∈ xs → alike R (f1 x) (f2 x)) →
  alike (Forall2 R) (forEachEff f1 xs) (forEachEff f2 xs).
Proof.
  induction xs as [|x xs IH]; intros Hf.
  - apply alike_mret. constructor.
  - cbn. eapply alike_bind; [apply Hf; by left|]. intros y1 y2 Hy.
    eapply alike_bind; [apply IH; intros; apply Hf; by right|]. intros ys1 ys2 Hys.
    apply alike_mret. by constructor.
Qed.

Lemma alike_eq {A} (c1 c2 : Eff A) (tick : nat) :
  alike eq c1 c2 → c1 tick = c2 tick.
Proof.
  intros H. specialize (H tick).
  destruct (c1 tick) as [[a1 t1]|m1], (c2 tick) as [[a2 t2]|m2]; try done.
  - by destruct H as [-> ->].
  - by subst.
Qed.

Lemma Forall2_eq {A} (xs ys : list A) : Forall2 eq xs ys → xs = ys.
Proof. induction 1; by f_equal. Qed.

Lemma generateMigrationFromDiff_unfold
    (parseExpression parseCondition : Json → ParserState → Result string)
    (TypeError : Json → string) (clock : nat → Z)
    (diff : DatabaseDiff) (model : DataModel) (dialect : Dialect) :
  generateMigrationFromDiff parseExpression parseCondition TypeError clock
    diff model dialect
  = match diffParts parseExpression parseCondition TypeError clock
            diff model dialect 0%nat with
    | Ok (sqlParts, _) =>
        Ok {| sql := Str.join (nl +:+ nl) (filter Str.truthy sqlParts);
              accessControlDiff := diff_accessControl diff |}
    | Throw m => Throw m
    end.
Proof.
  unfold generateMigrationFromDiff, run, mbind, Eff_bind.
  by destruct (diffParts _ _ _ _ _ _ _ 0%nat) as [[parts t]|m].
Qed.

Section Determinism.
Context (parseExpression parseCondition : Json → ParserState → Result string)
        (TypeError : Json → string) (clock1 clock2 : nat → Z).

Local Abbreviation fromDiff1 :=
  (generateMigrationFromDiff parseExpression parseCondition TypeError clock1).
Local Abbreviation fromDiff2 :=
  (generateMigrationFromDiff parseExpression parseCondition TypeError clock2).
Local Abbreviation alter1 := (generateAlterColumnSQL parseExpression TypeError clock1).
Local Abbreviation alter2 := (generateAlterColumnSQL parseExpression TypeError clock2).

(** The statements of a modified field agree when no clock reading reaches
    them ([same] is equality) and are alike in any case. *)
Lemma alter_alike (R : string → string → Prop) (tName : string) (field : Field)
    (changes : FieldChange) (dialect : Dialect) :
  (∀ s, R s s) →
  (∀ tick newType,
     ch_type changes ≠ None → dialect ≠ POSTGRESQL →
     R (Str.join nl (columnRebuild tName (field_name field) newType (clock1 tick)
                     ++ nullabilityChangeParts tName field changes dialect))
       (Str.join nl (columnRebuild tName (field_name field) newType (clock2 tick)
                     ++ nullabilityChangeParts tName field changes dialect))) →
  alike R (alter1 tName field changes dialect) (alter2 tName field changes dialect).
Proof.
  intros Hrefl Hrebuild tick.
  unfold generateAlterColumnSQL, alterColumnParts, typeChangeParts, defaultChangeParts.
  destruct (ch_type changes) as [c|] eqn:Hc.
  - case_bool_decide as Hd.
    + cbv [mbind Eff_bind mret Eff_ret lift].
      destruct (ch_default changes) as [cd|]; [|by split].
      destruct (change_to cd) as [v|]; [|by split].
      destruct (formatDefaultValue _ _ _ _ _); cbn; [by split | done].
    + cbv [mbind Eff_bind mret Eff_ret lift Date_now].
      destruct (ch_default changes) as [cd|]; rewrite (right_id_L [] (++));
        (split; [done|]); by apply Hrebuild.
  - cbv [mbind Eff_bind mret Eff_ret lift].
    destruct (ch_default changes) as [cd|]; [|by split].
    case_bool_decide as Hd; [|by split].
    destruct (change_to cd) as [v|]; [|by split].
    destruct (formatDefaultValue _ _ _ _ _); cbn; [by split | done].
Qed.

Lemma parts_alike (R : string → string → Prop) (diff : DatabaseDiff)
    (model : DataModel) (dialect : Dialect) :
  (∀ s, R s s) →
  (∀ modification fieldMod,
     modification ∈ modified (diff_tables diff) →
     fieldMod ∈ fieldsModified modification →
     alike R (alter1 (tableName modification) (fm_field fieldMod)
                     (fm_changes fieldMod) dialect)
             (alter2 (tableName modification) (fm_field fieldMod)
                     (fm_changes fieldMod) dialect)) →
  alike (Forall2 R)
    (diffParts parseExpression parseCondition TypeError clock1 diff model dialect)
    (diffParts parseExpression parseCondition TypeError clock2 diff model dialect).
Proof.
  intros Hrefl Halter.
  assert (∀ l : list string, Forall2 R l l) as Hrefl2
    by (intros l; induction l; by constructor).
  assert (∀ l : list (list string), Forall2 (Forall2 R) l l) as Hrefl3
    by (intros l; induction l; by constructor).
  unfold diffParts.
  eapply alike_bind; [by apply (alike_lift eq)|]. intros addedParts ? <-.
  eapply alike_bind.
  { apply (alike_forEachEff (Forall2 R)). intros modification Hm.
    unfold modificationParts.
    eapply alike_bind; [by apply (alike_lift eq)|]. intros addedCols ? <-.
    eapply alike_bind.
    { apply (alike_forEachEff (Forall2 R)). intros fieldMod Hfm.
      unfold modifiedFieldParts.
      eapply alike_bind; [by apply Halter|]. intros a1 a2 Ha.
      apply alike_mret. apply Forall2_app; [done | by constructor]. }
    intros modCols1 modCols2 Hcols. apply alike_mret.
    repeat apply Forall2_app; try done.
    clear -Hcols. induction Hcols; cbn; [constructor | by apply Forall2_app]. }
  intros mods1 mods2 Hmods.
  eapply alike_bind with (R := eq).
  { case_bool_decide; [by apply alike_lift | by apply alike_mret]. }
  intros policies ? <-. apply alike_mret.
  repeat apply Forall2_app; try done.
  clear -Hmods. induction Hmods; cbn; [constructor | by apply Forall2_app].
Qed.

Lemma alike_mono {A} (R S : A → A → Prop) (c1 c2 : Eff A) :
  (∀ a b, R a b → S a b) → alike R c1 c2 → alike S c1 c2.
Proof.
  intros HRS H tick. specialize (H tick).
  destruct (c1 tick) as [[a1 t1]|m1], (c2 tick) as [[a2 t2]|m2]; try done.
  destruct H. auto.
Qed.

Lemma fromDiff_eq (diff : DatabaseDiff) (model : DataModel) (dialect : Dialect) :
  (∀ modification fieldMod,
     modification ∈ modified (diff_tables diff) →
     fieldMod ∈ fieldsModified modification →
     alike eq (alter1 (tableName modification) (fm_field fieldMod)
                      (fm_changes fieldMod) dialect)
              (alter2 (tableName modification) (fm_field fieldMod)
                      (fm_changes fieldMod) dialect)) →
  fromDiff1 diff model dialect = fromDiff2 diff model dialect.
Proof.
  intros Halter. rewrite !generateMigrationFromDiff_unfold.
  rewrite (alike_eq _ _ 0%nat
             (alike_mono _ _ _ _ Forall2_eq (parts_alike eq diff model dialect
                                               (λ s, eq_refl) Halter))).
  done.
Qed.

(** C2, as the code has it.  [generateDatabaseDiff] and
    [generateInitialMigration] are functions of their arguments.
    [generateMigrationFromDiff] also reads the clock.  With equal arguments
    and any two clocks, both invocations throw the same error or both
    return, with the same access-control diff; they return the same SQL when
    the clocks give the same readings, on PostgreSQL, and when no field
    modification changes a type. *)
Theorem migration_deterministic_up_to_clock (diff : DatabaseDiff) (model : DataModel)
    (dialect : Dialect) :
  match fromDiff1 diff model dialect, fromDiff2 diff model dialect with
  | Ok r1, Ok r2 => accessControlDiff r1 = accessControlDiff r2
  | Throw m1, Throw m2 => m1 = m2
  | _, _ => False
  end
  ∧ ((∀ tick, clock1 tick = clock2 tick) →
     fromDiff1 diff model dialect = fromDiff2 diff model dialect)
  ∧ (dialect = POSTGRESQL →
     fromDiff1 diff model dialect = fromDiff2 diff model dialect)
  ∧ ((∀ modification fieldMod,
        modification ∈ modified (diff_tables diff) →
        fieldMod ∈ fieldsModified modification →
        ch_type (fm_changes fieldMod) = None) →
     fromDiff1 diff model dialect = fromDiff2 diff model dialect).
Proof.
  split_and!.
  - pose proof (parts_alike (λ _ _, True) diff model dialect (λ _, I)) as H.
    rewrite !generateMigrationFromDiff_unfold.
    specialize (H (λ m fm _ _, alter_alike (λ _ _, True) _ _ _ _ (λ _, I)
                                 (λ _ _ _ _, I)) 0%nat).
    destruct (diffParts _ _ _ clock1 _ _ _ 0%nat) as [[p1 t1]|m1],
             (diffParts _ _ _ clock2 _ _ _ 0%nat) as [[p2 t2]|m2]; done.
  - intros Hclock. apply fromDiff_eq. intros modification fieldMod _ _.
    apply alter_alike; [done|]. intros tick newType _ _. by rewrite Hclock.
  - intros ->. apply fromDiff_eq. intros modification fieldMod _ _.
    apply alter_alike; done.
  - intros Hnone. apply fromDiff_eq. intros modification fieldMod Hm Hfm.
    apply alter_alike; [done|]. intros tick newType Hsome.
    by rewrite (Hnone _ _ Hm Hfm) in Hsome.
Qed.

End Determinism.

(** ** Evaluations on sample snapshots *)

Lemma diff_self_empty_witness :
  DataModel_wf simpleModel
  ∧ generateDatabaseDiff simpleModel simpleModel
    = {| diff_tables := {| added := []; removed := []; modified := [] |};
         diff_accessControl := {| acd_tables := [] |} |}.
Proof.
  assert (DataModel_wf simpleModel) as Hwf
    by (apply (bool_decide_unpack _); vm_compute; reflexivity).
  split; [exact Hwf|].
  exact (diff_self_empty simpleModel Hwf).
Defined.

(** Without unique names the diff of a snapshot with itself is not empty:
    the name map keeps the last table of a name. *)
Example diff_self_duplicate_names :
  let twice :=
    {| tables := [ {| table_name := "t"; fields := [idField]; accessControl := allowAll |};
                   {| table_name := "t"; fields := []; accessControl := allowAll |} ] |} in
  length (modified (diff_tables (generateDatabaseDiff twice twice))) = 1%nat.
Proof. vm_compute. reflexivity. Qed.

(** The unit tests of the diff engine. *)
Example diff_detects_added_field :
  let d := generateDatabaseDiff simpleModel
             (usersWith [idField; plainField "email" "string" (Some true);
                         plainField "name" "string" (Some false)]) in
  added (diff_tables d) = [] ∧ removed (diff_tables d) = []
  ∧ map (λ m, map field_name (fieldsAdded m)) (modified (diff_tables d)) = [["name"]].
Proof. vm_compute. done. Qed.

Example bootstrap_sqlite_simpleModel :
  generateInitialMigration parseExpression_sample parseCondition_sample TypeError_sample
    simpleModel SQLITE_MINIMAL
  = Ok {| sql := "CREATE TABLE " +:+ quoted "users" +:+ " (" +:+ nl
                 +:+ "  " +:+ quoted "id" +:+ " TEXT PRIMARY KEY," +:+ nl
                 +:+ "  " +:+ quoted "email" +:+ " TEXT NOT NULL" +:+ nl +:+ ");";
          accessControlDiff := {| acd_tables := [] |} |}.
Proof. vm_compute. reflexivity. Qed.

Lemma sqlite_bootstrap_no_access_control_witness :
  ∃ r,
    generateInitialMigration parseExpression_sample parseCondition_sample
      TypeError_sample simpleModel SQLITE_MINIMAL = Ok r
    ∧ acd_tables (accessControlDiff r) = [].
Proof.
  eexists. split; [vm_compute; reflexivity|].
  apply (proj1 (sqlite_bootstrap_no_access_control parseExpression_sample
                  parseCondition_sample TypeError_sample simpleModel SQLITE_MINIMAL
                  (or_introl eq_refl))).
  vm_compute. reflexivity.
Defined.

Lemma postgresql_bootstrap_policies_witness :
  ∃ r,
    generateInitialMigration parseExpression_sample parseCondition_sample
      TypeError_sample simpleModel POSTGRESQL = Ok r
    ∧ acd_tables (accessControlDiff r)
      = [ {| tac_tableName := "users";
             tac_changes :=
               {| acc_read :=
                    Some {| change_from := JBool true; change_to := JBool true |};
                  acc_create :=
                    Some {| change_from := JBool true; change_to := JBool true |};
                  acc_update :=
                    Some {| change_from := JBool true; change_to := JBool true |};
                  acc_delete :=
                    Some {| change_from := JBool true; change_to := JBool true |} |} |} ]
    ∧ Str.Includes (sql r) ("ALTER TABLE " +:+ quoted "users" +:+ " ENABLE ROW LEVEL SECURITY;")
    ∧ Str.Includes (sql r)
        (Str.join (nl +:+ nl)
           ["DROP POLICY IF EXISTS " +:+ quoted "users_read_policy"
              +:+ " ON " +:+ quoted "users" +:+ ";";
            "DROP POLICY IF EXISTS " +:+ quoted "users_create_policy"
              +:+ " ON " +:+ quoted "users" +:+ ";";
            "DROP POLICY IF EXISTS " +:+ quoted "users_update_policy"
              +:+ " ON " +:+ quoted "users" +:+ ";";
            "DROP POLICY IF EXISTS " +:+ quoted "users_delete_policy"
              +:+ " ON " +:+ quoted "users" +:+ ";";
            "CREATE POLICY " +:+ quoted "users_read_policy"
              +:+ " ON " +:+ quoted "users" +:+ " FOR SELECT USING (TRUE);";
            "CREATE POLICY " +:+ quoted "users_create_policy"
              +:+ " ON " +:+ quoted "users" +:+ " FOR INSERT WITH CHECK (TRUE);";
            "CREATE POLICY " +:+ quoted "users_update_policy"
              +:+ " ON " +:+ quoted "users" +:+ " FOR UPDATE USING (TRUE);";
            "CREATE POLICY " +:+ quoted "users_delete_policy"
              +:+ " ON " +:+ quoted "users" +:+ " FOR DELETE USING (TRUE);"]).
Proof.
  eexists. split; [vm_compute; reflexivity|].
  destruct (proj1 (postgresql_bootstrap_policies parseExpression_sample
                     parseCondition_sample TypeError_sample simpleModel) _ eq_refl)
    as [Hdiff Htables].
  destruct (Htables _ (list_elem_of_here _ _))
    as (Hrls & read & create & update & delete & Hr & Hc & Hu & Hd & Hblock).
  injection Hr as <-. injection Hc as <-. injection Hu as <-. injection Hd as <-.
  split; [exact Hdiff|]. split; [exact Hrls | exact Hblock].
Defined.

Lemma column_rebuild_four_statements_witness :
  let clock := clockAt 1730000000000 in
  let changes := fieldChanges (plainField "email" "string" (Some true)) emailAsNumber in
  let tmp := "email_1730000000000_new" in
  alterColumnParts parseExpression_sample TypeError_sample clock
    "users" emailAsNumber changes SQLITE_MINIMAL 0%nat
  = Ok (["ALTER TABLE " +:+ quoted "users" +:+ " ADD COLUMN " +:+ quoted tmp +:+ " REAL;";
         "UPDATE " +:+ quoted "users" +:+ " SET " +:+ quoted tmp
           +:+ " = CAST(" +:+ quoted "email" +:+ " AS REAL);";
         "ALTER TABLE " +:+ quoted "users" +:+ " DROP COLUMN " +:+ quoted "email" +:+ ";";
         "ALTER TABLE " +:+ quoted "users" +:+ " RENAME COLUMN " +:+ quoted tmp
           +:+ " TO " +:+ quoted "email" +:+ ";"], 1%nat).
Proof.
  intros clock changes tmp.
  exact (proj1 (column_rebuild_four_statements parseExpression_sample
                  parseCondition_sample TypeError_sample clock SQLITE_MINIMAL "users"
                  emailAsNumber changes
                  {| change_from := "string"; change_to := "number" |}
                  (or_introl eq_refl) eq_refl) 0%nat).
Defined.

Example retyped_postgresql :
  generateMigrationFromDiff parseExpression_sample parseCondition_sample
    TypeError_sample (clockAt 0) (generateDatabaseDiff simpleModel emailRetyped)
    emailRetyped POSTGRESQL
  = Ok {| sql := "ALTER TABLE " +:+ quoted "users" +:+ " ALTER COLUMN " +:+ quoted "email"
                 +:+ " TYPE NUMERIC;" +:+ nl
                 +:+ "ALTER TABLE " +:+ quoted "users" +:+ " ALTER COLUMN "
                 +:+ quoted "email" +:+ " DROP NOT NULL;";
          accessControlDiff := {| acd_tables := [] |} |}.
Proof. vm_compute. reflexivity. Qed.

Lemma nullability_change_postgresql_only_witness :
  (∃ r,
     generateMigrationFromDiff parseExpression_sample parseCondition_sample
       TypeError_sample (clockAt 0) (generateDatabaseDiff simpleModel emailRetyped)
       emailRetyped POSTGRESQL = Ok r
     ∧ Str.Includes (sql r)
         ("ALTER TABLE " +:+ quoted "users" +:+ " ALTER COLUMN " +:+ quoted "email"
          +:+ " DROP NOT NULL;"))
  ∧ generateMigrationFromDiff parseExpression_sample parseCondition_sample
      TypeError_sample (clockAt 0) (generateDatabaseDiff simpleModel emailRetyped)
      emailRetyped SQLITE_MINIMAL
    = generateMigrationFromDiff parseExpression_sample parseCondition_sample
        TypeError_sample (clockAt 0)
        (withoutNullabilityChanges (generateDatabaseDiff simpleModel emailRetyped))
        emailRetyped SQLITE_MINIMAL.
Proof.
  destruct (nullability_change_postgresql_only parseExpression_sample
              parseCondition_sample TypeError_sample (clockAt 0)
              (generateDatabaseDiff simpleModel emailRetyped) emailRetyped)
    as (Hpg & _ & Hsqlite).
  split.
  - eexists. split; [vm_compute; reflexivity|].
    refine (Hpg _ _ _ {| change_from := true; change_to := false |} eq_refl
              (list_elem_of_here _ _) (list_elem_of_here _ _) eq_refl).
  - apply Hsqlite. left. reflexivity.
Defined.

Example default_now_diff :
  map fieldsModified
      (modified (diff_tables (generateDatabaseDiff withoutDefault withNowDefault)))
  = [[ {| fm_field := createdAt (Some nowCall); fm_changes := defaultAdded nowCall |} ]].
Proof. vm_compute. reflexivity. Qed.

Lemma default_now_postgresql_witness :
  Str.toLowerCase "now" = "now"
  ∧ parseExpression_sample (JObject [("$func", JObject [("NOW", JArray [])])])
      (defaultState POSTGRESQL) = Ok "NOW()"
  ∧ generateAlterColumnSQL parseExpression_sample TypeError_sample (clockAt 0)
      "users" (createdAt (Some nowCall)) (defaultAdded nowCall) POSTGRESQL 0%nat
    = Ok ("ALTER TABLE " +:+ quoted "users" +:+ " ALTER COLUMN " +:+ quoted "created_at"
          +:+ " SET DEFAULT NOW();", 0%nat).
Proof.
  split; [reflexivity|]. split; [reflexivity|].
  exact (proj1 (default_now_postgresql parseExpression_sample parseCondition_sample
                  TypeError_sample (clockAt 0) "users" (createdAt (Some nowCall))
                  "now" "NOW()" eq_refl eq_refl) 0%nat).
Defined.

(** C7 as stated fails on SQLite: the diff has the one field modification,
    whose only change is the default, and the migration is empty. *)
Lemma default_now_sqlite_counterexample :
  ¬ (∀ dialect r,
       generateMigrationFromDiff parseExpression_sample parseCondition_sample
         TypeError_sample (clockAt 0)
         (generateDatabaseDiff withoutDefault withNowDefault) withNowDefault dialect
       = Ok r →
       Str.Includes (sql r) "DEFAULT").
Proof.
  intros H.
  specialize (H SQLITE_MINIMAL {| sql := ""; accessControlDiff := {| acd_tables := [] |} |}).
  apply (StrFacts.not_includes "" "DEFAULT"); [reflexivity|].
  apply H. vm_compute. reflexivity.
Qed.



Lemma migration_deterministic_up_to_clock_witness :
  generateMigrationFromDiff parseExpression_sample parseCondition_sample
    TypeError_sample (clockAt 1) (generateDatabaseDiff simpleModel emailRetyped)
    emailRetyped POSTGRESQL
  = generateMigrationFromDiff parseExpression_sample parseCondition_sample
      TypeError_sample (clockAt 2) (generateDatabaseDiff simpleModel emailRetyped)
      emailRetyped POSTGRESQL.
Proof.
  destruct (migration_deterministic_up_to_clock parseExpression_sample
              parseCondition_sample TypeError_sample (clockAt 1) (clockAt 2)
              (generateDatabaseDiff simpleModel emailRetyped) emailRetyped POSTGRESQL)
    as (_ & _ & Hpg & _).
  exact (Hpg eq_refl).
Defined.

(** C2 as stated fails: the same diff, target model and dialect give two SQL
    texts when the clock reads two values. *)
Lemma migration_clock_counterexample :
  ∃ r1 r2,
    generateMigrationFromDiff parseExpression_sample parseCondition_sample
      TypeError_sample (clockAt 1) (generateDatabaseDiff simpleModel emailRetyped)
      emailRetyped SQLITE_MINIMAL = Ok r1
    ∧ generateMigrationFromDiff parseExpression_sample parseCondition_sample
        TypeError_sample (clockAt 2) (generateDatabaseDiff simpleModel emailRetyped)
        emailRetyped SQLITE_MINIMAL = Ok r2
    ∧ sql r1 ≠ sql r2.
Proof.
  eexists. eexists. split; [vm_compute; reflexivity|]. split; [vm_compute; reflexivity|].
  intros Heq. apply (f_equal (λ s, Str.includes s "email_1_new")) in Heq.
  vm_compute in Heq. discriminate Heq.
Qed.

(** Function names are put in upper case, in the arguments of a call too;
    an array that is not the argument list of a call is left as it is. *)
Example normalize_now :
  normalizeExpression TypeError_sample nowCall
  = Ok (JObject [("$func", JObject [("NOW", JArray [])])]).
Proof. reflexivity. Qed.

Example normalize_nested_call :
  normalizeExpression TypeError_sample
    (JObject [("$func", JObject [("concat", JArray [nowCall; JString "x"])])])
  = Ok (JObject [("$func",
                  JObject [("CONCAT",
                            JArray [JObject [("$func", JObject [("NOW", JArray [])])];
                                    JString "x"])])]).
Proof. reflexivity. Qed.

Example normalize_array_untouched :
  normalizeExpression TypeError_sample (JObject [("$eq", JArray [nowCall; JNumber 1])])
  = Ok (JObject [("$eq", JArray [nowCall; JNumber 1])]).
Proof. reflexivity. Qed.

(** [deepEqual] compares by keys: an array equals the object with its
    indices as keys. *)
Example deepEqual_array_object :
  deepEqualValue (JArray [JNull]) (JObject [("0", JNull)]) = true.
Proof. reflexivity. Qed.

(** The unit test of the incremental path: a [created_at] column defaulting
    to the current time is added on PostgreSQL. *)
Example added_column_postgresql :
  let target :=
    usersWith [idField; plainField "email" "string" (Some true);
               createdAt (Some nowCall)] in
  generateMigrationFromDiff parseExpression_sample parseCondition_sample
    TypeError_sample (clockAt 0) (generateDatabaseDiff simpleModel target)
    target POSTGRESQL
  = Ok {| sql := "ALTER TABLE " +:+ quoted "users" +:+ " ADD COLUMN "
                 +:+ quoted "created_at"
                 +:+ " TIMESTAMP WITH TIME ZONE NOT NULL DEFAULT NOW();";
          accessControlDiff := {| acd_tables := [] |} |}.
Proof. vm_compute. reflexivity. Qed.

(** A table that is new in the target gets its policies from the diff. *)
Example added_table_policies :
  acd_tables (diff_accessControl (generateDatabaseDiff {| tables := [] |} simpleModel))
  = map fromPermissiveDefault (tables simpleModel).
Proof. reflexivity. Qed.

(** * Further properties *)

(** ** [deepEqual] *)

Lemma getProp_Some_elem (entries : list (string * Json)) (k : string) (v : Json) :
  getProp k entries = Some v → (k, v) ∈ entries.
Proof.
  induction entries as [|[k' v'] entries IH]; [done|]. cbn.
  case_decide as Hk; [intros [= ->]; subst; by left | intros H; right; auto].
Qed.

Lemma getProp_None (entries : list (string * Json)) (k : string) :
  getProp k entries = None ↔ k ∉ entries.*1.
Proof.
  induction entries as [|[k' v'] entries IH]; cbn.
  - split; [intros _; apply not_elem_of_nil | done].
  - rewrite not_elem_of_cons. case_decide as Hk; subst.
    + split; [done | by intros [? _]].
    + rewrite IH. split; [by split | by intros [_ ?]].
Qed.

Lemma indexed_keys (start : nat) (items : list Json) (k : string) :
  k ∈ (indexed start items).*1 → ∃ j, (start ≤ j)%nat ∧ k = pretty j.
Proof.
  revert start. induction items as [|x items IH]; intros start; cbn.
  - by intros ?%elem_of_nil.
  - intros [->|Hk]%elem_of_cons; [by exists start|].
    destruct (IH _ Hk) as (j & ? & ->). exists j. split; [lia | done].
Qed.

Lemma indexed_NoDup (start : nat) (items : list Json) :
  NoDup (indexed start items).*1.
Proof.
  revert start. induction items as [|x items IH]; intros start; cbn; constructor.
  - intros (j & Hj & Heq)%indexed_keys. apply (inj pretty) in Heq. lia.
  - apply IH.
Qed.

Lemma indexed_values (start : nat) (items : list Json) (k : string) (x : Json) :
  (k, x) ∈ indexed start items → x ∈ items.
Proof.
  revert start. induction items as [|y items IH]; intros start; cbn.
  - by intros ?%elem_of_nil.
  - intros [[= _ ->]|Hin]%elem_of_cons; [by left | right; eauto].
Qed.

Lemma deepEqualValue_entries (a b : Json) :
  isObject a → isObject b →
  deepEqualValue a b
  = bool_decide (length (ownEntries a) = length (ownEntries b))
    && forallb (sameEntry (ownEntries b)) (ownEntries a).
Proof.
  intros Ha Hb. destruct a as [| | | |xs|es]; try done.
  - assert (Hgen : ∀ keysB i xs,
      (fix each (i : nat) (xs : list Json) {struct xs} : bool :=
         match xs with
         | [] => true
         | x :: rest =>
             match getProp (pretty i) keysB with
             | None => false
             | Some y => deepEqualValue x y && each (S i) rest
             end
         end) i xs = forallb (sameEntry keysB) (indexed i xs)).
    { intros keysB i ys. revert i. induction ys as [|y ys IH]; intros i; [done|].
      cbn [indexed forallb]. unfold sameEntry at 1. cbn [fst snd].
      destruct (getProp (pretty i) keysB); [by rewrite IH | done]. }
    destruct b; try done; cbn [deepEqualValue ownEntries];
      by rewrite Hgen, !indexed_length.
  - assert (Hgen : ∀ keysB es,
      (fix each (es : list (string * Json)) {struct es} : bool :=
         match es with
         | [] => true
         | (key, x) :: rest =>
             match getProp key keysB with
             | None => false
             | Some y => deepEqualValue x y && each rest
             end
         end) es = forallb (sameEntry keysB) es).
    { intros keysB es'. induction es' as [|[k x] es' IH]; [done|].
      cbn [forallb]. unfold sameEntry at 1. cbn [fst snd].
      destruct (getProp k keysB); [by rewrite IH | done]. }
    destruct b; try done; cbn [deepEqualValue ownEntries]; by rewrite Hgen.
Qed.

Lemma ownEntries_NoDup (a : Json) : wellFormed a → NoDup (ownEntries a).*1.
Proof.
  destruct a as [| | | |xs|es]; cbn; try (intros _; constructor).
  - intros _. apply indexed_NoDup.
  - intros [Hnd _]%andb_prop_elim. by apply bool_decide_unpack in Hnd.
Qed.

Lemma ownEntries_wellFormed (a : Json) (k : string) (x : Json) :
  wellFormed a → (k, x) ∈ ownEntries a → wellFormed x.
Proof.
  destruct a as [| | | |xs|es]; cbn; try (by intros _ ?%elem_of_nil).
  - intros Hwf%forallb_True Hin%indexed_values.
    rewrite Forall_forall in Hwf. by apply Hwf.
  - intros [_ Hwf%forallb_True]%andb_prop_elim Hin.
    rewrite Forall_forall in Hwf. by apply (Hwf (k, x)).
Qed.

Lemma forallb_sameEntry (entriesA entriesB : list (string * Json)) :
  forallb (sameEntry entriesB) entriesA
  ↔ ∀ k x, (k, x) ∈ entriesA →
           ∃ y, getProp k entriesB = Some y ∧ deepEqualValue x y.
Proof.
  rewrite forallb_True, Forall_forall. split.
  - intros H k x Hin. apply H in Hin. unfold sameEntry in Hin.
    cbn in Hin. destruct (getProp k entriesB) as [y|]; [|done]. by exists y.
  - intros H [k x] Hin. destruct (H k x Hin) as (y & Hy & Heq).
    unfold sameEntry. cbn. by rewrite Hy.
Qed.

(** Two key lists of the same length, the first without repetition and
    within the second, hold the same keys. *)
Lemma keys_included_back (ka kb : list string) (k : string) :
  NoDup ka → length ka = length kb → (∀ x, x ∈ ka → x ∈ kb) → k ∈ kb → k ∈ ka.
Proof.
  intros Hnd Hlen Hsub Hk.
  assert (Hperm : ka ≡ₚ kb).
  { apply submseteq_length_Permutation; [by apply NoDup_submseteq | lia]. }
  by rewrite Hperm.
Qed.

Lemma entries_matched_back (ea eb : list (string * Json)) :
  NoDup ea.*1 → NoDup eb.*1 → length ea = length eb →
  (∀ k x, (k, x) ∈ ea → ∃ y, getProp k eb = Some y) →
  ∀ k y, (k, y) ∈ eb → ∃ x, (k, x) ∈ ea ∧ getProp k ea = Some x.
Proof.
  intros Ha Hb Hlen Hsub k y Hin.
  assert (Hk : k ∈ ea.*1).
  { apply (keys_included_back _ eb.*1); [done | by rewrite !length_fmap | |].
    - intros k' ([k'' x] & -> & Hx)%list_elem_of_fmap. cbn.
      destruct (Hsub _ _ Hx) as (y' & Hy'%getProp_Some_elem).
      apply list_elem_of_fmap. by exists (k'', y').
    - apply list_elem_of_fmap. by exists (k, y). }
  apply list_elem_of_fmap in Hk as ([k' x] & -> & Hx). cbn.
  exists x. split; [done | by apply getProp_unique].
Qed.

Lemma sameEntries_sym (a b : Json) :
  isObject a → isObject b → wellFormed a → wellFormed b →
  (∀ k x y, (k, x) ∈ ownEntries a → (k, y) ∈ ownEntries b →
            deepEqualValue x y = deepEqualValue y x) →
  deepEqualValue a b = deepEqualValue b a.
Proof.
  intros Hoa Hob Ha Hb IH.
  rewrite (deepEqualValue_entries a b), (deepEqualValue_entries b a) by done.
  pose proof (ownEntries_NoDup a Ha) as Hna.
  pose proof (ownEntries_NoDup b Hb) as Hnb.
  case_bool_decide as Hlen; [|by rewrite bool_decide_eq_false_2 by congruence].
  rewrite bool_decide_eq_true_2 by done. cbn.
  apply eq_bool_prop_intro. rewrite !forallb_sameEntry. split.
  - intros H k y Hin.
    assert (Hsub : ∀ k x, (k, x) ∈ ownEntries a → ∃ y, getProp k (ownEntries b) = Some y).
    { intros k' x' Hx'. destruct (H k' x' Hx') as (y' & ? & _). by exists y'. }
    destruct (entries_matched_back _ _ Hna Hnb Hlen Hsub k y Hin) as (x & Hx & Hgx).
    exists x. split; [done|].
    destruct (H k x Hx) as (y' & Hy' & Heq).
    rewrite (getProp_unique _ _ _ Hnb Hin) in Hy'. injection Hy' as <-.
    by rewrite <- (IH k x y).
  - intros H k x Hin.
    assert (Hsub : ∀ k y, (k, y) ∈ ownEntries b → ∃ x, getProp k (ownEntries a) = Some x).
    { intros k' y' Hy'. destruct (H k' y' Hy') as (x' & ? & _). by exists x'. }
    destruct (entries_matched_back _ _ Hnb Hna (eq_sym Hlen) Hsub k x Hin)
      as (y & Hy & Hgy).
    exists y. split; [done|].
    destruct (H k y Hy) as (x' & Hx' & Heq).
    rewrite (getProp_unique _ _ _ Hna Hin) in Hx'. injection Hx' as <-.
    by rewrite (IH k x y).
Qed.

Lemma deepEqualValue_sym (a b : Json) :
  wellFormed a → wellFormed b → deepEqualValue a b = deepEqualValue b a.
Proof.
  revert b.
  induction a as [| x | x | x | xs IH | es IH] using Json_nested_ind; intros b Ha Hb;
    try (destruct b; cbn; try done; apply bool_decide_ext; naive_solver).
  - destruct (isObject b) eqn:Hob; [|by destruct b].
    apply sameEntries_sym; try done; [by rewrite Hob|].
    intros k x y Hx%indexed_values Hy. rewrite Forall_forall in IH.
    apply IH; [done | |by eapply ownEntries_wellFormed].
    cbn in Ha. apply forallb_True in Ha. rewrite Forall_forall in Ha. by apply Ha.
  - destruct (isObject b) eqn:Hob; [|by destruct b].
    apply sameEntries_sym; try done; [by rewrite Hob|].
    intros k x y Hx Hy. rewrite Forall_forall in IH.
    apply (IH (k, x)); [done | |by eapply ownEntries_wellFormed].
    by eapply (ownEntries_wellFormed (JObject es)).
Qed.

Lemma deepEqualValue_trans (a b c : Json) :
  deepEqualValue a b → deepEqualValue b c → deepEqualValue a c.
Proof.
  revert b c.
  induction a as [| x | x | x | xs IH | es IH] using Json_nested_ind; intros b c;
    try (destruct b; try done; destruct c; try done; cbn;
         rewrite !bool_decide_spec; congruence).
  all: destruct (isObject b) eqn:Hob; [|by destruct b];
    destruct (isObject c) eqn:Hoc; [|by destruct b, c];
    rewrite (deepEqualValue_entries _ b), (deepEqualValue_entries b c),
      (deepEqualValue_entries _ c) by (done || by rewrite ?Hob, ?Hoc);
    intros [Hab Hentries]%andb_True [Hbc Hentries']%andb_True;
    apply bool_decide_unpack in Hab, Hbc;
    apply andb_True; split; [apply bool_decide_pack; congruence|];
    rewrite forallb_sameEntry in *; intros k x Hx;
    destruct (Hentries k x Hx) as (y & Hy & Hxy);
    destruct (Hentries' k y (getProp_Some_elem _ _ _ Hy)) as (z & Hz & Hyz);
    exists z; (split; [done|]); rewrite Forall_forall in IH.
  - apply (IH x (indexed_values _ _ _ _ Hx) y z); done.
  - apply (IH (k, x) Hx y z); done.
Qed.

(** X1. [deepEqual] is an equivalence on JSON values, [undefined] included:
    it is reflexive and symmetric on values whose objects have one entry
    per key (comparing [a] with [b] and [b] with [a] gives the same answer,
    although the code only walks the keys of its first argument), and it is
    transitive. *)
Theorem deepEqual_equivalence :
  (∀ a, from_option (λ x, Is_true (wellFormed x)) True a → deepEqual a a = true)
  ∧ (∀ a b,
       from_option (λ x, Is_true (wellFormed x)) True a →
       from_option (λ x, Is_true (wellFormed x)) True b →
       deepEqual a b = deepEqual b a)
  ∧ (∀ a b c, deepEqual a b = true → deepEqual b c = true → deepEqual a c = true).
Proof.
  split; [apply deepEqual_refl|]. split.
  - intros [x|] [y|]; cbn; try done. apply deepEqualValue_sym.
  - intros [x|] [y|] [z|]; cbn; try done. rewrite <- !Is_true_true.
    apply deepEqualValue_trans.
Qed.

(** X2. [deepEqual] does not see the order of the keys: an object equals
    every object that holds the same entries in another order. *)
Theorem deepEqual_key_order (entries entries' : list (string * Json)) :
  wellFormed (JObject entries) → entries ≡ₚ entries' →
  deepEqual (Some (JObject entries)) (Some (JObject entries')) = true.
Proof.
  intros Hwf Hperm. cbn [deepEqual].
  rewrite deepEqualValue_entries by done. cbn [ownEntries].
  rewrite bool_decide_eq_true_2 by (by rewrite Hperm). cbn.
  apply Is_true_true, forallb_sameEntry. intros k x Hin. exists x. split.
  - apply getProp_unique; [|by rewrite <- Hperm].
    rewrite <- Hperm. by apply (ownEntries_NoDup (JObject entries)).
  - apply Is_true_true, deepEqualValue_refl.
    by apply (ownEntries_wellFormed (JObject entries) k).
Qed.

(** ** Field changes *)

Lemma deepEqual_ForeignKey (a b : option ForeignKey) :
  deepEqual (ForeignKey_value <$> a) (ForeignKey_value <$> b) = bool_decide (a = b).
Proof.
  destruct a as [[t f d u]|], b as [[t' f' d' u']|]; cbn [fmap option_fmap option_map deepEqual];
    try (symmetry; by apply bool_decide_eq_false_2).
  - destruct d as [d|], u as [u|], d' as [d'|], u' as [u'|]; cbn;
      repeat (first [rewrite decide_True by done | rewrite decide_False by done]; cbn);
      repeat case_bool_decide; simplify_eq; try done;
      symmetry; try (by apply bool_decide_eq_true_2);
      by (apply bool_decide_eq_false_2; intros [= ]).
  - by rewrite bool_decide_eq_true_2.
Qed.

(** X3. A foreign-key change is recorded exactly when the two descriptors
    differ (table, field, or either referential action, an absent action
    being different from every given one), and it then carries the old and
    the new descriptor. *)
Theorem foreignKey_change_exact (oldField newField : Field) :
  ch_foreignKey (fieldChanges oldField newField)
  = if bool_decide (foreignKey oldField = foreignKey newField) then None
    else Some {| change_from := foreignKey oldField; change_to := foreignKey newField |}.
Proof.
  unfold fieldChanges. cbn [ch_foreignKey]. rewrite deepEqual_ForeignKey.
  by case_bool_decide.
Qed.

(** ** Access control in the two halves of a diff *)

Lemma Map_new_lookup_Some {V} (key : V → string) (rows : list V) (k : string) (r : V) :
  Map_new key rows !! k = Some r → r ∈ rows ∧ key r = k.
Proof.
  unfold Map_new.
  assert (Hgen : ∀ m : gmap string V,
    foldl (λ m r, <[key r := r]> m) m rows !! k = Some r →
    (r ∈ rows ∧ key r = k) ∨ m !! k = Some r).
  { induction rows as [|x rows IH]; intros m; cbn; [by right|].
    intros [[Hr Hk]|Hm]%IH; [left; split; [by right | done]|].
    destruct (decide (key x = k)) as [Heq|Hne].
    - rewrite <- Heq, lookup_insert_eq in Hm. injection Hm as ->.
      left. split; [by left | done].
    - rewrite lookup_insert_ne in Hm by done. by right. }
  intros [?|Hm]%Hgen; [done|]. by rewrite lookup_empty in Hm.
Qed.

Lemma NoDup_fmap_eq {A B} (f : A → B) (l : list A) (x y : A) :
  NoDup (map f l) → x ∈ l → y ∈ l → f x = f y → x = y.
Proof.
  induction l as [|z l IH]; intros Hnd Hx Hy Heq; [by inversion Hx|].
  cbn in Hnd. apply NoDup_cons in Hnd as [Hz Hnd].
  apply elem_of_cons in Hx as [->|Hx]; apply elem_of_cons in Hy as [->|Hy]; try done.
  - exfalso. apply Hz. rewrite Heq. apply list_elem_of_fmap. eauto.
  - exfalso. apply Hz. rewrite <- Heq. apply list_elem_of_fmap. eauto.
  - by apply IH.
Qed.

(** The flag of [generateTableDiff] and the emptiness test of
    [generateAccessControlDiff] agree on every pair of tables. *)
Lemma accessControlChanged_nonEmpty (o n : AccessControl) :
  negb (deepEqual (Some (AccessControl_value o)) (Some (AccessControl_value n)))
  = AccessControlChange_nonEmpty
      {| acc_read := changeIfDiffers (ac_read o) (ac_read n);
         acc_create := changeIfDiffers (ac_create o) (ac_create n);
         acc_update := changeIfDiffers (ac_update o) (ac_update n);
         acc_delete := changeIfDiffers (ac_delete o) (ac_delete n) |}.
Proof.
  unfold AccessControlChange_nonEmpty, changeIfDiffers. cbn.
  repeat (first [rewrite decide_True by done | rewrite decide_False by done]; cbn).
  destruct (deepEqualValue (ac_read o) (ac_read n)),
    (deepEqualValue (ac_create o) (ac_create n)),
    (deepEqualValue (ac_update o) (ac_update n)),
    (deepEqualValue (ac_delete o) (ac_delete n)); reflexivity.
Qed.

Lemma elem_of_modified (oldTables newTables : list Table) (m : TableModification) :
  m ∈ modified (generateTableDiff oldTables newTables) →
  ∃ newTable oldTable,
    newTable ∈ newTables
    ∧ Map_new table_name oldTables !! table_name newTable = Some oldTable
    ∧ tableName m = table_name newTable
    ∧ accessControlChanged m
      = negb (deepEqual (Some (AccessControl_value (accessControl oldTable)))
                        (Some (AccessControl_value (accessControl newTable)))).
Proof.
  unfold generateTableDiff. cbn [modified].
  intros (newTable & Hin & Hm)%list_elem_of_omap.
  destruct (Map_new table_name oldTables !! table_name newTable) as [oldTable|] eqn:Hold;
    [|done].
  exists newTable, oldTable. split; [done|]. split; [done|].
  cbv zeta in Hm.
  destruct (_ || _ || _ || _) in Hm; [|done]. by injection Hm as <-.
Qed.

(** X4. The two halves of a diff agree on access control.  Among the tables
    present in both snapshots, a table modification carries
    [accessControlChanged] exactly when the access-control diff has an entry
    for that table.  Table names are unique in the new snapshot. *)
Theorem access_control_flag_iff_entry (oldTables newTables : list Table)
    (m : TableModification) :
  NoDup (map table_name newTables) →
  m ∈ modified (generateTableDiff oldTables newTables) →
  accessControlChanged m = true
  ↔ tableName m ∈ map tac_tableName
                      (acd_tables (generateAccessControlDiff oldTables newTables)).
Proof.
  intros Hnd (newTable & oldTable & Hin & Hold & Hname & Hflag)%elem_of_modified.
  rewrite Hflag, accessControlChanged_nonEmpty, Hname.
  unfold generateAccessControlDiff. cbn [acd_tables]. split.
  - intros Hne. apply list_elem_of_fmap.
    eexists. split; [|apply list_elem_of_omap; exists newTable; split; [done|]].
    2:{ rewrite Hold. cbv zeta. rewrite Hne. reflexivity. }
    done.
  - intros (e & He & (t & Ht & Hsome)%list_elem_of_omap)%list_elem_of_fmap.
    assert (t = newTable) as ->.
    { apply (NoDup_fmap_eq table_name newTables); try done.
      destruct (Map_new table_name oldTables !! table_name t); cbv zeta in Hsome.
      - destruct (AccessControlChange_nonEmpty _) in Hsome; [|done].
        injection Hsome as <-. by rewrite He.
      - injection Hsome as <-. by rewrite He. }
    rewrite Hold in Hsome. cbv zeta in Hsome.
    by destruct (AccessControlChange_nonEmpty _).
Qed.

(** X5. Every entry of the access-control diff comes from a table of the new
    snapshot: an added table, with the four operations going from the
    permissive default [true] to the declared conditions, or a table
    modification that carries [accessControlChanged].  Removed tables have
    no entry. *)
Theorem access_entry_origin (oldTables newTables : list Table) (e : TableAccessChange) :
  e ∈ acd_tables (generateAccessControlDiff oldTables newTables) →
  tac_tableName e ∈ map table_name newTables
  ∧ ((∃ t, t ∈ added (generateTableDiff oldTables newTables)
           ∧ e = fromPermissiveDefault t)
     ∨ (∃ m, m ∈ modified (generateTableDiff oldTables newTables)
             ∧ tableName m = tac_tableName e
             ∧ accessControlChanged m = true)).
Proof.
  unfold generateAccessControlDiff, generateTableDiff. cbn [acd_tables added modified].
  intros (t & Ht & Hsome)%list_elem_of_omap.
  destruct (Map_new table_name oldTables !! table_name t) as [o|] eqn:Hold;
    cbv zeta in Hsome.
  - destruct (AccessControlChange_nonEmpty _) eqn:Hne in Hsome; [|done].
    injection Hsome as <-. cbn [tac_tableName].
    split; [apply list_elem_of_fmap; eauto|]. right.
    eexists. split.
    + apply list_elem_of_omap. exists t. split; [done|]. rewrite Hold. cbv zeta.
      rewrite accessControlChanged_nonEmpty, Hne, orb_true_r. reflexivity.
    + done.
  - injection Hsome as <-. cbn [tac_tableName fromPermissiveDefault].
    split; [apply list_elem_of_fmap; eauto|]. left.
    exists t. split; [|done]. apply list_elem_of_filter. split; [|done].
    apply negb_True. intros Hhas%Map_has_spec.
    by apply Map_new_lookup_None in Hold.
Qed.

(** ** Diffs from and to the empty snapshot *)

Lemma filter_all {A} (P : A → Prop) `{∀ x, Decision (P x)} (l : list A) :
  (∀ x, x ∈ l → P x) → filter P l = l.
Proof.
  induction l as [|x l IH]; intros HP; [done|].
  rewrite filter_cons_True by (apply HP; by left).
  f_equal. apply IH. intros y Hy. apply HP. by right.
Qed.

Lemma omap_all_Some {A B} (f : A → option B) (g : A → B) (l : list A) :
  (∀ x, x ∈ l → f x = Some (g x)) → omap f l = map g l.
Proof.
  induction l as [|x l IH]; intros Hf; [done|]. cbn.
  rewrite (Hf x) by (by left). f_equal. apply IH. intros y Hy. apply Hf. by right.
Qed.

Lemma diff_from_emptyModel (model : DataModel) :
  generateDatabaseDiff emptyModel model
  = {| diff_tables := {| added := tables model; removed := []; modified := [] |};
       diff_accessControl := generateAccessControlDiffForFullMigration (tables model) |}.
Proof.
  unfold generateDatabaseDiff, generateTableDiff, generateAccessControlDiff,
    generateAccessControlDiffForFullMigration, emptyModel. cbn [tables].
  rewrite filter_all by done.
  rewrite (omap_all_None _ (tables model)) by done.
  by rewrite (omap_all_Some _ fromPermissiveDefault (tables model)).
Qed.

(** X6. The diff from the snapshot without tables adds every table of the
    new snapshot, in order, and its access-control half is the one of the
    bootstrap path; the diff to the empty snapshot removes every table and
    records no access-control change. *)
Theorem diff_with_empty_snapshot (model : DataModel) :
  generateDatabaseDiff emptyModel model
  = {| diff_tables := {| added := tables model; removed := []; modified := [] |};
       diff_accessControl := generateAccessControlDiffForFullMigration (tables model) |}
  ∧ generateDatabaseDiff model emptyModel
    = {| diff_tables := {| added := []; removed := tables model; modified := [] |};
         diff_accessControl := {| acd_tables := [] |} |}.
Proof.
  split; [apply diff_from_emptyModel|].
  unfold generateDatabaseDiff, generateTableDiff, generateAccessControlDiff, emptyModel.
  cbn [tables]. by rewrite (filter_all _ (tables model)).
Qed.

(** ** Sequencing over related lists *)

Lemma forEach_fmap {A B C} (f : B → Result C) (g : A → B) (xs : list A) :
  forEach f (map g xs) = forEach (λ x, f (g x)) xs.
Proof. induction xs as [|x xs IH]; [done|]. cbn. by rewrite IH. Qed.

Lemma forEach_ext {A B} (f g : A → Result B) (xs : list A) :
  (∀ x, x ∈ xs → f x = g x) → forEach f xs = forEach g xs.
Proof.
  induction xs as [|x xs IH]; intros Hfg; [done|]. cbn.
  rewrite Hfg by (by left). rewrite IH; [done|]. intros y Hy. apply Hfg. by right.
Qed.

Lemma flat_map_fmap {A B C} (f : B → list C) (g : A → B) (xs : list A) :
  flat_map f (map g xs) = flat_map (λ x, f (g x)) xs.
Proof. induction xs as [|x xs IH]; [done|]. cbn. by rewrite IH. Qed.

(** ** The incremental path *)

Section Incremental.
Context (parseExpression parseCondition : Json → ParserState → Result string)
        (TypeError : Json → string) (clock : nat → Z).

Local Abbreviation createTable := (generateCreateTableSQL parseExpression TypeError).
Local Abbreviation bootstrap :=
  (generateInitialMigration parseExpression parseCondition TypeError).
Local Abbreviation fromDiff :=
  (generateMigrationFromDiff parseExpression parseCondition TypeError clock).
Local Abbreviation partsOf :=
  (diffParts parseExpression parseCondition TypeError clock).
Local Abbreviation changesOf :=
  (modificationParts parseExpression TypeError clock).
Local Abbreviation policiesOf := (generateRLSPoliciesSQL parseCondition).

(** The migration of a diff without table modifications. *)
Lemma fromDiff_tables_only (diff : DatabaseDiff) (model : DataModel) (dialect : Dialect) :
  modified (diff_tables diff) = [] →
  fromDiff diff model dialect
  = (creates ← forEach (λ table, createTable table dialect) (added (diff_tables diff));
     policies ← (if bool_decide (dialect = POSTGRESQL)
                 then policiesOf (diff_accessControl diff) model else Ok []);
     Ok {| sql := Str.join (nl +:+ nl)
                    (filter Str.truthy
                       (map (λ table, dropTableSQL (table_name table))
                            (removed (diff_tables diff))
                        ++ creates ++ policies));
           accessControlDiff := diff_accessControl diff |}).
Proof.
  intros Hmod. rewrite generateMigrationFromDiff_unfold.
  unfold diffParts. rewrite Hmod. unfold mbind at 1 2 3, Eff_bind, lift.
  destruct (forEach _ (added _)) as [creates|m]; [|done]. cbn.
  case_bool_decide; cbn.
  - by destruct (generateRLSPoliciesSQL _ _ _) as [policies|m].
  - done.
Qed.

(** X7. Migrating from the empty snapshot against bootstrapping.  On
    PostgreSQL the two paths fail alike, and when they return, the
    incremental path has the statements of the bootstrap but for the
    [ADD CONSTRAINT] statements of the foreign keys, which it leaves out;
    the access-control diffs are the same.  Off PostgreSQL the two paths
    return the same SQL. *)
Theorem bootstrap_vs_diff_from_empty (model : DataModel) (dialect : Dialect) :
  let incremental :=
    fromDiff (generateDatabaseDiff emptyModel model) model dialect in
  (dialect = POSTGRESQL →
   match bootstrap model dialect, incremental with
   | Ok r, Ok r' =>
       accessControlDiff r = accessControlDiff r'
       ∧ ∃ creates policies,
           sql r = Str.join (nl +:+ nl)
                     (filter Str.truthy (creates ++ initialConstraints model ++ policies))
           ∧ sql r' = Str.join (nl +:+ nl) (filter Str.truthy (creates ++ policies))
   | Throw message, Throw message' => message = message'
   | _, _ => False
   end)
  ∧ (dialect = POSTGRESQL → initialConstraints model = [] →
     bootstrap model dialect = incremental)
  ∧ (dialect ≠ POSTGRESQL → sqlOf (bootstrap model dialect) = sqlOf incremental).
Proof.
  cbv zeta. rewrite diff_from_emptyModel.
  rewrite fromDiff_tables_only by done. cbn [diff_tables added removed diff_accessControl].
  unfold generateInitialMigration, initialTableParts.
  destruct (forEach _ (tables model)) as [creates|m]; cbn [mbind Result_bind map app];
    [|by repeat split].
  split; [|split].
  - intros ->. rewrite !bool_decide_eq_true_2 by done.
    destruct (generateRLSPoliciesSQL _ _ _) as [policies|m]; cbn [mbind Result_bind];
      [|done].
    split; [done|]. exists creates, policies. by rewrite <- (assoc_L (++)).
  - intros -> ->. rewrite !bool_decide_eq_true_2 by done. rewrite (right_id_L [] (++)).
    by destruct (generateRLSPoliciesSQL _ _ _) as [policies|m].
  - intros Hd. rewrite !bool_decide_eq_false_2 by done. cbn [mbind Result_bind].
    by rewrite !(right_id_L [] (++)).
Qed.

Lemma defaultClause_withoutForeignKey (field : Field) (dialect : Dialect) :
  defaultClause parseExpression TypeError (withoutForeignKey field) dialect
  = defaultClause parseExpression TypeError field dialect.
Proof. done. Qed.

Lemma createTable_withoutForeignKeys (table : Table) :
  createTable (withoutForeignKeys table) POSTGRESQL = createTable table POSTGRESQL.
Proof.
  unfold generateCreateTableSQL. cbn [fields table_name withoutForeignKeys isSQLite].
  by rewrite forEach_fmap.
Qed.

(** X8. On PostgreSQL the foreign keys of an added table leave no trace in
    the migration of a diff: the result is the one of the diff whose added
    tables declare no foreign key.  ([generateCreateTableSQL] inlines
    foreign keys on SQLite only, and the loop over the added tables pushes
    no [ADD CONSTRAINT].) *)
Theorem added_table_foreign_keys_ignored_postgresql
    (diff : DatabaseDiff) (model : DataModel) :
  fromDiff diff model POSTGRESQL
  = fromDiff (withoutForeignKeysOfAdded diff) model POSTGRESQL.
Proof.
  rewrite !generateMigrationFromDiff_unfold.
  unfold diffParts, withoutForeignKeysOfAdded.
  cbn [diff_tables diff_accessControl added removed modified].
  rewrite forEach_fmap.
  rewrite (forEach_ext (λ x, createTable (withoutForeignKeys x) POSTGRESQL)
                       (λ x, createTable x POSTGRESQL))
    by (intros; apply createTable_withoutForeignKeys).
  done.
Qed.

(** X9. Migrating a well-formed snapshot to itself is a no-op in every
    dialect: the SQL is empty, no access-control change is reported, and
    the compiler is not called. *)
Theorem migration_to_self_is_empty (model : DataModel) (dialect : Dialect) :
  DataModel_wf model →
  fromDiff (generateDatabaseDiff model model) model dialect
  = Ok {| sql := ""; accessControlDiff := {| acd_tables := [] |} |}.
Proof.
  intros [Hnd Hwf]. rewrite Forall_forall in Hwf.
  assert (generateDatabaseDiff model model
          = {| diff_tables := {| added := []; removed := []; modified := [] |};
               diff_accessControl := {| acd_tables := [] |} |}) as ->.
  { unfold generateDatabaseDiff, generateTableDiff, generateAccessControlDiff.
    rewrite filter_absent_self. f_equal; f_equal.
    - apply omap_all_None. intros t Ht.
      rewrite (Map_new_lookup_unique table_name _ t Hnd Ht).
      destruct (Hwf t Ht) as (Hfn & Hfw & Hac).
      rewrite (generateFieldDiff_self _ Hfn Hfw). cbn -[deepEqual AccessControl_value].
      by rewrite (accessControl_self _ Hac).
    - apply omap_all_None. intros t Ht.
      rewrite (Map_new_lookup_unique table_name _ t Hnd Ht).
      destruct (Hwf t Ht) as (_ & _ & Hr & Hc & Hu & Hd).
      by rewrite !changeIfDiffers_self. }
  rewrite fromDiff_tables_only by done. by destruct dialect.
Qed.

(** Two diffs whose table modifications give the same statements have the
    same migration, their other parts being the same. *)
Lemma fromDiff_modified_ext (diff diff' : DatabaseDiff) (model : DataModel)
    (dialect : Dialect) (g : TableModification → TableModification) :
  added (diff_tables diff') = added (diff_tables diff) →
  removed (diff_tables diff') = removed (diff_tables diff) →
  modified (diff_tables diff') = map g (modified (diff_tables diff)) →
  diff_accessControl diff' = diff_accessControl diff →
  (∀ m tick, changesOf dialect (g m) tick = changesOf dialect m tick) →
  fromDiff diff' model dialect = fromDiff diff model dialect.
Proof.
  intros Hadd Hrem Hmod Hac Hg. rewrite !generateMigrationFromDiff_unfold.
  unfold diffParts. rewrite Hadd, Hrem, Hmod, Hac.
  unfold mbind, Eff_bind.
  destruct (lift _ _) as [[creates t1]|m]; [|done].
  rewrite forEachEff_fmap.
  rewrite (forEachEff_ext (λ x, changesOf dialect (g x)) (changesOf dialect))
    by (intros; apply Hg).
  done.
Qed.

(** Two table modifications whose fields give the same statements give the
    same statements. *)
Lemma modificationParts_ext (dialect : Dialect) (m m' : TableModification)
    (h : FieldModification → FieldModification) (tick : nat) :
  tableName m' = tableName m →
  forEach (addedFieldParts parseExpression TypeError (tableName m) dialect)
          (fieldsAdded m')
  = forEach (addedFieldParts parseExpression TypeError (tableName m) dialect)
            (fieldsAdded m) →
  flat_map (removedFieldParts (tableName m) dialect) (fieldsRemoved m')
  = flat_map (removedFieldParts (tableName m) dialect) (fieldsRemoved m) →
  fieldsModified m' = map h (fieldsModified m) →
  (∀ fm t, modifiedFieldParts parseExpression TypeError clock (tableName m) dialect
             (h fm) t
           = modifiedFieldParts parseExpression TypeError clock (tableName m) dialect
               fm t) →
  changesOf dialect m' tick = changesOf dialect m tick.
Proof.
  intros Hname Hadd Hrem Hmod Hh. unfold modificationParts. cbv zeta.
  rewrite Hname, Hadd, Hrem, Hmod. unfold mbind, Eff_bind.
  destruct (lift _ _) as [[addedParts t1]|message]; [|done].
  rewrite forEachEff_fmap.
  rewrite (forEachEff_ext
             (λ x, modifiedFieldParts parseExpression TypeError clock (tableName m)
                     dialect (h x))
             (modifiedFieldParts parseExpression TypeError clock (tableName m) dialect))
    by (intros; apply Hh).
  done.
Qed.

(** X10. A primary-key change never reaches the SQL: in every dialect the
    migration of a diff is the one of the diff without the primary-key part
    of its field changes. *)
Theorem primary_key_change_no_statement (diff : DatabaseDiff) (model : DataModel)
    (dialect : Dialect) :
  fromDiff (overFieldChanges withoutPrimaryKey diff) model dialect
  = fromDiff diff model dialect.
Proof.
  apply (fromDiff_modified_ext _ _ _ _ (overFieldChangesOf withoutPrimaryKey));
    try done.
  intros m tick.
  by apply (modificationParts_ext _ _ _ (overFieldChangesIn withoutPrimaryKey)).
Qed.

Lemma addedFieldParts_withoutForeignKey (tName : string) (dialect : Dialect)
    (field : Field) :
  dialect ≠ POSTGRESQL →
  addedFieldParts parseExpression TypeError tName dialect (withoutForeignKey field)
  = addedFieldParts parseExpression TypeError tName dialect field.
Proof.
  intros Hd. unfold addedFieldParts. cbn [foreignKey withoutForeignKey].
  rewrite bool_decide_eq_false_2 by done.
  assert (generateAddColumnSQL parseExpression TypeError tName
            (withoutForeignKey field) dialect
          = generateAddColumnSQL parseExpression TypeError tName field dialect) as ->
    by done.
  by destruct (foreignKey field).
Qed.

Lemma removedFieldParts_withoutForeignKey (tName : string) (dialect : Dialect)
    (field : Field) :
  dialect ≠ POSTGRESQL →
  removedFieldParts tName dialect (withoutForeignKey field)
  = removedFieldParts tName dialect field.
Proof.
  intros Hd. unfold removedFieldParts. cbn [foreignKey field_name withoutForeignKey].
  rewrite bool_decide_eq_false_2 by done. by destruct (foreignKey field).
Qed.

Lemma modifiedFieldParts_typeChangeOnly (tName : string) (dialect : Dialect)
    (fieldMod : FieldModification) (tick : nat) :
  dialect ≠ POSTGRESQL →
  modifiedFieldParts parseExpression TypeError clock tName dialect
    (overFieldChangesIn typeChangeOnly fieldMod) tick
  = modifiedFieldParts parseExpression TypeError clock tName dialect fieldMod tick.
Proof.
  intros Hd.
  unfold modifiedFieldParts, generateAlterColumnSQL, alterColumnParts,
    foreignKeyChangeParts, nullabilityChangeParts, defaultChangeParts, typeChangeParts.
  cbn [fm_field fm_changes overFieldChangesIn typeChangeOnly
       ch_type ch_nonNullable ch_default ch_foreignKey].
  rewrite !bool_decide_eq_false_2 by done.
  by destruct (ch_foreignKey (fm_changes fieldMod)),
    (ch_nonNullable (fm_changes fieldMod)), (ch_default (fm_changes fieldMod)).
Qed.

Lemma modificationParts_sqliteModification (dialect : Dialect)
    (m : TableModification) (tick : nat) :
  dialect ≠ POSTGRESQL →
  changesOf dialect (sqliteModification m) tick = changesOf dialect m tick.
Proof.
  intros Hd.
  apply (modificationParts_ext _ _ _ (overFieldChangesIn typeChangeOnly)); try done.
  - cbn [fieldsAdded sqliteModification]. rewrite forEach_fmap.
    apply forEach_ext. intros. by apply addedFieldParts_withoutForeignKey.
  - cbn [fieldsRemoved sqliteModification]. rewrite flat_map_fmap.
    apply flat_map_ext. intros. by apply removedFieldParts_withoutForeignKey.
  - intros. by apply modifiedFieldParts_typeChangeOnly.
Qed.

(** X11. What a diff means on SQLite.  Off PostgreSQL the SQL of a
    migration is the SQL of the [sqliteView] of the diff, whatever the
    target snapshot: of a modified field the type change alone counts
    (changes of nullability, default and foreign key are dropped without a
    statement and without a call to the compiler), the foreign keys of
    added and removed columns are not looked at, and neither is the
    access-control half. *)
Theorem sqlite_diff_view (diff : DatabaseDiff) (model model' : DataModel)
    (dialect : Dialect) :
  isSQLite dialect →
  sqlOf (fromDiff diff model dialect) = sqlOf (fromDiff (sqliteView diff) model' dialect).
Proof.
  intros Hs. assert (dialect ≠ POSTGRESQL) as Hd by (by intros ->).
  rewrite !generateMigrationFromDiff_unfold. unfold diffParts.
  cbn [diff_tables diff_accessControl added removed modified sqliteView].
  rewrite !bool_decide_eq_false_2 by done. unfold mbind, Eff_bind.
  destruct (lift _ _) as [[creates t1]|message]; [|done].
  rewrite forEachEff_fmap.
  rewrite (forEachEff_ext (λ x, changesOf dialect (sqliteModification x))
                          (changesOf dialect))
    by (intros; by apply modificationParts_sqliteModification).
  by destruct (forEachEff _ _ _) as [[changes t2]|message].
Qed.

Lemma dropTableSQL_truthy (tName : string) : Str.truthy (dropTableSQL tName).
Proof. done. Qed.

Lemma createTable_truthy (table : Table) (dialect : Dialect) (text : string) :
  createTable table dialect = Ok text → Str.truthy text.
Proof.
  unfold generateCreateTableSQL.
  intros (columns & _ & Hret)%Result_bind_Ok. cbv zeta in Hret.
  by case_bool_decide; injection Hret as <-.
Qed.

Lemma join_prefix (sep : string) (xs ys : list string) :
  Str.startsWith (Str.join sep xs) (Str.join sep (xs ++ ys)) = true.
Proof.
  destruct (decide (xs = [])) as [->|Hxs]; [done|].
  destruct (decide (ys = [])) as [->|Hys].
  - rewrite (right_id_L [] (++)).
    rewrite <- (StrFacts.sapp_nil_r (Str.join sep xs)) at 2.
    apply StrFacts.startsWith_app.
  - rewrite StrFacts.join_app by done. apply StrFacts.startsWith_app.
Qed.

(** X12. The order of a migration.  When [generateMigrationFromDiff]
    returns, its SQL is made of the [DROP TABLE IF EXISTS] statements of the
    removed tables, in the order of the diff, then the [CREATE TABLE] texts
    of the added tables, then the remaining statements; in particular the
    SQL starts with the drops. *)
Theorem migration_drops_then_creates (diff : DatabaseDiff) (model : DataModel)
    (dialect : Dialect) (r : MigrationResult) :
  fromDiff diff model dialect = Ok r →
  let drops :=
    map (λ table, dropTableSQL (table_name table)) (removed (diff_tables diff)) in
  ∃ creates rest,
    Forall2 (λ table text, createTable table dialect = Ok text)
            (added (diff_tables diff)) creates
    ∧ Forall (λ s, Is_true (Str.truthy s)) rest
    ∧ sql r = Str.join (nl +:+ nl) (drops ++ creates ++ rest)
    ∧ Str.startsWith (Str.join (nl +:+ nl) drops) (sql r) = true.
Proof.
  intros (parts & tick & Hparts & ->)%fromDiff_Ok. cbv zeta. cbn [sql].
  unfold diffParts in Hparts.
  apply Eff_bind_Ok in Hparts as (creates & t1 & [Hcreates ->]%lift_Ok & Hparts).
  apply Eff_bind_Ok in Hparts as (changes & t2 & _ & Hparts).
  apply Eff_bind_Ok in Hparts as (policies & t3 & _ & Hret).
  cbv [mret Eff_ret] in Hret. injection Hret as <- _.
  apply forEach_Ok in Hcreates.
  exists creates, (filter Str.truthy (concat changes ++ policies)).
  assert (filter Str.truthy
            (map (λ table, dropTableSQL (table_name table)) (removed (diff_tables diff))
             ++ creates ++ concat changes ++ policies)
          = map (λ table, dropTableSQL (table_name table)) (removed (diff_tables diff))
            ++ creates ++ filter Str.truthy (concat changes ++ policies)) as ->.
  { rewrite !filter_app. f_equal; [|f_equal].
    - apply StrFacts.filter_truthy_id, Forall_forall.
      intros s (t & -> & _)%list_elem_of_fmap. apply dropTableSQL_truthy.
    - apply StrFacts.filter_truthy_id, Forall_forall. intros s Hs.
      apply list_elem_of_lookup in Hs as [i Hi].
      destruct (Forall2_lookup_r _ _ _ _ _ Hcreates Hi) as (t & _ & Ht).
      by apply (createTable_truthy t dialect). }
  split; [done|]. split.
  - apply Forall_forall. by intros s [? _]%list_elem_of_filter.
  - split; [done|]. apply join_prefix.
Qed.

(** X13. On SQLite the text of [CREATE TABLE] carries, after the columns, a
    [FOREIGN KEY] clause for every field that declares a foreign key. *)
Theorem sqlite_create_table_inlines_foreign_keys (table : Table) (dialect : Dialect)
    (field : Field) (fk : ForeignKey) (text : string) :
  isSQLite dialect →
  createTable table dialect = Ok text →
  field ∈ fields table → foreignKey field = Some fk →
  Str.Includes text
    ("  FOREIGN KEY (" +:+ quoted (field_name field) +:+ ") REFERENCES "
     +:+ quoted (fk_table fk) +:+ " (" +:+ quoted (fk_field fk) +:+ ")"
     +:+ referentialActions fk).
Proof.
  intros Hs Htext Hfield Hfk. unfold generateCreateTableSQL in Htext.
  apply Result_bind_Ok in Htext as (columns & _ & Htext). cbv zeta in Htext.
  rewrite bool_decide_eq_false_2 in Htext by (by intros ->).
  injection Htext as <-. destruct (isSQLite dialect); [|done].
  set (clause := _ +:+ _ +:+ _ +:+ _ +:+ _ +:+ _ +:+ _ +:+ _).
  assert (clause ∈ columns ++ omap inlineForeignKey (fields table)) as Hin.
  { apply elem_of_app. right. apply list_elem_of_omap. exists field. split; [done|].
    unfold inlineForeignKey. by rewrite Hfk. }
  apply (StrFacts.join_Includes ("," +:+ nl)) in Hin.
  eapply StrFacts.Includes_trans; [|exact Hin].
  apply StrFacts.Includes_app_r_of. rewrite <- !StrFacts.sapp_assoc.
  apply StrFacts.Includes_app_l_of, StrFacts.Includes_app_l_of.
  apply StrFacts.Includes_app_r.
Qed.

End Incremental.

(** ** Cancellation in string concatenation *)

Lemma slength_app (s t : string) :
  String.length (s +:+ t) = (String.length s + String.length t)%nat.
Proof. induction s as [|c s IH]; [done|]. rewrite StrFacts.sapp_cons. cbn. by rewrite IH. Qed.

Lemma sapp_cancel_l (s a b : string) : s +:+ a = s +:+ b → a = b.
Proof.
  induction s as [|c s IH]; [done|]. rewrite !StrFacts.sapp_cons. intros [= H]. auto.
Qed.

Lemma sapp_cancel_r (s a b : string) : a +:+ s = b +:+ s → a = b.
Proof.
  revert b. induction a as [|c a IH]; intros [|c' b] H; [done| | |].
  - apply (f_equal String.length) in H. rewrite StrFacts.sapp_nil_l in H.
    rewrite slength_app in H. cbn in H. lia.
  - apply (f_equal String.length) in H. rewrite StrFacts.sapp_nil_l in H.
    rewrite slength_app in H. cbn in H. lia.
  - rewrite !StrFacts.sapp_cons in H. injection H as -> H. f_equal. by apply IH.
Qed.

(** ** Row-level security policies *)

Section Policies.
Context (parseCondition : Json → ParserState → Result string).

Lemma elem_of_policyPart (tName operation command clause : string)
    (change : option (Change Json)) (state : ParserState) (parts : list string)
    (s : string) :
  policyPart parseCondition tName operation command clause change state = Ok parts →
  s ∈ parts
  ↔ ∃ c condition,
      change = Some c ∧ parseCondition (change_to c) state = Ok condition
      ∧ s = createPolicySQL tName operation command clause condition.
Proof.
  unfold policyPart. destruct change as [c|].
  - intros (condition & Hc & [= <-])%Result_bind_Ok. rewrite list_elem_of_singleton.
    split; [intros ->; eauto|]. intros (c' & condition' & [= <-] & Hc' & ->). congruence.
  - intros [= <-]. split; [by intros ?%elem_of_nil | by intros (? & ? & ? & _)].
Qed.

Ltac distinct_statements H :=
  unfold createPolicySQL, dropPolicySQL, quoted in H;
  rewrite ?StrFacts.sapp_assoc in H;
  repeat apply sapp_cancel_l in H;
  rewrite ?StrFacts.sapp_cons in H;
  try discriminate H.

(** X14. The policy block of one entry of the access-control diff.  The four
    policies of the table are dropped, whatever changed; the policy of an
    operation is created again exactly when the entry records a change for
    that operation, with the compiled new condition.  The policy of an
    operation that did not change is dropped and not created again. *)
Theorem policies_recreated_only_when_changed (model : DataModel)
    (entry : TableAccessChange) (parts : list string)
    (operation command clause : string)
    (change : AccessControlChange → option (Change Json)) :
  tablePolicies parseCondition model entry = Ok parts →
  (operation, command, clause, change) ∈ operations →
  let tName := tac_tableName entry in
  dropPolicySQL tName operation ∈ parts
  ∧ ∀ condition,
      createPolicySQL tName operation command clause condition ∈ parts
      ↔ ∃ c, change (tac_changes entry) = Some c
             ∧ parseCondition (change_to c) (policyState tName model) = Ok condition.
Proof.
  unfold tablePolicies. intros Hparts Hop. cbv zeta in *.
  apply Result_bind_Ok in Hparts as (r & Hr & Hparts).
  apply Result_bind_Ok in Hparts as (c & Hc & Hparts).
  apply Result_bind_Ok in Hparts as (u & Hu & Hparts).
  apply Result_bind_Ok in Hparts as (d & Hd & [= <-]).
  unfold operations in Hop. split.
  - repeat (apply elem_of_cons in Hop as [[= -> _ _ _]|Hop]; [set_solver|]).
    by apply elem_of_nil in Hop.
  - intros condition. rewrite !elem_of_cons, !elem_of_app.
    rewrite (elem_of_policyPart _ _ _ _ _ _ _ _ Hr), (elem_of_policyPart _ _ _ _ _ _ _ _ Hc),
      (elem_of_policyPart _ _ _ _ _ _ _ _ Hu), (elem_of_policyPart _ _ _ _ _ _ _ _ Hd).
    repeat (apply elem_of_cons in Hop as [[= -> -> -> ->]|Hop]);
      [..|by apply elem_of_nil in Hop].
    all: split;
      [intros [Hdrop|[Hdrop|[Hdrop|[Hdrop|[H|[H|[H|H]]]]]]];
       [by distinct_statements Hdrop..
       |destruct H as (c0 & condition0 & Hsome & Hcond & Heq);
        distinct_statements Heq; apply sapp_cancel_r in Heq as ->; eauto
       |destruct H as (c0 & condition0 & Hsome & Hcond & Heq);
        distinct_statements Heq; apply sapp_cancel_r in Heq as ->; eauto
       |destruct H as (c0 & condition0 & Hsome & Hcond & Heq);
        distinct_statements Heq; apply sapp_cancel_r in Heq as ->; eauto
       |destruct H as (c0 & condition0 & Hsome & Hcond & Heq);
        distinct_statements Heq; apply sapp_cancel_r in Heq as ->; eauto]
      |intros (c0 & Hsome & Hcond); do 4 right; eauto 10].
Qed.

End Policies.

(** ** The temporary column of a rebuild *)

Lemma noUnderscore_app (s t : string) :
  noUnderscore (s +:+ t) = noUnderscore s && noUnderscore t.
Proof.
  induction s as [|c s IH]; [done|]. rewrite StrFacts.sapp_cons. cbn.
  by rewrite IH, andb_assoc.
Qed.

Lemma pretty_N_go_noUnderscore (x : N) (s : string) :
  noUnderscore s → noUnderscore (pretty_N_go x s).
Proof.
  revert s. induction (N.lt_wf_0 x) as [x _ IH]; intros s Hs.
  assert (x = 0 ∨ 0 < x)%N as [->|Hx] by lia; [by rewrite pretty_N_go_0|].
  rewrite pretty_N_go_step by done. apply IH; [by apply N.div_lt|].
  cbn. apply andb_True. split; [|done].
  unfold pretty_N_char. by repeat case_match.
Qed.

Lemma pretty_Z_noUnderscore (z : Z) : noUnderscore (pretty z).
Proof.
  assert (∀ p : positive, noUnderscore (pretty p)) as Hpos.
  { intros p. unfold pretty, pretty_positive, pretty, pretty_N.
    case_decide; [done|]. by apply pretty_N_go_noUnderscore. }
  destruct z as [|p|p]; [done | apply Hpos |].
  unfold pretty, pretty_Z. rewrite noUnderscore_app. apply andb_True. split; [done|].
  apply Hpos.
Qed.

(** A text splits in one way around its last underscore. *)
Lemma last_underscore_split (f f' p p' : string) :
  noUnderscore p → noUnderscore p' →
  f +:+ "_" +:+ p = f' +:+ "_" +:+ p' → f = f' ∧ p = p'.
Proof.
  intros Hp Hp'. revert f'. induction f as [|c f IH]; intros [|c' f'] Heq;
    repeat (rewrite StrFacts.sapp_cons in Heq || rewrite StrFacts.sapp_nil_l in Heq).
  - by injection Heq.
  - injection Heq as <- ->.
    rewrite noUnderscore_app in Hp. by destruct (noUnderscore f').
  - injection Heq as -> <-.
    rewrite noUnderscore_app in Hp'. by destruct (noUnderscore f).
  - injection Heq as -> Heq.
    destruct (IH _ Heq) as [-> ->]. done.
Qed.

(** X15. The temporary column of a SQLite rebuild.  Its name differs from
    the name of the column it replaces, and two rebuilds use the same
    temporary name only for the same column at the same clock reading. *)
Theorem temporaryColumnName_fresh (fieldName fieldName' : string) (now now' : Z) :
  temporaryColumnName fieldName now ≠ fieldName
  ∧ (temporaryColumnName fieldName now = temporaryColumnName fieldName' now' →
     fieldName = fieldName' ∧ now = now').
Proof.
  unfold temporaryColumnName. split.
  - intros Heq. apply (f_equal String.length) in Heq.
    rewrite !slength_app in Heq. cbn in Heq. lia.
  - intros Heq.
    assert (∀ f (n : Z), f +:+ "_" +:+ pretty n +:+ "_new"
                         = (f +:+ "_" +:+ pretty n) +:+ "_new") as Hassoc.
    { intros f n. by rewrite !StrFacts.sapp_assoc. }
    rewrite !Hassoc in Heq. apply sapp_cancel_r in Heq.
    apply last_underscore_split in Heq as [-> Hnow];
      [|apply pretty_Z_noUnderscore..].
    split; [done|]. by apply (inj pretty).
Qed.

(** ** Literal defaults *)

Lemma escapeQuotes_quotesPaired (s : string) : quotesPaired (Str.escapeQuotes s).
Proof.
  induction s as [|c s IH]; [done|]. cbn [Str.escapeQuotes].
  destruct (decide (c = Str.quote)) as [->|Hc].
  - cbn [quotesPaired]. by rewrite !decide_True.
  - cbn [quotesPaired]. by rewrite decide_False.
Qed.

Lemma escapeQuotes_inj (s t : string) :
  Str.escapeQuotes s = Str.escapeQuotes t → s = t.
Proof.
  revert t. induction s as [|c s IH]; intros [|c' t]; cbn [Str.escapeQuotes];
    repeat case_decide; intros Heq; simplify_eq; try done; f_equal; auto.
Qed.

Lemma concat_empty_cons (x : string) (xs : list string) :
  String.concat "" (x :: xs) = x +:+ String.concat "" xs.
Proof. destruct xs; [by rewrite StrFacts.sapp_nil_r | reflexivity]. Qed.

(** [escapeQuotes] spelled character by character: a single quote becomes
    two, every other character stays. *)
Lemma escapeQuotes_spelled (s : string) :
  Str.escapeQuotes s
  = String.concat ""
      (map (λ c, if decide (String c "" = "'") then "''" else String c "")
           (String.list_ascii_of_string s)).
Proof.
  induction s as [|c s IH]; [done|].
  cbn [Str.escapeQuotes String.list_ascii_of_string map].
  rewrite concat_empty_cons, <- IH.
  destruct (decide (c = Str.quote)) as [->|Hc].
  - by rewrite decide_True.
  - rewrite decide_False; [done|]. intros [= ->]. by apply Hc.
Qed.

(** X16. A string default is formatted as one SQL string literal, in every
    dialect and without a call to the compiler: the result is the text of
    the default between single quotes, in which every single quote is
    doubled and every other character is kept, in order.  Every single
    quote inside is thus one of a pair, so that the text cannot end the
    literal, and two different strings give different literals. *)
Theorem string_default_is_a_literal
    (parseExpression : Json → ParserState → Result string) (TypeError : Json → string)
    (s : string) (dialect : Dialect) (model : option DataModel) :
  ∃ body,
    formatDefaultValue parseExpression TypeError (Some (JString s)) dialect model
    = Ok ("'" +:+ body +:+ "'")
    ∧ body = String.concat ""
               (map (λ c, if decide (String c "" = "'") then "''" else String c "")
                    (String.list_ascii_of_string s))
    ∧ quotesPaired body
    ∧ ∀ s', formatDefaultValue parseExpression TypeError (Some (JString s')) dialect model
            = Ok ("'" +:+ body +:+ "'") → s' = s.
Proof.
  exists (Str.escapeQuotes s). split; [done|].
  split; [apply escapeQuotes_spelled|].
  split; [apply escapeQuotes_quotesPaired|].
  intros s' [= Heq]. rewrite !StrFacts.sapp_nil_l in Heq.
  apply sapp_cancel_r in Heq. by apply escapeQuotes_inj.
Qed.

(** ** What an empty diff tells *)

Lemma filter_nil_inv {A} (P : A → Prop) `{∀ x, Decision (P x)} (l : list A) (x : A) :
  filter P l = [] → x ∈ l → ¬ P x.
Proof.
  intros Hnil Hx HP. assert (x ∈ filter P l) as Hin by (by apply list_elem_of_filter).
  rewrite Hnil in Hin. by apply elem_of_nil in Hin.
Qed.

Lemma omap_nil_inv {A B} (f : A → option B) (l : list A) (x : A) :
  omap f l = [] → x ∈ l → f x = None.
Proof.
  intros Hnil Hx. destruct (f x) as [y|] eqn:Hfx; [|done].
  assert (y ∈ omap f l) as Hin by (apply list_elem_of_omap; eauto).
  rewrite Hnil in Hin. by apply elem_of_nil in Hin.
Qed.

Lemma absent_filter_nil {V} (key : V → string) (others rows : list V) (r : V) :
  filter (λ r, negb (Map_has (Map_new key others) (key r))) rows = [] →
  r ∈ rows →
  key r ∈ map key others
  ∧ ∃ o, Map_new key others !! key r = Some o ∧ o ∈ others ∧ key o = key r.
Proof.
  intros Hnil Hr. pose proof (filter_nil_inv _ _ _ Hnil Hr) as Hnot.
  cbv beta in Hnot.
  destruct (Map_has (Map_new key others) (key r)) eqn:Hhas; [|by destruct Hnot].
  apply Is_true_true in Hhas.
  split; [by apply Map_has_spec|].
  unfold Map_has in Hhas. apply bool_decide_unpack in Hhas as [o Ho].
  exists o. split; [done|]. by apply Map_new_lookup_Some.
Qed.

Lemma length_not_positive {A} (l : list A) :
  bool_decide (0 < length l)%nat = false → l = [].
Proof. destruct l; [done|]. intros H. apply bool_decide_eq_false in H. cbn in H. lia. Qed.

Lemma recorded_false {A} (c : bool) (x : A) :
  bool_decide (is_Some (if c then Some x else None)) = false → c = false.
Proof.
  destruct c; [|done]. intros H. apply bool_decide_eq_false in H. destruct H. eauto.
Qed.

Lemma fieldChanges_empty (oldField newField : Field) :
  field_name oldField = field_name newField →
  FieldChange_nonEmpty (fieldChanges oldField newField) = false →
  sameField oldField newField.
Proof.
  intros Hname Hne. unfold FieldChange_nonEmpty, fieldChanges in Hne. cbn in Hne.
  rewrite deepEqual_ForeignKey in Hne.
  apply orb_false_elim in Hne as [Hne Hfk].
  apply orb_false_elim in Hne as [Hne Hdefault].
  apply orb_false_elim in Hne as [Hne Hpk].
  apply orb_false_elim in Hne as [Htype Hnn].
  apply recorded_false in Htype, Hnn, Hpk, Hdefault, Hfk.
  apply bool_decide_eq_false in Htype, Hnn, Hpk.
  apply negb_false_iff in Hdefault, Hfk. apply bool_decide_eq_true in Hfk.
  repeat split; try done; by apply dec_stable.
Qed.


(** ** [normalizeExpression] *)

Section Normalization.
Context (TypeError : Json → string).

Local Abbreviation norm := (normalizeExpression TypeError).

(** One step of [normalizeExpression], in terms of its loops. *)
Lemma normalizeExpression_unfold (expression : Json) :
  norm expression
  = match expression with
    | JObject entries =>
        match getProp "$func" entries with
        | Some funcExpr => normalizePayload TypeError norm funcExpr
        | None => normalizeEntries norm entries []
        end
    | _ => Ok expression
    end.
Proof.
  assert (HeachArg : ∀ items,
    (fix eachArg (items : list Json) : Result (list Json) :=
       match items with
       | [] => Ok []
       | arg :: rest => a ← norm arg; r ← eachArg rest; Ok (a :: r)
       end) items = forEach norm items).
  { induction items as [|x items IH]; [done|]. cbn [forEach].
    destruct (norm x) as [a|m]; [|done]. cbn [mbind Result_bind]. by rewrite IH. }
  assert (HeachFunc : ∀ funcs acc,
    (fix eachFunc (funcs : list (string * Json))
         (normalizedFunc : list (string * Json)) : Result Json :=
       match funcs with
       | [] => Ok (JObject [("$func", JObject normalizedFunc)])
       | (funcName, args) :: more =>
           match args with
           | JArray items =>
               items' ←
                 (fix eachArg (items : list Json) : Result (list Json) :=
                    match items with
                    | [] => Ok []
                    | arg :: rest => a ← norm arg; r ← eachArg rest; Ok (a :: r)
                    end) items;
               eachFunc more
                 (setProp (normalizedName funcName) (JArray items') normalizedFunc)
           | _ => Throw (TypeError args)
           end
       end) funcs acc = normalizeCalls TypeError norm funcs acc).
  { induction funcs as [|[funcName args] more IH]; intros acc; [done|].
    destruct args as [| | | |items|]; try reflexivity.
    cbn [normalizeCalls]. rewrite HeachArg.
    destruct (forEach norm items) as [items'|m]; [|done]. apply IH. }
  assert (HeachIndex : ∀ funcs i acc,
    (fix eachFunc (i : nat) (funcs : list Json)
         (normalizedFunc : list (string * Json)) : Result Json :=
       match funcs with
       | [] => Ok (JObject [("$func", JObject normalizedFunc)])
       | args :: more =>
           match args with
           | JArray items =>
               items' ←
                 (fix eachArg (items : list Json) : Result (list Json) :=
                    match items with
                    | [] => Ok []
                    | arg :: rest => a ← norm arg; r ← eachArg rest; Ok (a :: r)
                    end) items;
               eachFunc (S i) more
                 (setProp (normalizedName (pretty i)) (JArray items') normalizedFunc)
           | _ => Throw (TypeError args)
           end
       end) i funcs acc = normalizeCalls TypeError norm (indexed i funcs) acc).
  { induction funcs as [|args more IH]; intros i acc; [done|].
    destruct args as [| | | |items|]; try reflexivity.
    cbn [normalizeCalls indexed]. rewrite HeachArg.
    destruct (forEach norm items) as [items'|m]; [|done]. apply IH. }
  assert (HeachEntry : ∀ es acc,
    (fix eachEntry (es : list (string * Json))
         (normalized : list (string * Json)) : Result Json :=
       match es with
       | [] => Ok (JObject normalized)
       | (key, value) :: rest =>
           match value with
           | JArray _ | JObject _ =>
               v ← norm value; eachEntry rest (setProp key v normalized)
           | _ => eachEntry rest (setProp key value normalized)
           end
       end) es acc = normalizeEntries norm es acc).
  { induction es as [|[key value] rest IH]; intros acc; [done|].
    destruct value as [| | | |items|entries]; cbn [normalizeEntries isObject];
      try apply IH.
    destruct (norm (JObject entries)) as [v|m]; [apply IH | done]. }
  destruct expression as [| | | |items|entries]; try reflexivity.
  cbn [normalizeExpression]. unfold hasProp.
  destruct (getProp "$func" entries) as [funcExpr|] eqn:Hget.
  - rewrite bool_decide_eq_true_2 by eauto.
    generalize (JObject entries). intros whole.
    induction entries as [|[k v] es IH]; [done|].
    cbn [getProp] in Hget. destruct (decide (k = "$func")) as [->|Hk].
    + injection Hget as ->.
      destruct funcExpr as [| | |text|funcs|funcs]; try reflexivity.
      * apply HeachIndex.
      * apply HeachFunc.
    + auto.
  - rewrite bool_decide_eq_false_2 by (by intros [? ?]).
    apply HeachEntry.
Qed.

(** *** Assignment to a property *)

Lemma setProp_fresh (key : string) (value : Json) (es : list (string * Json)) :
  key ∉ es.*1 → setProp key value es = es ++ [(key, value)].
Proof.
  induction es as [|[k v] es IH]; [done|]. cbn. intros [Hk Hes]%not_elem_of_cons.
  rewrite decide_False by done. by rewrite IH.
Qed.

Lemma elem_of_setProp (key : string) (value : Json) (es : list (string * Json))
    (k : string) (v : Json) :
  (k, v) ∈ setProp key value es → (k = key ∧ v = value) ∨ (k, v) ∈ es.
Proof.
  induction es as [|[k' v'] es IH]; cbn.
  - intros [= -> ->]%list_elem_of_singleton. by left.
  - case_decide as Hk; subst.
    + intros [[= -> ->]|Hin]%elem_of_cons; [by left | right; by right].
    + intros [[= -> ->]|Hin]%elem_of_cons; [right; by left|].
      destruct (IH Hin) as [?|?]; [by left | right; by right].
Qed.

Lemma setProp_keys (key : string) (value : Json) (es : list (string * Json))
    (k : string) :
  k ∈ (setProp key value es).*1 ↔ k = key ∨ k ∈ es.*1.
Proof.
  induction es as [|[k' v'] es IH]; cbn.
  - rewrite list_elem_of_singleton, elem_of_nil. tauto.
  - case_decide as Hk; subst; cbn; rewrite !elem_of_cons; [tauto|].
    rewrite IH. tauto.
Qed.

Lemma setProp_NoDup (key : string) (value : Json) (es : list (string * Json)) :
  NoDup es.*1 → NoDup (setProp key value es).*1.
Proof.
  induction es as [|[k v] es IH]; cbn; [intros _; apply NoDup_singleton|].
  intros [Hk Hes]%NoDup_cons. case_decide as Hkey; subst; cbn.
  - by apply NoDup_cons.
  - apply NoDup_cons. split; [|by apply IH].
    rewrite setProp_keys. intros [?|?]; [congruence | done].
Qed.

(** *** Function names *)

Lemma lower_upper_char (c : Ascii.ascii) :
  Str.lower_char (Str.upper_char c) = Str.lower_char c.
Proof. by destruct c as [[] [] [] [] [] [] [] []]. Qed.

Lemma upper_upper_char (c : Ascii.ascii) :
  Str.upper_char (Str.upper_char c) = Str.upper_char c.
Proof. by destruct c as [[] [] [] [] [] [] [] []]. Qed.

Lemma toLowerCase_toUpperCase (s : string) :
  Str.toLowerCase (Str.toUpperCase s) = Str.toLowerCase s.
Proof.
  induction s as [|c s IH]; [done|].
  unfold Str.toLowerCase, Str.toUpperCase in *. cbn. by rewrite lower_upper_char, IH.
Qed.

Lemma toUpperCase_idemp (s : string) :
  Str.toUpperCase (Str.toUpperCase s) = Str.toUpperCase s.
Proof.
  induction s as [|c s IH]; [done|].
  unfold Str.toUpperCase in *. cbn. by rewrite upper_upper_char, IH.
Qed.

Lemma normalizedName_upper (funcName : string) :
  Str.toUpperCase (normalizedName funcName) = normalizedName funcName.
Proof.
  unfold normalizedName. case_bool_decide; [done | apply toUpperCase_idemp].
Qed.

Lemma normalizedName_idemp (funcName : string) :
  normalizedName (normalizedName funcName) = normalizedName funcName.
Proof.
  unfold normalizedName at 2 3. case_bool_decide as Hnow; [done|].
  unfold normalizedName. rewrite toLowerCase_toUpperCase.
  rewrite bool_decide_eq_false_2 by done. apply toUpperCase_idemp.
Qed.

(** *** Fixed points *)

Lemma size_elem_array (items : list Json) (x : Json) :
  x ∈ items → (size x < size (JArray items))%nat.
Proof.
  cbn [size]. induction items as [|y items IH]; [by intros ?%elem_of_nil|].
  change (x ∈ y :: items → size x < S (size y + list_sum (map size items)))%nat.
  intros [->|Hx]%elem_of_cons; [lia|]. apply IH in Hx. lia.
Qed.

Lemma size_elem_object (entries : list (string * Json)) (k : string) (x : Json) :
  (k, x) ∈ entries → (size x < size (JObject entries))%nat.
Proof.
  cbn [size]. induction entries as [|[k' y] entries IH]; [by intros ?%elem_of_nil|].
  change ((k, x) ∈ (k', y) :: entries
          → size x < S (size y + list_sum (map (λ e, size e.2) entries)))%nat.
  intros [[= -> ->]|Hx]%elem_of_cons; [lia|]. apply IH in Hx. lia.
Qed.

Lemma forEach_fixed (items : list Json) :
  Forall (Normal TypeError) items → forEach norm items = Ok items.
Proof.
  induction 1 as [|x items Hx _ IH]; [done|]. cbn [forEach].
  unfold Normal in Hx. by rewrite Hx, IH.
Qed.

Lemma forEach_Normal (items items' : list Json) :
  (∀ x x', x ∈ items → norm x = Ok x' → Normal TypeError x') →
  forEach norm items = Ok items' → Forall (Normal TypeError) items'.
Proof.
  intros Hnormal Hitems%forEach_Ok.
  induction Hitems as [|x x' items items' Hx _ IH]; constructor.
  - apply (Hnormal x); [by left | done].
  - apply IH. intros y y' Hy. apply Hnormal. by right.
Qed.

Lemma NormalCalls_nil : NormalCalls TypeError [].
Proof. split; [constructor | by intros k v ?%elem_of_nil]. Qed.

Lemma NormalCalls_setProp (funcName : string) (items : list Json)
    (calls : list (string * Json)) :
  NormalCalls TypeError calls → Forall (Normal TypeError) items →
  NormalCalls TypeError (setProp (normalizedName funcName) (JArray items) calls).
Proof.
  intros [Hnd Hcalls] Hitems. split; [by apply setProp_NoDup|].
  intros k v [[-> ->]|Hin]%elem_of_setProp; [|by apply Hcalls].
  split; [apply normalizedName_idemp | eauto].
Qed.

(** The loop over a payload returns a normalised payload. *)
Lemma normalizeCalls_Normal (funcs calls : list (string * Json)) (e' : Json) :
  NormalCalls TypeError calls →
  (∀ funcName items x x',
     (funcName, JArray items) ∈ funcs → x ∈ items → norm x = Ok x' →
     Normal TypeError x') →
  normalizeCalls TypeError norm funcs calls = Ok e' →
  ∃ calls', e' = JObject [("$func", JObject calls')] ∧ NormalCalls TypeError calls'.
Proof.
  revert calls. induction funcs as [|[funcName args] more IH]; intros calls Hcalls Hargs.
  - intros [= <-]. eauto.
  - cbn [normalizeCalls]. destruct args as [| | | |items|]; try done.
    intros (items' & Hitems & Hmore)%Result_bind_Ok.
    apply IH in Hmore; [done| |].
    + apply NormalCalls_setProp; [done|].
      apply (forEach_Normal items); [|done].
      intros x x' Hx. apply (Hargs funcName items); [by left | done].
    + intros name its x x' Hin. apply (Hargs name its). by right.
Qed.

(** On a normalised payload the loop rebuilds the payload. *)
Lemma normalizeCalls_fixed (seen rest : list (string * Json)) :
  NormalCalls TypeError (seen ++ rest) →
  normalizeCalls TypeError norm rest seen
  = Ok (JObject [("$func", JObject (seen ++ rest))]).
Proof.
  revert seen. induction rest as [|[k v] rest IH]; intros seen Hcalls.
  - by rewrite (right_id_L [] (++)).
  - destruct Hcalls as [Hnd Hcalls].
    assert ((k, v) ∈ seen ++ (k, v) :: rest) as Hin
      by (apply elem_of_app; right; by left).
    pose proof (Hcalls k v Hin) as (Hk & items & Hv & Hitems). clear Hin. subst v.
    cbn [normalizeCalls]. rewrite forEach_fixed by done. cbn [mbind Result_bind].
    rewrite Hk, setProp_fresh.
    + rewrite (IH (seen ++ [(k, JArray items)])); [by rewrite <- (assoc_L (++))|].
      rewrite <- (assoc_L (++)). by split.
    + rewrite fmap_app in Hnd. apply NoDup_app in Hnd as (_ & Hdisjoint & _).
      intros Hin. apply (Hdisjoint k Hin). by left.
Qed.

Lemma NormalEntries_setProp (key : string) (value : Json)
    (es : list (string * Json)) :
  NormalEntries TypeError es → key ≠ "$func" → Normal TypeError value →
  NormalEntries TypeError (setProp key value es).
Proof.
  intros (Hnd & Hfunc & Hes) Hkey Hvalue. split; [by apply setProp_NoDup|]. split.
  - rewrite setProp_keys. intros [?|?]; [congruence | done].
  - intros k v [[-> ->]|Hin]%elem_of_setProp; [done | by apply (Hes k)].
Qed.

Lemma primitive_Normal (value : Json) : isObject value = false → Normal TypeError value.
Proof. by destruct value. Qed.

Lemma normalizeEntries_Normal (es normalized : list (string * Json)) (e' : Json) :
  NormalEntries TypeError normalized → "$func" ∉ es.*1 →
  (∀ k v v', (k, v) ∈ es → norm v = Ok v' → Normal TypeError v') →
  normalizeEntries norm es normalized = Ok e' →
  ∃ normalized', e' = JObject normalized' ∧ NormalEntries TypeError normalized'.
Proof.
  revert normalized.
  induction es as [|[key value] rest IH]; intros normalized Hnormalized Hfunc Hvalues.
  - intros [= <-]. eauto.
  - cbn in Hfunc. apply not_elem_of_cons in Hfunc as [Hkey Hfunc].
    cbn [normalizeEntries]. destruct (isObject value) eqn:Hobject.
    + intros (v & Hv & Hrest)%Result_bind_Ok. apply IH in Hrest; [done| |done|].
      * apply NormalEntries_setProp; [done | done |].
        apply (Hvalues key value); [by left | done].
      * intros k x x' Hin. apply (Hvalues k). by right.
    + intros Hrest. apply IH in Hrest; [done| |done|].
      * apply NormalEntries_setProp; [done | done | by apply primitive_Normal].
      * intros k x x' Hin. apply (Hvalues k). by right.
Qed.

Lemma normalizeEntries_fixed (seen rest : list (string * Json)) :
  NormalEntries TypeError (seen ++ rest) →
  normalizeEntries norm rest seen = Ok (JObject (seen ++ rest)).
Proof.
  revert seen. induction rest as [|[k v] rest IH]; intros seen Hentries.
  - by rewrite (right_id_L [] (++)).
  - destruct Hentries as (Hnd & Hfunc & Hvalues).
    assert (Normal TypeError v) as Hv
      by (apply (Hvalues k), elem_of_app; right; by left).
    assert (setProp k v seen = seen ++ [(k, v)]) as Hset.
    { apply setProp_fresh. rewrite fmap_app in Hnd.
      apply NoDup_app in Hnd as (_ & Hdisjoint & _).
      intros Hin. apply (Hdisjoint k Hin). by left. }
    assert (NormalEntries TypeError ((seen ++ [(k, v)]) ++ rest)) as Hnext
      by (rewrite <- (assoc_L (++)); by split).
    cbn [normalizeEntries]. unfold Normal in Hv.
    destruct (isObject v); rewrite ?Hv; cbn [mbind Result_bind];
      rewrite Hset, (IH _ Hnext); by rewrite <- (assoc_L (++)).
Qed.

Lemma NormalCalls_Normal (calls : list (string * Json)) :
  NormalCalls TypeError calls →
  Normal TypeError (JObject [("$func", JObject calls)]).
Proof.
  intros Hcalls. unfold Normal. rewrite normalizeExpression_unfold.
  cbn [getProp]. rewrite decide_True by done. cbn [normalizePayload].
  by rewrite (normalizeCalls_fixed []).
Qed.

Lemma NormalEntries_Normal (es : list (string * Json)) :
  NormalEntries TypeError es → Normal TypeError (JObject es).
Proof.
  intros Hes. unfold Normal. rewrite normalizeExpression_unfold.
  destruct Hes as (Hnd & Hfunc & Hvalues).
  rewrite (proj2 (getProp_None es "$func")) by done.
  by rewrite (normalizeEntries_fixed []).
Qed.

Lemma getProp_Some_key (entries : list (string * Json)) (k : string) (v : Json) :
  getProp k entries = Some v → k ∈ entries.*1.
Proof.
  intros Hin%getProp_Some_elem. apply list_elem_of_fmap. by exists (k, v).
Qed.

(** The payload of a call, once normalised. *)
Lemma normalizePayload_Normal (funcExpr e' : Json) :
  (∀ funcName items x x',
     (funcName, JArray items) ∈ ownEntries funcExpr → x ∈ items → norm x = Ok x' →
     Normal TypeError x') →
  normalizePayload TypeError norm funcExpr = Ok e' →
  ∃ calls, e' = JObject [("$func", JObject calls)] ∧ NormalCalls TypeError calls.
Proof.
  intros Hargs. destruct funcExpr as [| | |text|funcs|funcs]; cbn [normalizePayload];
    try done; try (intros [= <-]; exists []; split; [done | apply NormalCalls_nil]).
  - destruct text; [|done]. intros [= <-]. exists []. split; [done | apply NormalCalls_nil].
  - apply normalizeCalls_Normal; [apply NormalCalls_nil | exact Hargs].
  - apply normalizeCalls_Normal; [apply NormalCalls_nil | exact Hargs].
Qed.

Lemma normalizeExpression_Normal (expression e' : Json) :
  norm expression = Ok e' → Normal TypeError e'.
Proof.
  remember (size expression) as n eqn:Hn. revert expression e' Hn.
  induction (lt_wf n) as [n _ IH]; intros expression e' -> Hnorm.
  rewrite normalizeExpression_unfold in Hnorm.
  destruct expression as [| | | |items|entries];
    try (injection Hnorm as <-; reflexivity).
  destruct (getProp "$func" entries) as [funcExpr|] eqn:Hget.
  - apply normalizePayload_Normal in Hnorm as (calls & -> & Hcalls);
      [by apply NormalCalls_Normal|].
    intros funcName its x x' Hin Hx. apply (IH (size x)); [|done].
    apply getProp_Some_elem, size_elem_object in Hget.
    assert (size (JArray its) < size funcExpr)%nat.
    { destruct funcExpr as [| | | |funcs|funcs]; try (by apply elem_of_nil in Hin).
      - by apply indexed_values, size_elem_array in Hin.
      - by apply size_elem_object in Hin. }
    apply size_elem_array in Hx. lia.
  - apply normalizeEntries_Normal in Hnorm as (normalized & -> & Hnormalized).
    + by apply NormalEntries_Normal.
    + split; [constructor|]. split; [apply not_elem_of_nil | by intros k v ?%elem_of_nil].
    + by apply getProp_None.
    + intros k v v' Hin. apply (IH (size v)); [|done].
      by apply size_elem_object in Hin.
Qed.

(** *** Values without a [__proto__] key *)

Lemma noProto_object (es : list (string * Json)) :
  noProto (JObject es) ↔ NoProtoEntries es.
Proof.
  cbn [noProto]. rewrite forallb_True, Forall_forall. unfold NoProtoEntries. split.
  - intros H k v Hin. apply H in Hin. cbn in Hin.
    apply andb_True in Hin as [Hk Hv]. split; [|done].
    apply negb_True in Hk. intros ->. apply Hk. by apply bool_decide_pack.
  - intros H [k v] Hin. destruct (H k v Hin) as [Hk Hv]. cbn.
    apply andb_True. split; [|done]. apply negb_True. by intros ?%bool_decide_unpack.
Qed.

Lemma noProto_array (items : list Json) :
  noProto (JArray items) ↔ ∀ x, x ∈ items → noProto x.
Proof. cbn [noProto]. by rewrite forallb_True, Forall_forall. Qed.

Lemma NoProtoEntries_setProp (key : string) (value : Json)
    (es : list (string * Json)) :
  key ≠ "__proto__" → noProto value → NoProtoEntries es →
  NoProtoEntries (setProp key value es).
Proof.
  intros Hkey Hvalue Hes k v [[-> ->]|Hin]%elem_of_setProp; [done | by apply Hes].
Qed.

Lemma normalizedName_not_proto (funcName : string) :
  normalizedName funcName ≠ "__proto__".
Proof.
  intros Heq. pose proof (normalizedName_upper funcName) as Hupper.
  rewrite Heq in Hupper. discriminate Hupper.
Qed.

Lemma forEach_noProto (items items' : list Json) :
  (∀ x x', x ∈ items → norm x = Ok x' → noProto x') →
  forEach norm items = Ok items' → noProto (JArray items').
Proof.
  intros Hitems Hall%forEach_Ok. apply noProto_array.
  induction Hall as [|x x' items items' Hx _ IH]; [by intros y ?%elem_of_nil|].
  intros y [->|Hy]%elem_of_cons.
  - apply (Hitems x); [by left | done].
  - apply IH; [|done]. intros z z' Hz. apply Hitems. by right.
Qed.

Lemma normalizeCalls_noProto (funcs calls : list (string * Json)) (e' : Json) :
  NoProtoEntries calls →
  (∀ funcName items x x',
     (funcName, JArray items) ∈ funcs → x ∈ items → norm x = Ok x' → noProto x') →
  normalizeCalls TypeError norm funcs calls = Ok e' → noProto e'.
Proof.
  revert calls. induction funcs as [|[funcName args] more IH]; intros calls Hcalls Hargs.
  - intros [= <-]. apply noProto_object. intros k v [= -> ->]%list_elem_of_singleton.
    split; [done | by apply noProto_object].
  - cbn [normalizeCalls]. destruct args as [| | | |items|]; try done.
    intros (items' & Hitems & Hmore)%Result_bind_Ok.
    apply IH in Hmore; [done| |].
    + apply NoProtoEntries_setProp; [apply normalizedName_not_proto | | done].
      apply (forEach_noProto items); [|done].
      intros x x' Hx. apply (Hargs funcName items); [by left | done].
    + intros name its x x' Hin. apply (Hargs name its). by right.
Qed.

Lemma normalizeEntries_noProto (es normalized : list (string * Json)) (e' : Json) :
  NoProtoEntries normalized → NoProtoEntries es →
  (∀ k v v', (k, v) ∈ es → norm v = Ok v' → noProto v') →
  normalizeEntries norm es normalized = Ok e' → noProto e'.
Proof.
  revert normalized.
  induction es as [|[key value] rest IH]; intros normalized Hnormalized Hes Hvalues.
  - intros [= <-]. by apply noProto_object.
  - destruct (Hes key value) as [Hkey Hvalue]; [by left|].
    assert (NoProtoEntries rest) as Hrest
      by (intros k v Hin; apply Hes; by right).
    cbn [normalizeEntries]. destruct (isObject value).
    + intros (v & Hv & Hmore)%Result_bind_Ok. apply IH in Hmore; [done| |done|].
      * apply NoProtoEntries_setProp; [done | | done].
        apply (Hvalues key value); [by left | done].
      * intros k x x' Hin. apply (Hvalues k). by right.
    + intros Hmore. apply IH in Hmore; [done| |done|].
      * by apply NoProtoEntries_setProp.
      * intros k x x' Hin. apply (Hvalues k). by right.
Qed.

(** Normalising adds no [__proto__] key. *)
Lemma normalizeExpression_noProto (expression e' : Json) :
  noProto expression → norm expression = Ok e' → noProto e'.
Proof.
  remember (size expression) as n eqn:Hn. revert expression e' Hn.
  induction (lt_wf n) as [n _ IH]; intros expression e' -> Hproto Hnorm.
  rewrite normalizeExpression_unfold in Hnorm.
  destruct expression as [| | | |items|entries];
    try (by injection Hnorm as <-).
  apply noProto_object in Hproto.
  destruct (getProp "$func" entries) as [funcExpr|] eqn:Hget.
  - apply getProp_Some_elem in Hget.
    destruct (Hproto _ _ Hget) as [_ Hpayload].
    assert (∀ funcName its x x',
              (funcName, JArray its) ∈ ownEntries funcExpr → x ∈ its →
              norm x = Ok x' → noProto x') as Hargs.
    { intros funcName its x x' Hin Hx. apply (IH (size x)); [|done|].
      - apply size_elem_object in Hget.
        assert (size (JArray its) < size funcExpr)%nat.
        { destruct funcExpr as [| | | |funcs|funcs]; try (by apply elem_of_nil in Hin).
          - by apply indexed_values, size_elem_array in Hin.
          - by apply size_elem_object in Hin. }
        apply size_elem_array in Hx. lia.
      - assert (noProto (JArray its)) as Hits.
        { destruct funcExpr as [| | | |funcs|funcs]; try (by apply elem_of_nil in Hin).
          - apply indexed_values in Hin. by apply (proj1 (noProto_array funcs)).
          - apply noProto_object in Hpayload. by apply (Hpayload funcName). }
        by apply (proj1 (noProto_array its)). }
    destruct funcExpr as [| | |text|funcs|funcs]; cbn [normalizePayload] in Hnorm;
      try done; try (by injection Hnorm as <-).
    + destruct text; [by injection Hnorm as <- | done].
    + apply normalizeCalls_noProto in Hnorm; [done | by intros k v ?%elem_of_nil | done].
    + apply normalizeCalls_noProto in Hnorm; [done | by intros k v ?%elem_of_nil | done].
  - apply normalizeEntries_noProto in Hnorm; [done | by intros k v ?%elem_of_nil | done |].
    intros k v v' Hin. apply (IH (size v)); [|done|].
    + by apply size_elem_object in Hin.
    + by apply (Hproto k).
Qed.

(** X18. [normalizeExpression] is idempotent on the expressions no object of
    which has a key named [__proto__]: normalising what it returned returns
    it unchanged, and a failure stays the failure.  What it returns has no
    [__proto__] key either, so that the second call is on such an
    expression again. *)
Theorem normalizeExpression_idempotent (expression : Json) :
  noProto expression →
  (e' ← norm expression; norm e') = norm expression
  ∧ ∀ e', norm expression = Ok e' → noProto e'.
Proof.
  intros Hproto. split.
  - destruct (norm expression) as [e'|message] eqn:Hnorm; cbn [mbind Result_bind];
      [|done].
    by apply normalizeExpression_Normal in Hnorm.
  - intros e'. by apply normalizeExpression_noProto.
Qed.

(** X19. The result of normalising a call.  When the expression has a
    [$func] key, the result is an object with that key alone (its sibling
    keys are dropped); the payload has one entry per function name, every
    name is in upper case, and every argument list is an array. *)
Theorem normalized_call_shape (entries : list (string * Json)) (funcExpr e' : Json) :
  getProp "$func" entries = Some funcExpr →
  norm (JObject entries) = Ok e' →
  ∃ calls,
    e' = JObject [("$func", JObject calls)]
    ∧ NoDup calls.*1
    ∧ ∀ k v, (k, v) ∈ calls → Str.toUpperCase k = k ∧ ∃ items, v = JArray items.
Proof.
  intros Hget Hnorm. rewrite normalizeExpression_unfold, Hget in Hnorm.
  apply normalizePayload_Normal in Hnorm as (calls & -> & Hnd & Hcalls).
  - exists calls. split; [done|]. split; [done|]. intros k v Hin.
    destruct (Hcalls k v Hin) as (Hk & items & -> & _).
    split; [|eauto]. rewrite <- Hk. apply normalizedName_upper.
  - intros funcName items x x' _ _. apply normalizeExpression_Normal.
Qed.

(** *** Well-typed expressions *)

Lemma normalizeCalls_total (funcs calls : list (string * Json)) :
  (∀ funcName args, (funcName, args) ∈ funcs →
     ∃ items, args = JArray items ∧ ∀ x, x ∈ items → ∃ x', norm x = Ok x') →
  ∃ e', normalizeCalls TypeError norm funcs calls = Ok e'.
Proof.
  revert calls. induction funcs as [|[funcName args] more IH]; intros calls Hargs.
  - cbn. eauto.
  - destruct (Hargs funcName args) as (items & -> & Hitems); [by left|].
    cbn [normalizeCalls]. destruct (forEach_total norm items Hitems) as [items' ->].
    cbn [mbind Result_bind]. apply IH. intros name args Hin.
    apply (Hargs name args). by right.
Qed.

Lemma normalizeEntries_total (es normalized : list (string * Json)) :
  (∀ k v, (k, v) ∈ es → isObject v → ∃ v', norm v = Ok v') →
  ∃ e', normalizeEntries norm es normalized = Ok e'.
Proof.
  revert normalized. induction es as [|[key value] rest IH]; intros normalized Hvalues.
  - cbn. eauto.
  - cbn [normalizeEntries]. destruct (isObject value) eqn:Hobject.
    + destruct (Hvalues key value) as [v ->]; [by left | by rewrite Hobject|].
      cbn [mbind Result_bind]. apply IH. intros k x Hin. apply (Hvalues k). by right.
    + apply IH. intros k x Hin. apply (Hvalues k). by right.
Qed.

(** X20. [normalizeExpression] returns on every expression typed as its
    signature asks: it throws its [TypeError] only on a [$func] payload that
    is not an object of argument arrays. *)
Theorem normalizeExpression_total (expression : Json) :
  wellTyped expression → ∃ e', norm expression = Ok e'.
Proof.
  remember (size expression) as n eqn:Hn. revert expression Hn.
  induction (lt_wf n) as [n _ IH]; intros expression -> Htyped.
  rewrite normalizeExpression_unfold.
  destruct expression as [| | | |items|entries]; eauto.
  cbn [wellTyped] in Htyped. apply forallb_True in Htyped.
  rewrite Forall_forall in Htyped.
  destruct (getProp "$func" entries) as [funcExpr|] eqn:Hget.
  - apply getProp_Some_elem in Hget. pose proof (Htyped _ Hget) as Hpayload.
    cbn [fst snd] in Hpayload. rewrite decide_True in Hpayload by done.
    destruct funcExpr as [| | | | |funcs]; try done. cbn [normalizePayload].
    apply forallb_True in Hpayload. rewrite Forall_forall in Hpayload.
    apply normalizeCalls_total. intros funcName args Hin.
    pose proof (Hpayload _ Hin) as Hargs. cbn [snd] in Hargs.
    destruct args as [| | | |items|]; try done. exists items. split; [done|].
    apply forallb_True in Hargs. rewrite Forall_forall in Hargs.
    intros x Hx. apply (IH (size x)); [|done|by apply Hargs].
    apply size_elem_object in Hget, Hin. apply size_elem_array in Hx. lia.
  - apply normalizeEntries_total. intros k v Hin _.
    apply (IH (size v)); [by apply size_elem_object in Hin | done |].
    pose proof (Htyped _ Hin) as Hv. cbn [fst snd] in Hv.
    rewrite decide_False in Hv; [done|]. intros ->.
    apply getProp_None in Hget. apply Hget, list_elem_of_fmap. by exists ("$func", v).
Qed.

End Normalization.

(** ** Readings of the clock *)

Section ClockReadings.
Context (parseExpression parseCondition : Json → ParserState → Result string)
        (TypeError : Json → string) (clock : nat → Z).

Lemma forEachEff_ticks {A B} (f : A → Eff B) (w : A → nat) (xs : list A)
    (tick tick' : nat) (ys : list B) :
  (∀ x t y t', f x t = Ok (y, t') → t' = (t + w x)%nat) →
  forEachEff f xs tick = Ok (ys, tick') →
  tick' = (tick + list_sum (map w xs))%nat.
Proof.
  intros Hf. revert tick ys. induction xs as [|x xs IH]; intros tick ys; cbn.
  - cbv [mret Eff_ret]. intros [= _ <-]. lia.
  - intros (y & t1 & Hy & (ys' & t2 & Hys & Hret)%Eff_bind_Ok)%Eff_bind_Ok.
    cbv [mret Eff_ret] in Hret. injection Hret as _ <-.
    apply Hf in Hy. apply IH in Hys. unfold list_sum in *. lia.
Qed.

Lemma modifiedFieldParts_ticks (tName : string) (dialect : Dialect)
    (fieldMod : FieldModification) (tick tick' : nat) (parts : list string) :
  modifiedFieldParts parseExpression TypeError clock tName dialect fieldMod tick
  = Ok (parts, tick') →
  tick' = (tick + if bool_decide (dialect = POSTGRESQL) then 0
                  else match ch_type (fm_changes fieldMod) with
                       | Some _ => 1
                       | None => 0
                       end)%nat.
Proof.
  unfold modifiedFieldParts, generateAlterColumnSQL, alterColumnParts.
  intros (alter & t1 & Halter & Hret)%Eff_bind_Ok.
  cbv [mret Eff_ret] in Hret. injection Hret as _ <-.
  apply Eff_bind_Ok in Halter as (sqlParts & t2 & Hparts & Hret).
  cbv [mret Eff_ret] in Hret. injection Hret as _ <-.
  apply Eff_bind_Ok in Hparts as (typeParts & t3 & Htype & Hrest).
  apply Eff_bind_Ok in Hrest as (defaultParts & t4 & [_ ->]%lift_Ok & Hret).
  cbv [mret Eff_ret] in Hret. injection Hret as _ <-.
  unfold typeChangeParts in Htype.
  destruct (ch_type (fm_changes fieldMod)) as [c|]; case_bool_decide;
    cbv [mret Eff_ret mbind Eff_bind Date_now] in Htype; injection Htype as _ <-; lia.
Qed.

Lemma list_sum_indicator {A} (P : A → Prop) `{∀ x, Decision (P x)} (l : list A) :
  list_sum (map (λ x, if decide (P x) then 1 else 0)%nat l) = length (filter P l).
Proof.
  induction l as [|x l IH]; [done|]. rewrite filter_cons.
  change (list_sum (map (λ x, if decide (P x) then 1 else 0)%nat (x :: l)))
    with ((if decide (P x) then 1 else 0)
          + list_sum (map (λ x, if decide (P x) then 1 else 0)%nat l))%nat.
  rewrite IH. by destruct (decide (P x)).
Qed.

Lemma list_sum_zero {A} (l : list A) : list_sum (map (λ _, 0%nat) l) = 0%nat.
Proof. induction l as [|x l IH]; [done | by cbn]. Qed.

Lemma modificationParts_ticks (dialect : Dialect) (modification : TableModification)
    (tick tick' : nat) (parts : list string) :
  modificationParts parseExpression TypeError clock dialect modification tick
  = Ok (parts, tick') →
  tick' = (tick + if bool_decide (dialect = POSTGRESQL) then 0
                  else typeChangesOf modification)%nat.
Proof.
  unfold modificationParts. cbv zeta.
  intros (addedParts & t1 & [_ ->]%lift_Ok & Hrest)%Eff_bind_Ok.
  apply Eff_bind_Ok in Hrest as (modifiedParts & t2 & Hmodified & Hret).
  cbv [mret Eff_ret] in Hret. injection Hret as _ <-.
  apply (forEachEff_ticks _
           (λ fieldMod, if bool_decide (dialect = POSTGRESQL) then 0
                        else if decide (is_Some (ch_type (fm_changes fieldMod)))
                             then 1 else 0)%nat) in Hmodified.
  - rewrite Hmodified. f_equal. case_bool_decide; [apply list_sum_zero|].
    apply list_sum_indicator.
  - intros fieldMod t ps t' Hps. apply modifiedFieldParts_ticks in Hps.
    rewrite Hps. f_equal. case_bool_decide; [done|].
    by destruct (ch_type (fm_changes fieldMod)).
Qed.

(** X22. The clock is read once for every type change of the diff off
    PostgreSQL, one reading per column rebuild, and never on PostgreSQL:
    when the statements of a migration are computed, the number of
    [Date.now()] calls made is the number of type changes, or zero. *)
Theorem clock_read_once_per_rebuild (diff : DatabaseDiff) (model : DataModel)
    (dialect : Dialect) (tick tick' : nat) (parts : list string) :
  diffParts parseExpression parseCondition TypeError clock diff model dialect tick
  = Ok (parts, tick') →
  tick' = (tick + if bool_decide (dialect = POSTGRESQL) then 0
                  else typeChanges diff)%nat.
Proof.
  unfold diffParts.
  intros (addedParts & t1 & [_ ->]%lift_Ok & Hrest)%Eff_bind_Ok.
  apply Eff_bind_Ok in Hrest as (modifiedParts & t2 & Hmodified & Hrest).
  apply Eff_bind_Ok in Hrest as (policies & t3 & Hpolicies & Hret).
  cbv [mret Eff_ret] in Hret. injection Hret as _ <-.
  assert (t3 = t2) as ->.
  { case_bool_decide; [by apply lift_Ok in Hpolicies as [_ ->]|].
    cbv [mret Eff_ret] in Hpolicies. by injection Hpolicies as _ <-. }
  apply (forEachEff_ticks _
           (λ modification, if bool_decide (dialect = POSTGRESQL) then 0
                            else typeChangesOf modification)%nat) in Hmodified.
  - rewrite Hmodified. f_equal. unfold typeChanges.
    case_bool_decide; [apply list_sum_zero | done].
  - intros modification t ps t'. apply modificationParts_ticks.
Qed.

End ClockReadings.

(** ** Parser types *)

(** X21. [mapFieldType] against the type table of [mapFieldTypeToSQL].
    [mapFieldType] does not see the case of its argument and returns one of
    the seven field types.  Of these seven, the keys of the type table, it
    leaves five unchanged and turns [number] and [object] into [string]:
    the two are not among its cases. *)
Theorem mapFieldType_parser_types (fieldType : string) (dialect : Dialect) :
  mapFieldType (Str.toUpperCase fieldType) = mapFieldType fieldType
  ∧ mapFieldType fieldType ∈ (typeMap dialect).*1
  ∧ (fieldType ∈ (typeMap dialect).*1 →
     mapFieldType fieldType
     = if bool_decide (fieldType ∈ ["number"; "object"]) then "string" else fieldType).
Proof.
  split; [|split].
  - unfold mapFieldType. by rewrite toLowerCase_toUpperCase.
  - unfold mapFieldType. destruct dialect; cbn [typeMap fmap list_fmap fst];
      repeat case_bool_decide;
      repeat (first [apply list_elem_of_here | apply list_elem_of_further]).
  - intros Hin. destruct dialect; cbn [typeMap fmap list_fmap fst] in Hin;
      repeat (apply elem_of_cons in Hin as [->|Hin]; [reflexivity|]);
      by apply elem_of_nil in Hin.
Qed.

(** ** Evaluations of the further properties *)

Lemma deepEqual_equivalence_witness :
  deepEqual (Some (JObject [("a", JNumber 1); ("b", JArray [JNull])]))
            (Some (JObject [("b", JArray [JNull]); ("a", JNumber 1)]))
  = deepEqual (Some (JObject [("b", JArray [JNull]); ("a", JNumber 1)]))
              (Some (JObject [("a", JNumber 1); ("b", JArray [JNull])])).
Proof. apply (proj1 (proj2 deepEqual_equivalence)); vm_compute; exact I. Defined.

Lemma deepEqual_key_order_witness :
  deepEqual (Some (JObject [("$func", JObject [("now", JArray [])]); ("x", JNull)]))
            (Some (JObject [("x", JNull); ("$func", JObject [("now", JArray [])])]))
  = true.
Proof.
  apply deepEqual_key_order; [vm_compute; exact I | apply Permutation_swap].
Defined.

Lemma access_control_flag_iff_entry_witness :
  let m := {| tableName := "users"; fieldsAdded := []; fieldsRemoved := [];
              fieldsModified := []; accessControlChanged := true |} in
  accessControlChanged m = true
  ↔ tableName m ∈ map tac_tableName
                      (acd_tables (generateAccessControlDiff (tables simpleModel)
                                     (tables restrictedModel))).
Proof.
  apply access_control_flag_iff_entry.
  - apply (bool_decide_unpack _). vm_compute. reflexivity.
  - vm_compute. apply list_elem_of_here.
Defined.

Lemma access_entry_origin_witness :
  let e := {| tac_tableName := "users";
              tac_changes :=
                {| acc_read := Some {| change_from := JBool true;
                                       change_to := JBool false |};
                   acc_create := None; acc_update := None; acc_delete := None |} |} in
  tac_tableName e ∈ map table_name (tables restrictedModel)
  ∧ ((∃ t, t ∈ added (generateTableDiff (tables simpleModel) (tables restrictedModel))
           ∧ e = fromPermissiveDefault t)
     ∨ (∃ m, m ∈ modified (generateTableDiff (tables simpleModel)
                             (tables restrictedModel))
             ∧ tableName m = tac_tableName e
             ∧ accessControlChanged m = true)).
Proof.
  apply access_entry_origin. vm_compute. apply list_elem_of_here.
Defined.

Lemma bootstrap_vs_diff_from_empty_witness :
  generateInitialMigration parseExpression_sample parseCondition_sample
    TypeError_sample simpleModel POSTGRESQL
  = generateMigrationFromDiff parseExpression_sample parseCondition_sample
      TypeError_sample (clockAt 0) (generateDatabaseDiff emptyModel simpleModel)
      simpleModel POSTGRESQL
  ∧ sqlOf (generateInitialMigration parseExpression_sample parseCondition_sample
             TypeError_sample blogModel SQLITE_MINIMAL)
    = sqlOf (generateMigrationFromDiff parseExpression_sample parseCondition_sample
               TypeError_sample (clockAt 0) (generateDatabaseDiff emptyModel blogModel)
               blogModel SQLITE_MINIMAL).
Proof.
  split.
  - apply (proj1 (proj2 (bootstrap_vs_diff_from_empty parseExpression_sample
                           parseCondition_sample TypeError_sample (clockAt 0)
                           simpleModel POSTGRESQL)) eq_refl).
    vm_compute. reflexivity.
  - apply (proj2 (proj2 (bootstrap_vs_diff_from_empty parseExpression_sample
                           parseCondition_sample TypeError_sample (clockAt 0)
                           blogModel SQLITE_MINIMAL))).
    discriminate.
Defined.

(** On PostgreSQL the foreign key of [posts] is declared by the bootstrap
    and by no statement of the migration from the empty snapshot. *)
Example incremental_from_empty_omits_constraints :
  ∃ r r',
    generateInitialMigration parseExpression_sample parseCondition_sample
      TypeError_sample blogModel POSTGRESQL = Ok r
    ∧ generateMigrationFromDiff parseExpression_sample parseCondition_sample
        TypeError_sample (clockAt 0) (generateDatabaseDiff emptyModel blogModel)
        blogModel POSTGRESQL = Ok r'
    ∧ Str.includes (sql r) "ADD CONSTRAINT" = true
    ∧ Str.includes (sql r') "ADD CONSTRAINT" = false
    ∧ Str.includes (sql r') "FOREIGN KEY" = false.
Proof. do 2 eexists. repeat split; vm_compute; reflexivity. Qed.

Lemma migration_to_self_is_empty_witness :
  generateMigrationFromDiff parseExpression_sample parseCondition_sample
    TypeError_sample (clockAt 0) (generateDatabaseDiff blogModel blogModel)
    blogModel POSTGRESQL
  = Ok {| sql := ""; accessControlDiff := {| acd_tables := [] |} |}.
Proof.
  apply migration_to_self_is_empty.
  apply (bool_decide_unpack _). vm_compute. reflexivity.
Defined.

(** A primary key that appears on an existing column is reported by the
    diff and leaves the SQL empty. *)
Example primary_key_change_is_silent :
  let keyed := usersWith [idField; {| field_name := "email"; field_type := "string";
                                      nonNullable := Some true; primaryKey := Some true;
                                      field_default := None; foreignKey := None |}] in
  modified (diff_tables (generateDatabaseDiff simpleModel keyed)) ≠ []
  ∧ sqlOf (generateMigrationFromDiff parseExpression_sample parseCondition_sample
             TypeError_sample (clockAt 0) (generateDatabaseDiff simpleModel keyed)
             keyed POSTGRESQL) = Ok "".
Proof. split; [discriminate | vm_compute; reflexivity]. Qed.

Lemma sqlite_diff_view_witness :
  sqlOf (generateMigrationFromDiff parseExpression_sample parseCondition_sample
           TypeError_sample (clockAt 0) (generateDatabaseDiff withoutDefault withNowDefault)
           withNowDefault SQLITE_MINIMAL)
  = sqlOf (generateMigrationFromDiff parseExpression_sample parseCondition_sample
             TypeError_sample (clockAt 0)
             (sqliteView (generateDatabaseDiff withoutDefault withNowDefault))
             emptyModel SQLITE_MINIMAL).
Proof.
  apply sqlite_diff_view. vm_compute. exact I.
Defined.

Lemma migration_drops_then_creates_witness :
  ∃ r,
    generateMigrationFromDiff parseExpression_sample parseCondition_sample
      TypeError_sample (clockAt 0) (generateDatabaseDiff blogModel simpleModel)
      simpleModel POSTGRESQL = Ok r
    ∧ Str.startsWith (dropTableSQL "posts") (sql r) = true.
Proof.
  eexists. split; [vm_compute; reflexivity|].
  destruct (migration_drops_then_creates parseExpression_sample parseCondition_sample
              TypeError_sample (clockAt 0) (generateDatabaseDiff blogModel simpleModel)
              simpleModel POSTGRESQL _ eq_refl)
    as (creates & rest & _ & _ & _ & Hstarts).
  exact Hstarts.
Defined.

Lemma sqlite_create_table_inlines_foreign_keys_witness :
  ∃ text,
    generateCreateTableSQL parseExpression_sample TypeError_sample postsTable
      SQLITE_MINIMAL = Ok text
    ∧ Str.Includes text
        ("  FOREIGN KEY (" +:+ quoted "author_id" +:+ ") REFERENCES "
         +:+ quoted "users" +:+ " (" +:+ quoted "id" +:+ ")" +:+ " ON DELETE CASCADE").
Proof.
  eexists. split; [vm_compute; reflexivity|].
  apply (sqlite_create_table_inlines_foreign_keys parseExpression_sample TypeError_sample
           postsTable SQLITE_MINIMAL authorField
           {| fk_table := "users"; fk_field := "id";
              fk_onDelete := Some "cascade"; fk_onUpdate := None |}).
  - vm_compute. exact I.
  - vm_compute. reflexivity.
  - vm_compute. apply list_elem_of_further, list_elem_of_here.
  - reflexivity.
Defined.

Lemma policies_recreated_only_when_changed_witness :
  let entry := {| tac_tableName := "users";
                  tac_changes :=
                    {| acc_read := Some {| change_from := JBool true;
                                           change_to := JBool false |};
                       acc_create := None; acc_update := None; acc_delete := None |} |} in
  dropPolicySQL "users" "create"
    ∈ dropPolicies "users" ++ [createPolicySQL "users" "read" "SELECT" "USING" "FALSE"]
  ∧ ∀ condition,
      createPolicySQL "users" "create" "INSERT" "WITH CHECK" condition
        ∈ dropPolicies "users" ++ [createPolicySQL "users" "read" "SELECT" "USING" "FALSE"]
      ↔ ∃ c, acc_create (tac_changes entry) = Some c
             ∧ parseCondition_sample (change_to c) (policyState "users" restrictedModel)
               = Ok condition.
Proof.
  intros entry.
  apply (policies_recreated_only_when_changed parseCondition_sample restrictedModel
           entry _ "create" "INSERT" "WITH CHECK" acc_create).
  - vm_compute. reflexivity.
  - vm_compute. apply list_elem_of_further, list_elem_of_here.
Defined.


(** Restricting [read] alone drops the four policies of [users] and creates
    the read policy again: the other three are gone. *)
Example policies_lost_on_partial_change :
  ∃ r,
    generateMigrationFromDiff parseExpression_sample parseCondition_sample
      TypeError_sample (clockAt 0) (generateDatabaseDiff simpleModel restrictedModel)
      restrictedModel POSTGRESQL = Ok r
    ∧ Str.includes (sql r) (dropPolicySQL "users" "create") = true
    ∧ Str.includes (sql r) ("CREATE POLICY " +:+ quoted "users_read_policy") = true
    ∧ Str.includes (sql r) ("CREATE POLICY " +:+ quoted "users_create_policy") = false.
Proof. eexists. repeat split; vm_compute; reflexivity. Qed.

Lemma clock_read_once_per_rebuild_witness :
  1%nat = (0 + if bool_decide (SQLITE_MINIMAL = POSTGRESQL) then 0
               else typeChanges (generateDatabaseDiff simpleModel emailRetyped))%nat.
Proof.
  eapply (clock_read_once_per_rebuild parseExpression_sample parseCondition_sample
            TypeError_sample (clockAt 0) (generateDatabaseDiff simpleModel emailRetyped)
            emailRetyped SQLITE_MINIMAL 0 1).
  vm_compute. reflexivity.
Defined.

Lemma normalizeExpression_idempotent_witness :
  let e := JObject [("left", JObject [("$func", JObject [("concat", JArray [nowCall])])]);
                    ("right", JArray [nowCall])] in
  (e' ← normalizeExpression TypeError_sample e; normalizeExpression TypeError_sample e')
  = normalizeExpression TypeError_sample e
  ∧ ∀ e', normalizeExpression TypeError_sample e = Ok e' → noProto e'.
Proof.
  apply normalizeExpression_idempotent. vm_compute. exact I.
Defined.

(** The quote of [it's] is doubled. *)
Example string_default_quote_doubled :
  formatDefaultValue parseExpression_sample TypeError_sample (Some (JString "it's"))
    POSTGRESQL None
  = Ok "'it''s'".
Proof. reflexivity. Qed.

Lemma normalized_call_shape_witness :
  ∃ calls,
    JObject [("$func", JObject [("NOW", JArray [])])]
    = JObject [("$func", JObject calls)]
    ∧ NoDup calls.*1
    ∧ ∀ k v, (k, v) ∈ calls → Str.toUpperCase k = k ∧ ∃ items, v = JArray items.
Proof.
  apply (normalized_call_shape TypeError_sample
           [("$func", JObject [("now", JArray [])]); ("comment", JString "dropped")]
           (JObject [("now", JArray [])])); reflexivity.
Defined.

Lemma normalizeExpression_total_witness :
  ∃ e',
    normalizeExpression TypeError_sample
      (JObject [("$and", JArray [nowCall]);
                ("left", JObject [("$func", JObject [("concat", JArray [nowCall])])])])
    = Ok e'.
Proof. apply normalizeExpression_total. vm_compute. exact I. Defined.

(** A [$func] payload that is not an object of arrays makes the engine
    throw. *)
Example normalizeExpression_ill_typed :
  normalizeExpression TypeError_sample (JObject [("$func", JObject [("now", JNull)])])
  = Throw "TypeError".
Proof. reflexivity. Qed.

Lemma mapFieldType_parser_types_witness :
  mapFieldType "number"
  = if bool_decide ("number" ∈ ["number"; "object"]) then "string" else "number".
Proof.
  apply (proj2 (proj2 (mapFieldType_parser_types "number" POSTGRESQL))).
  apply list_elem_of_further, list_elem_of_here.
Defined.

(** A [number] column reaches the compiler as a [string] field. *)
Example number_field_typed_as_string :
  cfg_tables (createParserConfig (usersWith [plainField "age" "number" None]) POSTGRESQL)
    !! "users"
  = Some [{| af_name := "age"; af_type := "string"; af_nullable := true;
             af_default := None |}].
Proof. vm_compute. reflexivity. Qed.
